(** * A shallow embedding of the caching DNS resolver (package dnscache)
      and of the packet resolver (package dnsresolver).

    Go values are modelled as the code has them: unsigned and signed
    machine integers are [Z] with the wrap-around written out, slices of
    resources are references to backing arrays in a heap, resource bodies
    are pointers into a heap of bodies, cache entries are heap objects
    linked by the intrusive list of cache_list.go, and the fingerprint map
    is a finite map from keys to entry pointers. *)

From Stdlib Require Import ZArith Lia.
From stdpp Require Import gmap strings list fin_maps.

Local Open Scope Z_scope.

(** ** Machine integers and time *)

Definition wrap_u32 (z : Z) : Z := z mod 2 ^ 32.
Definition wrap_u64 (z : Z) : Z := z mod 2 ^ 64.
Definition min_i64 : Z := - 2 ^ 63.
Definition max_i64 : Z := 2 ^ 63 - 1.
(** Two's complement wrap-around of an int64 result. *)
Definition wrap_i64 (z : Z) : Z := (z + 2 ^ 63) mod 2 ^ 64 - 2 ^ 63.
Definition MaxUint32 : Z := 2 ^ 32 - 1.

(** time.Time is an instant counted in nanoseconds; time.Duration is an
    int64 count of nanoseconds. *)
Definition Time := Z.
Definition Duration := Z.
Definition Second : Duration := 1000000000.

(** t.After(u) *)
Definition After (t u : Time) : bool := bool_decide (u < t).
(** t.Add(d) *)
Definition Add (t : Time) (d : Duration) : Time := t + d.
(** t.Sub(u): the difference, saturated to the range of a Duration. *)
Definition Sub (t u : Time) : Duration := Z.max min_i64 (Z.min max_i64 (t - u)).

(** ** The message data model *)

(** Modelled from the spec: package dnsmessage is not part of the sources;
    its types follow section 3 of the specification (question, resource
    record with a tagged body, message with four sections), with the
    numeric codes of RFC 1035. *)
Definition Name := string.
Definition Type_ := Z.
Definition Class := Z.
Definition RCode := Z.

Definition TypeA : Type_ := 1.
Definition TypeNS : Type_ := 2.
Definition TypeCNAME : Type_ := 5.
Definition TypeSOA : Type_ := 6.
Definition TypeMX : Type_ := 15.
Definition TypeTXT : Type_ := 16.
Definition TypeAAAA : Type_ := 28.
Definition ClassINET : Class := 1.

Definition RCodeSuccess : RCode := 0.
Definition RCodeFormatError : RCode := 1.
Definition RCodeServerFailure : RCode := 2.
Definition RCodeNameError : RCode := 3.
Definition RCodeNotImplemented : RCode := 4.
Definition RCodeRefused : RCode := 5.

Record Question := mkQuestion {
  QName : Name;
  QType : Type_;
  QClass : Class
}.

Record ResourceHeader := mkResourceHeader {
  RName : Name;
  RType : Type_;
  RClass : Class;
  TTL : Z
}.

Record SOAFields := mkSOA {
  SOA_NS : Name;
  SOA_MBox : Name;
  Serial : Z;
  Refresh : Z;
  Retry : Z;
  Expire : Z;
  MinTTL : Z
}.

Inductive ResourceBody :=
| AResource (a : list Z)
| AAAAResource (aaaa : list Z)
| CNAMEResource (cname : Name)
| SOAResource (soa : SOAFields)
| MXResource (pref : Z) (mx : Name)
| NSResource (ns : Name)
| TXTResource (txt : list string).

(** Heap addresses.  A Go pointer is an address or nil ([None]). *)
Definition addr := nat.

(** A resource: the header is held by value, the body is an interface
    value holding a pointer to the body object. *)
Record Resource := mkResource {
  Header : ResourceHeader;
  Body : option addr
}.

Record MsgHeader := mkMsgHeader {
  ID : Z;
  Response : bool;
  OpCode : Z;
  Authoritative : bool;
  Truncated : bool;
  RecursionDesired : bool;
  RecursionAvailable : bool;
  RCode_ : RCode
}.

(** A slice of resources refers to its backing array; nil is [None].  The
    code only ever handles slices that span their whole array. *)
Definition slice := option addr.

Record Message := mkMessage {
  MHeader : MsgHeader;
  Questions : list Question;
  Answers : slice;
  Authorities : slice;
  Additionals : slice
}.

Definition zeroHeader : MsgHeader := mkMsgHeader 0 false 0 false false false false 0.
(** dnsmessage.Message{} *)
Definition zeroMessage : Message := mkMessage zeroHeader [] None None None.

#[global] Instance Question_eq_dec : EqDecision Question.
Proof. solve_decision. Defined.
#[global] Instance ResourceHeader_eq_dec : EqDecision ResourceHeader.
Proof. solve_decision. Defined.
#[global] Instance Resource_eq_dec : EqDecision Resource.
Proof. solve_decision. Defined.
#[global] Instance Resource_inhabited : Inhabited Resource :=
  populate (mkResource (mkResourceHeader "" 0 0 0) None).

Definition set_TTL (r : Resource) (ttl : Z) : Resource :=
  mkResource (mkResourceHeader (RName (Header r)) (RType (Header r))
                               (RClass (Header r)) ttl) (Body r).

(** ** The heap shared with callers: backing arrays and resource bodies *)

Record Mem := mkMem {
  arrays : gmap addr (list Resource);
  bodies : gmap addr ResourceBody
}.

(** The elements of a slice. *)
Definition load (h : Mem) (s : slice) : list Resource :=
  match s with
  | None => []
  | Some a => default [] (arrays h !! a)
  end.

(** Writing the elements of a slice in place. *)
Definition store (h : Mem) (s : slice) (rs : list Resource) : Mem :=
  match s with
  | None => h
  | Some a => mkMem (<[a := rs]> (arrays h)) (bodies h)
  end.

(** append([]dnsmessage.Resource(nil), s...): a nil slice when [s] is
    empty, otherwise a newly allocated array holding the elements of [s]. *)
Definition copySlice (h : Mem) (s : slice) : Mem * slice :=
  match load h s with
  | [] => (h, None)
  | rs =>
      let a := fresh (dom (arrays h)) in
      (mkMem (<[a := rs]> (arrays h)) (bodies h), Some a)
  end.

(** The body an interface value points to. *)
Definition deref (h : Mem) (b : option addr) : option ResourceBody :=
  b ≫= λ a, bodies h !! a.

(** ** adjustTTL *)

(** One iteration of the loop of adjustTTL. *)
Definition adjustTTL1 (h : Mem) (elapsed : Duration) (negative : bool)
    (r : Resource) : Resource :=
  let ttlSec := TTL (Header r) in
  let ttlSec :=
    if negative then
      match deref h (Body r) with
      | Some (SOAResource soa) =>
          if bool_decide (MinTTL soa < ttlSec) then MinTTL soa else ttlSec
      | _ => ttlSec
      end
    else ttlSec in
  let ttl := wrap_i64 (ttlSec * Second) in
  let newTTL := wrap_i64 (ttl - elapsed) in
  let newTTL := if bool_decide (newTTL < 0) then 0 else newTTL in
  set_TTL r (wrap_u32 (Z.quot newTTL Second)).

(** adjustTTL on the elements of a slice. *)
Definition adjustTTL_list (h : Mem) (rs : list Resource)
    (elapsed : Duration) (negative : bool) : list Resource :=
  adjustTTL1 h elapsed negative <$> rs.

(** adjustTTL(rs, elapsed, negative): the slice is updated in place. *)
Definition adjustTTL (h : Mem) (s : slice) (elapsed : Duration)
    (negative : bool) : Mem :=
  store h s (adjustTTL_list h (load h s) elapsed negative).

(** ** minTTL *)

Definition minTTL_list (rs : list Resource) (prevMinTTL : Z) : Z :=
  foldl (λ minTTL r, if bool_decide (TTL (Header r) < minTTL)
                     then TTL (Header r) else minTTL) prevMinTTL rs.

Definition minTTL (h : Mem) (s : slice) (prevMinTTL : Z) : Z :=
  minTTL_list (load h s) prevMinTTL.

(** ** The random number generator *)

(** math/rand is outside the repository.  A generator is modelled by the
    sequence of its future raw draws (an exhausted sequence draws 0), so
    that every behaviour of a generator over a finite run is some value of
    this type. *)
Definition Rand := list nat.

Definition Intn (rnd : Rand) (n : nat) : nat * Rand :=
  match rnd with
  | [] => (0%nat, [])
  | x :: rnd' => ((x mod n)%nat, rnd')
  end.

(** ** Reordering of records *)

(** An index out of range panics in Go.  The positions that reorderMsg
    passes to shuffleRecords and rotateRecords are within the slice
    (lemma positions_in_range below), and the functions are written with
    the total lookup and the insertion of lists. *)

(** rr[a], rr[b] = rr[b], rr[a] *)
Definition swap (rr : list Resource) (a b : nat) : list Resource :=
  let ra := rr !!! a in
  let rb := rr !!! b in
  <[b := ra]> (<[a := rb]> rr).

(** rnd.Shuffle(n, swap): for i := n-1; i > 0; i-- { swap(i, Intn(i+1)) } *)
Fixpoint Shuffle_loop (i : nat) (rr : list Resource) (pos : list nat)
    (rnd : Rand) : list Resource * Rand :=
  match i with
  | O => (rr, rnd)
  | S i' =>
      let '(j, rnd') := Intn rnd (S i) in
      Shuffle_loop i' (swap rr (pos !!! i) (pos !!! j)) pos rnd'
  end.

Definition shuffleRecords (rr : list Resource) (pos : list nat)
    (rnd : Rand) : list Resource * Rand :=
  if bool_decide (length pos ≤ 1)%nat then (rr, rnd)
  else Shuffle_loop (length pos - 1) rr pos rnd.

(** The loop of rotateRecords: for i := 0; i < len(pos)-1; i++ *)
Definition rotate_loop (rr : list Resource) (pos : list nat) : list Resource :=
  foldl (λ rr i, <[pos !!! i := rr !!! (pos !!! S i)]> rr) rr
        (seq 0 (length pos - 1)).

Definition rotateRecords (rr : list Resource) (pos : list nat)
    (rnd : Rand) : list Resource * Rand :=
  if bool_decide (length pos ≤ 1)%nat then (rr, rnd)
  else
    let rr0 := rr !!! (pos !!! 0%nat) in
    let rr := rotate_loop rr pos in
    (<[pos !!! (length pos - 1)%nat := rr0]> rr, rnd).

(** The local variables of reorderMsg after the scan of the answers. *)
Record scan := mkScan {
  pos : list nat;
  typeA : nat;
  typeAAAA : nat;
  typeMX : nat;
  typeNS : nat
}.

(** The body of the range loop of reorderMsg at index [i], record [r]. *)
Definition scan_step (off : nat) (s : scan) (i : nat) (r : Resource) : scan :=
  let t := RType (Header r) in
  if bool_decide (t = TypeA) then
    mkScan (<[typeA s := i]> (pos s)) (S (typeA s)) (typeAAAA s) (typeMX s) (typeNS s)
  else if bool_decide (t = TypeAAAA) then
    mkScan (<[(off + typeAAAA s)%nat := i]> (pos s)) (typeA s) (S (typeAAAA s)) (typeMX s) (typeNS s)
  else if bool_decide (t = TypeMX) then
    mkScan (<[(2 * off + typeMX s)%nat := i]> (pos s)) (typeA s) (typeAAAA s) (S (typeMX s)) (typeNS s)
  else if bool_decide (t = TypeNS) then
    mkScan (<[(3 * off + typeNS s)%nat := i]> (pos s)) (typeA s) (typeAAAA s) (typeMX s) (S (typeNS s))
  else s.

Fixpoint scan_from (off : nat) (s : scan) (i : nat) (rs : list Resource) : scan :=
  match rs with
  | [] => s
  | r :: rs' => scan_from off (scan_step off s i r) (S i) rs'
  end.

Definition scan_answers (rs : list Resource) : scan :=
  let off := length rs in
  scan_from off (mkScan (replicate (4 * off) 0%nat) 0 0 0 0) 0 rs.

(** pos[lo:lo+n] *)
Definition subslice (lo n : nat) (p : list nat) : list nat := take n (drop lo p).

Definition reorder_fun := list Resource → list nat → Rand → list Resource * Rand.

(** reorderMsg on the elements of the answer section. *)
Definition reorder_list (f : reorder_fun) (rs : list Resource) (rnd : Rand)
    : list Resource * Rand :=
  if bool_decide (length rs ≤ 1)%nat then (rs, rnd)
  else
    let off := length rs in
    let s := scan_answers rs in
    let '(rs, rnd) := f rs (subslice 0 (typeA s) (pos s)) rnd in
    let '(rs, rnd) := f rs (subslice off (typeAAAA s) (pos s)) rnd in
    let '(rs, rnd) := f rs (subslice (2 * off) (typeMX s) (pos s)) rnd in
    f rs (subslice (3 * off) (typeNS s) (pos s)) rnd.

(** reorderMsg(msg, f, rnd): the answer slice of [msg] is permuted in
    place. *)
Definition reorderMsg (h : Mem) (msg : Message) (f : reorder_fun)
    (rnd : Rand) : Mem * Rand :=
  let '(rs, rnd') := reorder_list f (load h (Answers msg)) rnd in
  (store h (Answers msg) rs, rnd').

(** ** isCacheableNegativeResponse *)

(** The range loop over the answers: false as soon as a record has the
    type of the question. *)
Fixpoint nodata_loop (qt : Type_) (rs : list Resource) : bool :=
  match rs with
  | [] => true
  | rr :: rs' =>
      if bool_decide (RType (Header rr) = qt) then false
      else nodata_loop qt rs'
  end.

Definition isCacheableNegativeResponse (h : Mem) (question : Question)
    (msg : Message) : bool :=
  if bool_decide (RCode_ (MHeader msg) = RCodeSuccess) then
    nodata_loop (QType question) (load h (Answers msg))
  else if bool_decide (RCode_ (MHeader msg) = RCodeNameError) then true
  else false.

(** ** Cache keys and cache entries *)

Record cacheKey := mkKey {
  question : Question;
  recursionDesired : bool
}.

#[global] Instance cacheKey_eq_dec : EqDecision cacheKey.
Proof. solve_decision. Defined.

#[global] Instance cacheKey_countable : Countable cacheKey.
Proof.
  apply (inj_countable'
    (λ k, (QName (question k), QType (question k), QClass (question k),
           recursionDesired k))
    (λ t, let '(n, ty, cl, rd) := t in mkKey (mkQuestion n ty cl) rd)).
  by intros [[] ?].
Defined.

(** A cache entry with the links of the embedded cacheListEntry. *)
Record cacheEntry := mkEntry {
  next : option addr;
  prev : option addr;
  key : cacheKey;
  msg : Message;
  negative : bool;
  expires : Time;
  created : Time
}.

Definition with_next (n : option addr) (e : cacheEntry) : cacheEntry :=
  mkEntry n (prev e) (key e) (msg e) (negative e) (expires e) (created e).
Definition with_prev (p : option addr) (e : cacheEntry) : cacheEntry :=
  mkEntry (next e) p (key e) (msg e) (negative e) (expires e) (created e).

(** ** The intrusive list of cache_list.go *)

Record cacheListList := mkList {
  head : option addr;
  tail : option addr
}.

(** The cache entries live in a heap of their own: pointers to them never
    leave the resolver. *)
Abbreviation entries := (gmap addr cacheEntry).

Definition Next (es : entries) (e : addr) : option addr := es !! e ≫= next.
Definition Prev (es : entries) (e : addr) : option addr := es !! e ≫= prev.
Definition SetNext (es : entries) (e : addr) (elem : option addr) : entries :=
  alter (with_next elem) e es.
Definition SetPrev (es : entries) (e : addr) (elem : option addr) : entries :=
  alter (with_prev elem) e es.

Definition Front (l : cacheListList) : option addr := head l.
Definition Back (l : cacheListList) : option addr := tail l.

Definition PushFront (es : entries) (l : cacheListList) (e : addr)
    : entries * cacheListList :=
  let es := SetNext es e (head l) in
  let es := SetPrev es e None in
  match head l with
  | Some hd => (SetPrev es hd (Some e), mkList (Some e) (tail l))
  | None => (es, mkList (Some e) (Some e))
  end.

Definition Remove (es : entries) (l : cacheListList) (e : addr)
    : entries * cacheListList :=
  let prev := Prev es e in
  let next := Next es e in
  let '(es, l) :=
    match prev with
    | Some p => (SetNext es p next, l)
    | None => (es, mkList next (tail l))
    end in
  match next with
  | Some n => (SetPrev es n prev, l)
  | None => (es, mkList (head l) prev)
  end.

(** ** The caching resolver *)

Definition NoReordering : Z := 0.
Definition RandomReordering : Z := 1.
Definition RotationReordering : Z := 2.
Definition invalidReordering : Z := 3.
Definition defaultMaxTTL : Z := 3600.

(** The scalar options of Config.  The generator and the counters that
    Config points to are mutable and are kept in the resolver state. *)
Record Config := mkConfig {
  Reordering : Z;
  EnableNegativeCaching : bool;
  MaxTTL : Z;
  MaxSize : Z
}.

(** dnsresolver.Stats *)
Record Stats := mkStats {
  questions : Z;
  rejected : Z;
  errors : Z;
  deferrals : Z;
  answers : Z
}.

Record cachingResolver := mkResolver {
  config : Config;
  m : gmap cacheKey addr;
  l : cacheListList;
  ents : entries;
  rand : Rand;
  stats : option Stats
}.

Definition AddQuestion (rs : option Stats) : option Stats :=
  (λ s, mkStats (wrap_u64 (questions s + 1)) (rejected s) (errors s)
                (deferrals s) (answers s)) <$> rs.
Definition AddDeferral (rs : option Stats) : option Stats :=
  (λ s, mkStats (questions s) (rejected s) (errors s)
                (wrap_u64 (deferrals s + 1)) (answers s)) <$> rs.
Definition AddAnswer (rs : option Stats) : option Stats :=
  (λ s, mkStats (questions s) (rejected s) (errors s) (deferrals s)
                (wrap_u64 (answers s + 1))) <$> rs.

Definition with_stats (c : cachingResolver) (s : option Stats) :=
  mkResolver (config c) (m c) (l c) (ents c) (rand c) s.

(** lookup.  [now] is the reading of config.now taken by this call.  The
    result is the resolver, the shared heap, the message and the flag. *)
Definition lookup (c : cachingResolver) (h : Mem) (now : Time)
    (question : Question) (recursionDesired : bool)
    : cachingResolver * Mem * Message * bool :=
  let key := mkKey question recursionDesired in
  match m c !! key with
  | None => (c, h, zeroMessage, false)
  | Some p =>
      match ents c !! p with
      | None => (c, h, zeroMessage, false) (* entries are never freed *)
      | Some e =>
          if After now (expires e) then
            let m' := delete key (m c) in
            let '(es, l') := Remove (ents c) (l c) p in
            (mkResolver (config c) m' l' es (rand c) (stats c),
             h, zeroMessage, false)
          else
            (* Move the entry to the front of LRU queue. *)
            let '(es, l') := Remove (ents c) (l c) p in
            let '(es, l') := PushFront es l' p in
            let elapsed := Sub now (created e) in
            let '(h, rnd) :=
              if bool_decide (Reordering (config c) = RotationReordering)
              then reorderMsg h (msg e) rotateRecords (rand c)
              else (h, rand c) in
            let '(h, ans) := copySlice h (Answers (msg e)) in
            let '(h, auth) := copySlice h (Authorities (msg e)) in
            let '(h, addl) := copySlice h (Additionals (msg e)) in
            let m' := mkMessage (MHeader (msg e)) [question] ans auth addl in
            let '(h, rnd) :=
              if bool_decide (Reordering (config c) = RandomReordering)
              then reorderMsg h m' shuffleRecords rnd
              else (h, rnd) in
            let h := adjustTTL h (Answers m') elapsed false in
            let h := adjustTTL h (Authorities m') elapsed (negative e) in
            let h := adjustTTL h (Additionals m') elapsed false in
            (mkResolver (config c) (m c) l' es rnd (stats c), h, m', true)
      end
  end.

(** put.  [now] is the reading of config.now taken by this call. *)
Definition put (c : cachingResolver) (h : Mem) (now : Time)
    (question : Question) (recursionDesired : bool) (msg : Message)
    (ttl : Z) (negative : bool) : cachingResolver * Mem :=
  let '(h, ans) := copySlice h (Answers msg) in
  let '(h, auth) := copySlice h (Authorities msg) in
  let '(h, addl) := copySlice h (Additionals msg) in
  let msg := mkMessage (MHeader msg) (Questions msg) ans auth addl in
  let k := mkKey question recursionDesired in
  let e := mkEntry None None k msg negative
             (Add now (wrap_i64 (ttl * Second))) now in
  let p := fresh (dom (ents c)) in
  let es := <[p := e]> (ents c) in
  let m' := <[k := p]> (m c) in
  let '(es, l') := PushFront es (l c) p in
  (* Evict an old entry if needed. *)
  if bool_decide (0 < MaxSize (config c)) &&
     bool_decide (MaxSize (config c) < Z.of_nat (size m')) then
    match Back l' with
    | None => (mkResolver (config c) m' l' es (rand c) (stats c), h)
    | Some evict =>
        let '(es', l'') := Remove es l' evict in
        let m'' := match es !! evict with
                   | Some ev => delete (key ev) m'
                   | None => m'
                   end in
        (mkResolver (config c) m'' l'' es' (rand c) (stats c), h)
    end
  else (mkResolver (config c) m' l' es (rand c) (stats c), h).

(** putResponse *)
Definition putResponse (c : cachingResolver) (h : Mem) (now : Time)
    (question : Question) (recursionDesired : bool) (msg : Message)
    : cachingResolver * Mem :=
  if bool_decide (length (load h (Answers msg)) = 0%nat) &&
     bool_decide (length (load h (Authorities msg)) = 0%nat) &&
     bool_decide (length (load h (Additionals msg)) = 0%nat)
  then (c, h)
  else
    let ttl := minTTL h (Answers msg) MaxUint32 in
    let ttl := minTTL h (Authorities msg) ttl in
    let ttl := minTTL h (Additionals msg) ttl in
    if bool_decide (ttl = 0) then (c, h)
    else
      let ttl := if bool_decide (MaxTTL (config c) < ttl)
                 then MaxTTL (config c) else ttl in
      put c h now question recursionDesired msg ttl false.

(** The loop of putNegativeResponse: the TTL taken from the first SOA
    record of the authority section, 0 when there is none. *)
Fixpoint soa_ttl (h : Mem) (rs : list Resource) : Z :=
  match rs with
  | [] => 0
  | rr :: rs' =>
      match deref h (Body rr) with
      | Some (SOAResource soa) =>
          let ttl := TTL (Header rr) in
          if bool_decide (MinTTL soa < ttl) then MinTTL soa else ttl
      | _ => soa_ttl h rs'
      end
  end.

(** putNegativeResponse *)
Definition putNegativeResponse (c : cachingResolver) (h : Mem) (now : Time)
    (question : Question) (recursionDesired : bool) (msg : Message)
    : cachingResolver * Mem :=
  let ttl := soa_ttl h (load h (Authorities msg)) in
  if bool_decide (ttl = 0) then (c, h)
  else
    let ttl := if bool_decide (MaxTTL (config c) < ttl)
               then MaxTTL (config c) else ttl in
    put c h now question recursionDesired msg ttl true.

(** A nested resolver answers a question from the shared heap: it may
    allocate the arrays and bodies of its response there. *)
Definition Resolver := Mem → Question → bool → Mem * Message * bool.

(** Resolve.  [now] is the reading of config.now taken by lookup and
    [now'] the one taken by put after the nested resolver has answered. *)
Definition Resolve (nested : Resolver) (c : cachingResolver) (h : Mem)
    (now now' : Time) (question : Question) (recursionDesired : bool)
    : cachingResolver * Mem * Message * bool :=
  let c := with_stats c (AddQuestion (stats c)) in
  let '(c, h, msg, ok) := lookup c h now question recursionDesired in
  if ok then (with_stats c (AddAnswer (stats c)), h, msg, true)
  else
    let '(h, msg, ok) := nested h question recursionDesired in
    let c := with_stats c (AddDeferral (stats c)) in
    if negb ok then (c, h, zeroMessage, false)
    else
      let '(h, rnd) :=
        if bool_decide (Reordering (config c) ≠ NoReordering)
        then reorderMsg h msg shuffleRecords (rand c)
        else (h, rand c) in
      let c := mkResolver (config c) (m c) (l c) (ents c) rnd (stats c) in
      let '(c, h) :=
        if EnableNegativeCaching (config c) &&
           isCacheableNegativeResponse h question msg
        then putNegativeResponse c h now' question recursionDesired msg
        else if bool_decide (RCode_ (MHeader msg) = RCodeSuccess)
        then putResponse c h now' question recursionDesired msg
        else (c, h) in
      (c, h, msg, true).

Inductive cacheError := ErrInvalidReorderingMode.

(** NewResolver, for a given generator and counters. *)
Definition NewResolver (config : Config) (rnd : Rand) (st : option Stats)
    : cachingResolver + cacheError :=
  let config :=
    if bool_decide (MaxTTL config = 0)
    then mkConfig (Reordering config) (EnableNegativeCaching config)
                  defaultMaxTTL (MaxSize config)
    else config in
  if bool_decide (invalidReordering ≤ Reordering config)
  then inr ErrInvalidReorderingMode
  else inl (mkResolver config ∅ (mkList None None) ∅ rnd st).

(** ** The abstract view of the intrusive list *)

(** The element before index [i] of [ps]. *)
Definition pred_at (ps : list addr) (i : nat) : option addr :=
  match i with
  | O => None
  | S j => ps !! j
  end.

(** [ps] is the sequence of the entries linked from [head l] to [tail l]. *)
Definition wf_list (es : entries) (l : cacheListList) (ps : list addr) : Prop :=
  NoDup ps ∧ head l = ps !! 0%nat ∧ tail l = last ps ∧
  ∀ i p, ps !! i = Some p →
    ∃ e, es !! p = Some e ∧ next e = ps !! S i ∧ prev e = pred_at ps i.

(** Iteration over the list as its documentation gives it:
    for e := l.Front(); e != nil; e = e.Next().  The fuel bounds the
    number of steps. *)
Fixpoint walk (es : entries) (fuel : nat) (p : option addr) : list addr :=
  match fuel, p with
  | S f, Some a => a :: walk es f (Next es a)
  | _, _ => []
  end.

Definition list_elems (c : cachingResolver) : list addr :=
  walk (ents c) (S (size (ents c))) (Front (l c)).

(** The entries the map points to. *)
Definition map_elems (c : cachingResolver) : list addr :=
  (map_to_list (m c)).*2.

(** Two entries that differ at most in their links. *)
Definition same_data (e e' : cacheEntry) : Prop :=
  key e = key e' ∧ msg e = msg e' ∧ negative e = negative e' ∧
  expires e = expires e' ∧ created e = created e'.

Definition links_only (es es' : entries) : Prop :=
  ∀ p, option_Forall2 same_data (es !! p) (es' !! p).


(** ** The invariant of the cache *)

(** The map and the list hold the same entries: every key of the map points
    to an entry of the list that carries this key, and every entry of the
    list is the one the map holds under the entry's key. *)
Definition wf_cache (m : gmap cacheKey addr) (l : cacheListList)
    (es : entries) (ps : list addr) : Prop :=
  wf_list es l ps ∧
  (∀ k p, m !! k = Some p → p ∈ ps ∧ ∃ e, es !! p = Some e ∧ key e = k) ∧
  (∀ p, p ∈ ps → ∃ e, es !! p = Some e ∧ m !! key e = Some p).

Definition wf (c : cachingResolver) (ps : list addr) : Prop :=
  wf_cache (m c) (l c) (ents c) ps.


(** ** Slices in the shared heap *)

(** The slice refers to an allocated array (or is nil). *)
Definition valid (h : Mem) (s : slice) : Prop :=
  match s with
  | None => True
  | Some a => is_Some (arrays h !! a)
  end.

(** Two slices that do not share their backing array. *)
Definition apart (s t : slice) : Prop :=
  match s, t with
  | Some a, Some b => a ≠ b
  | _, _ => True
  end.

(** [h'] has every array of [h], with the same elements except at the
    addresses in [X], and the same bodies. *)
Definition extends_except (X : list slice) (h h' : Mem) : Prop :=
  bodies h' = bodies h ∧
  ∀ a, is_Some (arrays h !! a) →
    is_Some (arrays h' !! a) ∧
    (Some a ∉ X → arrays h' !! a = arrays h !! a).


(** ** Type classes of the answer section *)

(** The indices, from [i] on, of the records of type [T]. *)
Fixpoint positions_from (T : Type_) (i : nat) (rs : list Resource) : list nat :=
  match rs with
  | [] => []
  | r :: rs' =>
      if bool_decide (RType (Header r) = T)
      then i :: positions_from T (S i) rs'
      else positions_from T (S i) rs'
  end.

(** The positions of the type-class [T] in [rs], in increasing order. *)
Definition positions (T : Type_) (rs : list Resource) : list nat :=
  positions_from T 0 rs.

(** The records of the type-class [T], in the order of the section. *)
Definition of_type (T : Type_) (rs : list Resource) : list Resource :=
  filter (λ r, RType (Header r) = T) rs.

(** The four type-classes that are reordered. *)
Definition reordered_types : list Type_ := [TypeA; TypeAAAA; TypeMX; TypeNS].

(** Left rotation by one. *)
Definition rotl {A} (xs : list A) : list A :=
  match xs with
  | [] => []
  | x :: xs' => xs' ++ [x]
  end.

(** The records found at the positions [P]. *)
Definition get (rr : list Resource) (P : list nat) : list Resource :=
  (λ i, rr !!! i) <$> P.

(** The types of the records, position by position. *)
Definition types (rs : list Resource) : list Type_ :=
  (λ r, RType (Header r)) <$> rs.

(** What the scan has recorded: the four regions of [pos] hold the
    positions found so far. *)
Definition scan_inv (off : nat) (s : scan) (PA P4 PM PN : list nat) : Prop :=
  length (pos s) = (4 * off)%nat ∧
  typeA s = length PA ∧ typeAAAA s = length P4 ∧
  typeMX s = length PM ∧ typeNS s = length PN ∧
  subslice 0 (typeA s) (pos s) = PA ∧
  subslice off (typeAAAA s) (pos s) = P4 ∧
  subslice (2 * off) (typeMX s) (pos s) = PM ∧
  subslice (3 * off) (typeNS s) (pos s) = PN.

(** ** Ageing of a record *)

(** The values of a uint32. *)
Definition u32 (z : Z) : Prop := 0 ≤ z < 2 ^ 32.

(** The record and the SOA body it may point to hold uint32 values. *)
Definition wt_record (h : Mem) (r : Resource) : Prop :=
  u32 (TTL (Header r)) ∧
  ∀ soa, deref h (Body r) = Some (SOAResource soa) → u32 (MinTTL soa).

(** The number of seconds started within a duration. *)
Definition seconds_started (d : Duration) : Z := (d + Second - 1) / Second.

(** The TTL a record starts from: for an SOA record in the authority
    section of a negative entry, the smaller of its TTL and its MINIMUM. *)
Definition initial_ttl (h : Mem) (negative : bool) (r : Resource) : Z :=
  if negative then
    match deref h (Body r) with
    | Some (SOAResource soa) => Z.min (TTL (Header r)) (MinTTL soa)
    | _ => TTL (Header r)
    end
  else TTL (Header r).

(** The record as a hit returns it after [elapsed] nanoseconds. *)
Definition aged (h : Mem) (elapsed : Duration) (negative : bool)
    (r : Resource) : Resource :=
  set_TTL r (Z.max 0 (initial_ttl h negative r - seconds_started elapsed)).

(** The sections of a message, as the elements they hold. *)
Definition sections (h : Mem) (msg : Message)
    : list Resource * list Resource * list Resource :=
  (load h (Answers msg), load h (Authorities msg), load h (Additionals msg)).

(** The three slices of a message are allocated and share no array. *)
Definition msg_ok (h : Mem) (msg : Message) : Prop :=
  valid h (Answers msg) ∧ valid h (Authorities msg) ∧
  valid h (Additionals msg) ∧
  apart (Answers msg) (Authorities msg) ∧
  apart (Answers msg) (Additionals msg) ∧
  apart (Authorities msg) (Additionals msg).

(** The part of lookup that builds the message of a hit. *)
Definition hit_mem (mode : Z) (h : Mem) (e : cacheEntry) (q : Question)
    (elapsed : Duration) (rnd : Rand) : Mem * Rand * Message :=
  let '(h, rnd) :=
    if bool_decide (mode = RotationReordering)
    then reorderMsg h (msg e) rotateRecords rnd
    else (h, rnd) in
  let '(h, ans) := copySlice h (Answers (msg e)) in
  let '(h, auth) := copySlice h (Authorities (msg e)) in
  let '(h, addl) := copySlice h (Additionals (msg e)) in
  let m' := mkMessage (MHeader (msg e)) [q] ans auth addl in
  let '(h, rnd) :=
    if bool_decide (mode = RandomReordering)
    then reorderMsg h m' shuffleRecords rnd
    else (h, rnd) in
  let h := adjustTTL h (Answers m') elapsed false in
  let h := adjustTTL h (Authorities m') elapsed (negative e) in
  let h := adjustTTL h (Additionals m') elapsed false in
  (h, rnd, m').

(** The slice shares no array with a slice allocated in [h]. *)
Definition fresh_in (h : Mem) (s : slice) : Prop :=
  ∀ t, valid h t → apart s t.

(** The order of the answers of a hit for a reordering mode. *)
Definition order_by (mode : Z) (rnd : Rand) (rs : list Resource)
    : list Resource :=
  if bool_decide (mode = RotationReordering)
  then (reorder_list rotateRecords rs rnd).1
  else if bool_decide (mode = RandomReordering)
  then (reorder_list shuffleRecords rs rnd).1
  else rs.

(** The order in which a hit returns the answers [rs] of an entry. *)
Definition hit_order (c : cachingResolver) (rs : list Resource)
    : list Resource :=
  order_by (Reordering (config c)) (rand c) rs.

(** The abstract list after the entry [p] is unlinked. *)
Definition without (p : addr) (ps : list addr) : list addr :=
  filter (λ q, q ≠ p) ps.

(** The slices of a message are allocated. *)
Definition msg_valid (h : Mem) (msg : Message) : Prop :=
  valid h (Answers msg) ∧ valid h (Authorities msg) ∧
  valid h (Additionals msg).

(** The part of put that copies the sections of the message. *)
Definition put_mem (h : Mem) (msg : Message) : Mem * Message :=
  let '(h, ans) := copySlice h (Answers msg) in
  let '(h, auth) := copySlice h (Authorities msg) in
  let '(h, addl) := copySlice h (Additionals msg) in
  (h, mkMessage (MHeader msg) (Questions msg) ans auth addl).

(** The configured bound is exceeded by a map of [n] entries. *)
Definition over_size (c : cachingResolver) (n : nat) : bool :=
  bool_decide (0 < MaxSize (config c)) &&
  bool_decide (MaxSize (config c) < Z.of_nat n).

(** ** The store rules as the specification words them *)

(** The records of the three sections of a message. *)
Definition all_records (h : Mem) (rsp : Message) : list Resource :=
  load h (Answers rsp) ++ load h (Authorities rsp) ++ load h (Additionals rsp).

(** The minimum of [bound] and the TTLs of the records. *)
Definition min_ttl (bound : Z) (rs : list Resource) : Z :=
  foldr Z.min bound ((λ r, TTL (Header r)) <$> rs).

(** put_positive as the specification words it. *)
Definition put_positive (c : cachingResolver) (h : Mem) (now : Time)
    (q : Question) (rd : bool) (rsp : Message) : cachingResolver * Mem :=
  if bool_decide (all_records h rsp = []) then (c, h)
  else
    let ttl := min_ttl MaxUint32 (all_records h rsp) in
    if bool_decide (ttl = 0) then (c, h)
    else put c h now q rd rsp (Z.min ttl (MaxTTL (config c))) false.

(** The body of the record is an SOA. *)
Definition is_soa (h : Mem) (rr : Resource) : bool :=
  match deref h (Body rr) with
  | Some (SOAResource _) => true
  | _ => false
  end.

(** The MINIMUM field of the SOA body of the record. *)
Definition soa_min_ttl (h : Mem) (rr : Resource) : Z :=
  match deref h (Body rr) with
  | Some (SOAResource soa) => MinTTL soa
  | _ => 0
  end.

(** put_negative as the specification words it. *)
Definition put_negative (c : cachingResolver) (h : Mem) (now : Time)
    (q : Question) (rd : bool) (rsp : Message) : cachingResolver * Mem :=
  match find (is_soa h) (load h (Authorities rsp)) with
  | None => (c, h)
  | Some rr =>
      let ttl := Z.min (TTL (Header rr)) (soa_min_ttl h rr) in
      if bool_decide (ttl = 0) then (c, h)
      else put c h now q rd rsp (Z.min ttl (MaxTTL (config c))) true
  end.

(** The heap after the rotation of the answers of [rsp], as a hit in
    rotation mode performs it. *)
Definition rotate_answers (rsp : Message) (rnd : Rand) (h : Mem) : Mem :=
  (reorderMsg h rsp rotateRecords rnd).1.

(** The TTL of a record of a hit with the elapsed time floored to seconds
    before the subtraction. *)
Definition floored_ttl (ttl0 : Z) (elapsed : Duration) : Z :=
  Z.max 0 (ttl0 - elapsed / Second).

(** ** A response of the test suite: foo.bar. with two A records *)

Definition foo_bar : Question := mkQuestion "foo.bar." TypeA ClassINET.

Definition foo_bar_heap : Mem :=
  mkMem
    {[ 1%nat := [ mkResource (mkResourceHeader "foo.bar." TypeA ClassINET 10)
                             (Some 7%nat);
                  mkResource (mkResourceHeader "foo.bar." TypeA ClassINET 10)
                             (Some 8%nat) ] ]}
    {[ 7%nat := AResource [127; 1; 1; 0]; 8%nat := AResource [127; 1; 1; 1] ]}.

Definition foo_bar_response : Message :=
  mkMessage (mkMsgHeader 0 true 0 false false true false RCodeSuccess)
            [foo_bar] (Some 1%nat) None None.

(** A new resolver with the default configuration. *)
Definition new_resolver (maxSize : Z) : cachingResolver :=
  mkResolver (mkConfig NoReordering false defaultMaxTTL maxSize)
             ∅ (mkList None None) ∅ [] None.

(** The TTLs of the records of a slice. *)
Definition ttls (h : Mem) (s : slice) : list Z :=
  (λ r, TTL (Header r)) <$> load h s.

(** ** What a caller sees and what a caller can write *)

(** The message as its holder reads it: header, questions and the
    records of the three sections (each record with its body pointer). *)
Definition view (h : Mem) (rsp : Message)
    : MsgHeader * list Question *
      (list Resource * list Resource * list Resource) :=
  (MHeader rsp, Questions rsp, sections h rsp).

(** The holder of a message overwrites the arrays of its sections. *)
Definition overwrite (h : Mem) (rsp : Message) (X Y Z : list Resource) : Mem :=
  store (store (store h (Answers rsp) X) (Authorities rsp) Y)
        (Additionals rsp) Z.

(** The answers of a message with the bodies their records point to. *)
Definition answer_bodies (h : Mem) (rsp : Message)
    : list (option ResourceBody) :=
  (λ r, deref h (Body r)) <$> load h (Answers rsp).

(** The holder of a record writes the body the record points to. *)
Definition write_body (h : Mem) (r : Resource) (b : ResourceBody) : Mem :=
  match Body r with
  | Some a => mkMem (arrays h) (<[a := b]> (bodies h))
  | None => h
  end.

(** Two heaps in which the entry reads the same. *)
Definition agree (e : cacheEntry) (h h' : Mem) : Prop :=
  bodies h' = bodies h ∧ sections h' (msg e) = sections h (msg e) ∧
  msg_ok h (msg e) ∧ msg_ok h' (msg e).

(** The slices of a message. *)
Definition slices (rsp : Message) : list slice :=
  [Answers rsp; Authorities rsp; Additionals rsp].

(** The two messages share no array. *)
Definition disjoint_msgs (rsp rsp' : Message) : Prop :=
  ∀ s t, s ∈ slices rsp → t ∈ slices rsp' → apart s t.

(** The question for the AAAA records of foo.bar. *)
Definition foo_bar_aaaa : Question := mkQuestion "foo.bar." TypeAAAA ClassINET.

(** A nested resolver that answers every question with the A records of
    foo.bar. *)
Definition static_resolver : Resolver :=
  λ h _ _, (h, foo_bar_response, true).

(** ** The responses of the cache size test: moo.a., moo.b., moo.c. *)

Definition moo (name : string) : Question := mkQuestion name TypeA ClassINET.

Definition moo_heap : Mem :=
  mkMem {[ 1%nat := [ mkResource (mkResourceHeader "" 0 0 3600) (Some 7%nat) ] ]}
        {[ 7%nat := AResource [0; 0; 0; 0] ]}.

Definition moo_response : Message :=
  mkMessage zeroHeader [] (Some 1%nat) None None.

(** A run of stores: each fingerprint is stored with the response of the
    test, as Resolve does after a miss. *)
Definition store_all (c : cachingResolver) (h : Mem) (qs : list Question)
    : cachingResolver * Mem :=
  foldl (λ s q, putResponse s.1 s.2 0 q false moo_response) (c, h) qs.

(** ** The invariant along calls that are processed one after the other *)

(** The list is within the configured bound. *)
Definition bounded (c : cachingResolver) (ps : list addr) : Prop :=
  0 < MaxSize (config c) → Z.of_nat (length ps) ≤ MaxSize (config c).

(** The map and the list hold the same entries, within the bound. *)
Definition Inv (c : cachingResolver) : Prop :=
  ∃ ps, wf c ps ∧ bounded c ps.

(** A run of stores of the fingerprints [qs]. *)
Definition put_all (now : Time) (rd : bool) (rsp : Message) (ttl : Z)
    (neg : bool) (c : cachingResolver) (h : Mem) (qs : list Question)
    : cachingResolver * Mem :=
  foldl (λ s q, put s.1 s.2 now q rd rsp ttl neg) (c, h) qs.

(** ** The packet resolver (package dnsresolver) *)

Definition bytes := list Byte.byte.

(** An error value of package dnsmessage or of the context. *)
Definition err := string.

(** The outcome of Parser.SkipQuestion: no error, ErrSectionDone, or
    another error. *)
Inductive skipResult := SkipDone | SectionDone | SkipFailed (e : err).

(** Modelled from the spec: the parser and the packer of package
    dnsmessage are not part of the sources.  The packet resolver is
    modelled over their operations: Parser.Start, Parser.Question,
    Parser.SkipQuestion and Message.AppendPack. *)
Record dnsmessageOps (parser : Type) := mkOps {
  Start : bytes → (MsgHeader * parser) + err;
  PQuestion : parser → (Question * parser) + err;
  SkipQuestion : parser → skipResult;
  AppendPack : Mem → Message → bytes → bytes + err
}.
Arguments Start {parser}.
Arguments PQuestion {parser}.
Arguments SkipQuestion {parser}.
Arguments AppendPack {parser}.

Inductive packetError :=
| ContextError (e : err)
| ParsingError (e : err)
| PackingError (e : err)
| ErrResponseTypeRequest
| ErrNoQuestions
| ErrNoResponse
| ErrInvalidRCode
| ErrTruncatedResponseTooBig.

Definition with_ID (rsp : Message) (id : Z) : Message :=
  let hd := MHeader rsp in
  mkMessage (mkMsgHeader id (Response hd) (OpCode hd) (Authoritative hd)
               (Truncated hd) (RecursionDesired hd) (RecursionAvailable hd)
               (RCode_ hd))
            (Questions rsp) (Answers rsp) (Authorities rsp) (Additionals rsp).

Definition with_Truncated (rsp : Message) (t : bool) : Message :=
  let hd := MHeader rsp in
  mkMessage (mkMsgHeader (ID hd) (Response hd) (OpCode hd) (Authoritative hd)
               t (RecursionDesired hd) (RecursionAvailable hd) (RCode_ hd))
            (Questions rsp) (Answers rsp) (Authorities rsp) (Additionals rsp).

(** respondError *)
Definition respondError {parser} (ops : dnsmessageOps parser) (h : Mem)
    (hd : MsgHeader) (rcode : RCode) : bytes + packetError :=
  let resp := mkMessage
                (mkMsgHeader (ID hd) true 0 false false (RecursionDesired hd)
                             false rcode) [] None None None in
  match AppendPack ops h resp [] with
  | inr e => inr (PackingError e)
  | inl respBuf => inl respBuf
  end.

(** The function returned by NewPacketResolver.  [ctxErr] is the result
    of ctx.Err(). *)
Definition ResolvePacket {parser} (ops : dnsmessageOps parser) (res : Resolver)
    (h : Mem) (ctxErr : option err) (packet : bytes) (maxPacketLength : Z)
    (buf : bytes) : Mem * (bytes + packetError) :=
  match ctxErr with
  | Some e => (h, inr (ContextError e))
  | None =>
  match Start ops packet with
  | inr e => (h, inr (ParsingError e))
  | inl (hd, p) =>
  if Response hd then (h, inr ErrResponseTypeRequest)
  else
  match PQuestion ops p with
  | inr _ => (h, respondError ops h hd RCodeFormatError)
  | inl (q, p) =>
  match SkipQuestion ops p with
  | SkipDone => (h, respondError ops h hd RCodeNotImplemented)
  | SkipFailed _ => (h, respondError ops h hd RCodeFormatError)
  | SectionDone =>
      let '(h, resp, ok) := res h q (RecursionDesired hd) in
      if negb ok then (h, inr ErrNoResponse)
      else
        let resp := with_ID resp (ID hd) in
        match AppendPack ops h resp buf with
        | inr e => (h, inr (PackingError e))
        | inl respBuf =>
            if bool_decide (maxPacketLength = 0) ||
               bool_decide (Z.of_nat (length respBuf) ≤ maxPacketLength)
            then (h, inl respBuf)
            else
              (* The whole response is too big. Return a truncated packet. *)
              let resp := with_Truncated resp true in
              let resp := mkMessage (MHeader resp) (Questions resp)
                                    None None None in
              match AppendPack ops h resp buf with
              | inr e => (h, inr (PackingError e))
              | inl respBuf =>
                  if bool_decide (maxPacketLength < Z.of_nat (length respBuf))
                  then (h, inr ErrTruncatedResponseTooBig)
                  else (h, inl respBuf)
              end
        end
  end end end end.

(** The truncated response as the specification words it: truncated set,
    the three record sections dropped. *)
Definition truncated_response (rsp : Message) : Message :=
  mkMessage (MHeader (with_Truncated rsp true)) (Questions rsp) None None None.

(** ** A packer for the examples: a header of 12 bytes and 16 bytes a record *)

Definition example_ops : dnsmessageOps unit :=
  mkOps unit
    (λ _, inl (mkMsgHeader 42 false 0 false false true false 0, tt))
    (λ _, inl (foo_bar, tt))
    (λ _, SectionDone)
    (λ h rsp buf,
       inl (buf ++ replicate (12 + 16 * length (all_records h rsp))
                             Byte.x00)).

(** ** The cache size test of the test suite *)

(** A nested resolver that answers every question with the response of
    the test. *)
Definition moo_resolver : Resolver := λ h _ _, (h, moo_response, true).

(** Calls of Resolve processed one after the other, all at time 0. *)
Definition resolve_all (nested : Resolver) (c : cachingResolver) (h : Mem)
    (qs : list Question) : cachingResolver * Mem :=
  foldl (λ s q, let r := Resolve nested s.1 s.2 0 0 q false in
                (r.1.1.1, r.1.1.2)) (c, h) qs.

(** A new resolver of the given size that counts its events. *)
Definition counting_resolver (maxSize : Z) : cachingResolver :=
  with_stats (new_resolver maxSize) (Some (mkStats 0 0 0 0 0)).


(** ** The other operations of cache_list.go *)

(** Reset *)
Definition Reset (l : cacheListList) : cacheListList := mkList None None.

(** Empty *)
Definition Empty (l : cacheListList) : bool := bool_decide (head l = None).

(** PushBack *)
Definition PushBack (es : entries) (l : cacheListList) (e : addr)
    : entries * cacheListList :=
  let es := SetNext es e None in
  let es := SetPrev es e (tail l) in
  match tail l with
  | Some tl => (SetNext es tl (Some e), mkList (head l) (Some e))
  | None => (es, mkList (Some e) (Some e))
  end.

(** PushBackList.  The result is the entries, the list [l] and the list
    [m]; [None] is the nil dereference of l.tail, which a list with a
    head and no tail runs into. *)
Definition PushBackList (es : entries) (l m : cacheListList)
    : option (entries * cacheListList * cacheListList) :=
  match head l with
  | None => Some (es, mkList (head m) (tail m), mkList None None)
  | Some _ =>
      match head m with
      | Some mh =>
          match tail l with
          | Some lt =>
              let es := SetNext es lt (Some mh) in
              let es := SetPrev es mh (Some lt) in
              Some (es, mkList (head l) (tail m), mkList None None)
          | None => None
          end
      | None => Some (es, l, mkList None None)
      end
  end.

(** InsertAfter *)
Definition InsertAfter (es : entries) (l : cacheListList) (b e : addr)
    : entries * cacheListList :=
  let a := Next es b in
  let es := SetNext es e a in
  let es := SetPrev es e (Some b) in
  let es := SetNext es b (Some e) in
  match a with
  | Some a' => (SetPrev es a' (Some e), l)
  | None => (es, mkList (head l) (Some e))
  end.

(** InsertBefore *)
Definition InsertBefore (es : entries) (l : cacheListList) (a e : addr)
    : entries * cacheListList :=
  let b := Prev es a in
  let es := SetNext es e (Some a) in
  let es := SetPrev es e b in
  let es := SetPrev es a (Some e) in
  match b with
  | Some b' => (SetNext es b' (Some e), l)
  | None => (es, mkList (Some e) (tail l))
  end.

(** Iteration from the back of the list:
    for e := l.Back(); e != nil; e = e.Prev(). *)
Fixpoint walk_back (es : entries) (fuel : nat) (p : option addr) : list addr :=
  match fuel, p with
  | S f, Some a => a :: walk_back es f (Prev es a)
  | _, _ => []
  end.

(** The entries of [ps] are linked one to the next, the first one back to
    [pv] and the last one on to [nx]. *)
Fixpoint chain (es : entries) (pv : option addr) (ps : list addr)
    (nx : option addr) : Prop :=
  match ps with
  | [] => True
  | p :: ps' =>
      (∃ e, es !! p = Some e ∧ prev e = pv ∧
            next e = match ps' with [] => nx | q :: _ => Some q end) ∧
      chain es (Some p) ps' nx
  end.

(** The last element of [ps], or [d] when there is none. *)
Definition last_or (d : option addr) (ps : list addr) : option addr :=
  match last ps with Some p => Some p | None => d end.

(** The first element of [ps], or [d] when there is none. *)
Definition first_or (d : option addr) (ps : list addr) : option addr :=
  match ps with p :: _ => Some p | [] => d end.

(** Three entries that are not linked, and the list 1, 2 built from
    them, for the examples of the list operations. *)
Definition blank_entry : cacheEntry :=
  mkEntry None None (mkKey foo_bar false) zeroMessage false 0 0.

Definition three_entries : entries :=
  {[ 1%nat := blank_entry; 2%nat := blank_entry; 3%nat := blank_entry ]}.

Definition list_12 : entries * cacheListList :=
  let r := PushFront three_entries (mkList None None) 2%nat in
  PushFront r.1 r.2 1%nat.

(** ** A cache that holds the answer of the test suite *)

(** The answer for foo.bar. stored at time 0 with a lifetime of 10
    seconds in a new resolver of the given size. *)
Definition one_entry (maxSize : Z) : cachingResolver * Mem :=
  put (new_resolver maxSize) foo_bar_heap 0 foo_bar true foo_bar_response
      10 false.

(** ** Runs of Resolve *)

(** One call of Resolve: the nested resolver as it behaves during the
    call, the two readings of the clock, and the arguments. *)
Record call := mkCall {
  call_nested : Resolver;
  call_now : Time;
  call_now' : Time;
  call_question : Question;
  call_rd : bool
}.

(** Calls of Resolve processed one after the other. *)
Definition run (c : cachingResolver) (h : Mem) (cs : list call)
    : cachingResolver * Mem :=
  foldl (λ s x, let r := Resolve (call_nested x) s.1 s.2 (call_now x)
                           (call_now' x) (call_question x) (call_rd x) in
                (r.1.1.1, r.1.1.2)) (c, h) cs.

(** The counters that Resolve leaves for a hit and for a miss. *)
Definition count (hit : bool) (st : option Stats) : option Stats :=
  if hit then AddAnswer (AddQuestion st) else AddDeferral (AddQuestion st).

(** The other counting methods of dnsresolver.Stats.  (The getters
    Questions, Rejected, Errors, Deferrals and Answers load the fields:
    they are the projections of [Stats].) *)
Definition AddRejected (rs : option Stats) : option Stats :=
  (λ s, mkStats (questions s) (wrap_u64 (rejected s + 1)) (errors s)
                (deferrals s) (answers s)) <$> rs.
Definition AddError (rs : option Stats) : option Stats :=
  (λ s, mkStats (questions s) (rejected s) (wrap_u64 (errors s + 1))
                (deferrals s) (answers s)) <$> rs.

(** The events that a resolver counts, and the method that counts each. *)
Inductive event := EvQuestion | EvRejected | EvError | EvDeferral | EvAnswer.

#[global] Instance event_eq_dec : EqDecision event.
Proof. solve_decision. Defined.

Definition record_event (rs : option Stats) (ev : event) : option Stats :=
  match ev with
  | EvQuestion => AddQuestion rs
  | EvRejected => AddRejected rs
  | EvError => AddError rs
  | EvDeferral => AddDeferral rs
  | EvAnswer => AddAnswer rs
  end.

(** The number of events of a kind. *)
Definition occurrences (ev : event) (evs : list event) : Z :=
  Z.of_nat (length (filter (λ x, x = ev) evs)).

(** The counters hold uint64 values. *)
Definition counters_ok (s : Stats) : Prop :=
  0 ≤ questions s < 2 ^ 64 ∧ 0 ≤ rejected s < 2 ^ 64 ∧
  0 ≤ errors s < 2 ^ 64 ∧ 0 ≤ deferrals s < 2 ^ 64 ∧ 0 ≤ answers s < 2 ^ 64.

(** ** The erroring resolver of package resolvers *)

(** ResolveError *)
Definition ResolveError (question : Question) (rcode : RCode)
    (recursionDesired : bool) : Message :=
  mkMessage (mkMsgHeader 0 true 0 false false recursionDesired
                         recursionDesired rcode)
            [question] None None None.

(** NewErroringResolver *)
Definition NewErroringResolver : Resolver :=
  λ h question recursionDesired,
    (h, ResolveError question RCodeNotImplemented recursionDesired, true).

(** A name error for nx.bar. with the SOA record of the zone: TTL 300,
    MINIMUM 60. *)
Definition nx_bar : Question := mkQuestion "nx.bar." TypeA ClassINET.

Definition nx_heap : Mem :=
  mkMem {[ 1%nat := [ mkResource (mkResourceHeader "bar." TypeSOA ClassINET 300)
                                 (Some 7%nat) ] ]}
        {[ 7%nat := SOAResource (mkSOA "ns.bar." "mb.bar." 1 2 3 4 60) ]}.

Definition nx_response : Message :=
  mkMessage (mkMsgHeader 0 true 0 false false true false RCodeNameError)
            [nx_bar] None (Some 1%nat) None.

(** ** A packer for a request with two questions *)

Definition two_question_ops : dnsmessageOps unit :=
  mkOps unit
    (λ _, inl (mkMsgHeader 42 false 0 false false true false 0, tt))
    (λ _, inl (foo_bar, tt))
    (λ _, SkipDone)
    (λ h rsp buf,
       inl (buf ++ replicate (12 + 16 * length (all_records h rsp))
                             Byte.x00)).

(** ** The framing of the responses of the TCP server (dnsserver/tcp.go) *)

Definition MaxUint16 : Z := 65535.

(** byte(v): the conversion of an integer to a byte keeps the low eight
    bits. *)
Definition byte_of (v : Z) : Byte.byte :=
  default Byte.x00 (Byte.of_N (Z.to_N (v mod 256))).

Definition byte_val (b : Byte.byte) : Z := Z.of_N (Byte.to_N b).

(** binary.BigEndian.Uint16 and binary.BigEndian.PutUint16 of the Go
    library, on a slice of at least two bytes (they panic on a shorter
    one). *)
Definition Uint16 (b : bytes) : option Z :=
  match b with
  | b0 :: b1 :: _ => Some (Z.lor (byte_val b1) (Z.shiftl (byte_val b0) 8))
  | _ => None
  end.

Definition PutUint16 (b : bytes) (v : Z) : option bytes :=
  match b with
  | _ :: _ :: rest => Some (byte_of (Z.shiftr v 8) :: byte_of v :: rest)
  | _ => None
  end.

(** What an iteration of the loop of handleTCP does with a request it
    has read: the bytes it hands to conn.Write, the error it returns,
    or its panic.  For a response shorter than the two bytes of the
    length, resp[:2] reaches into the capacity of the slice, which the
    model does not hold: this case is kept apart. *)
Inductive tcpOutcome :=
| TcpWrite (frame : bytes)
| TcpError (e : packetError)
| TcpPanic
| TcpShort.

(** The part of an iteration of the loop of handleTCP from the call of
    ResolvePacket to the call of conn.Write.  [writeBuf2] is
    writeBuf[:2], two bytes that the iteration overwrites. *)
Definition tcp_respond {parser} (ops : dnsmessageOps parser) (res : Resolver)
    (h : Mem) (ctxErr : option err) (readBuf : bytes) (writeBuf2 : bytes)
    : Mem * tcpOutcome :=
  let '(h, r) := ResolvePacket ops res h ctxErr readBuf MaxUint16 writeBuf2 in
  match r with
  | inr e => (h, TcpError e)
  | inl resp =>
      let respLen := Z.of_nat (length resp) - 2 in
      if bool_decide (MaxUint16 < respLen) then (h, TcpPanic)
      else
        match PutUint16 resp (respLen mod 2 ^ 16) with
        | Some frame => (h, TcpWrite frame)
        | None => (h, TcpShort)
        end
  end.

(** The packer appends to the buffer it is given, as the documentation
    of AppendPack says. *)
Definition appends {parser} (ops : dnsmessageOps parser) : Prop :=
  ∀ h rsp buf r, AppendPack ops h rsp buf = inl r →
    ∃ payload, r = buf ++ payload.

(** ** The static resolver of package resolvers *)

#[global] Instance Question_countable : Countable Question.
Proof.
  apply (inj_countable' (λ q, (QName q, QType q, QClass q))
                        (λ t, let '(n, ty, cl) := t in mkQuestion n ty cl)).
  by intros [].
Defined.

Definition nameLen : nat := 255.

(** The body of the loop of normalizeName: an upper-case letter becomes
    the lower-case one. *)
Definition lower_byte (c : Byte.byte) : Byte.byte :=
  if bool_decide (65 ≤ byte_val c) && bool_decide (byte_val c ≤ 90)
  then byte_of (byte_val c + 32)
  else c.

Section static.
(** Name.Bytes and NewNameBytes of package dnsmessage, which is not part
    of the sources, are taken as parameters. *)
Variable NameBytes : Name → bytes + err.
Variable NewNameBytes : bytes → Name + err.

(** normalizeName *)
Definition normalizeName (n : Name) : Name + err :=
  match NameBytes n with
  | inr e => inr e
  | inl b => NewNameBytes (lower_byte <$> b)
  end.

(** The question with its name normalized. *)
Definition normalizeQuestion (q : Question) : Question + err :=
  match normalizeName (QName q) with
  | inr e => inr e
  | inl n => inl (mkQuestion n (QType q) (QClass q))
  end.

(** The loop of NewStaticResolver over the mapping, in the order in which
    the range statement visits its entries. *)
Fixpoint static_table (mapping : list (Question * Message))
    (m : gmap Question Message) : gmap Question Message + err :=
  match mapping with
  | [] => inl m
  | (q, r) :: mapping' =>
      match normalizeQuestion q with
      | inr e => inr e
      | inl nq => static_table mapping' (<[nq := r]> m)
      end
  end.

(** The resolver that NewStaticResolver returns for the table [m]. *)
Definition static_Resolve (m : gmap Question Message) (nested : Resolver)
    : Resolver :=
  λ h question recursionDesired,
    match normalizeQuestion question with
    | inr _ => nested h question recursionDesired
    | inl nq =>
        match m !! nq with
        | None => nested h question recursionDesired
        | Some r =>
            let '(h, ans) := copySlice h (Answers r) in
            let '(h, auth) := copySlice h (Authorities r) in
            let '(h, addl) := copySlice h (Additionals r) in
            (h, mkMessage
                  (mkMsgHeader 0 true 0 (Authoritative (MHeader r)) false
                     recursionDesired (RecursionAvailable (MHeader r)) 0)
                  [question] ans auth addl, true)
        end
    end.

(** NewStaticResolver *)
Definition NewStaticResolver (mapping : list (Question * Message))
    (nested : Resolver) : Resolver + err :=
  match static_table mapping ∅ with
  | inr e => inr e
  | inl m => inl (static_Resolve m nested)
  end.

End static.

(** The bytes of a name of at most 255 bytes, and the name of at most
    255 bytes, for the examples. *)
Definition example_NameBytes (n : Name) : bytes + err :=
  if bool_decide (String.length n ≤ nameLen)%nat
  then inl (String.list_byte_of_string n) else inr "name too long".

Definition example_NewNameBytes (b : bytes) : Name + err :=
  if bool_decide (length b ≤ nameLen)%nat
  then inl (String.string_of_list_byte b) else inr "name too long".

(** The table of the examples: the answer of the test suite under the
    name FOO.bar. *)
Definition example_mapping : list (Question * Message) :=
  [(mkQuestion "FOO.bar." TypeA ClassINET, foo_bar_response)].
(** * Properties *)

Section list_lemmas.
Implicit Types (es : entries) (l : cacheListList) (ps xs ys : list addr).
Implicit Types (p q : addr) (e : cacheEntry).

Lemma same_data_refl e : same_data e e.
Proof. by repeat split. Qed.

Lemma same_data_trans e1 e2 e3 :
  same_data e1 e2 → same_data e2 e3 → same_data e1 e3.
Proof. unfold same_data. intuition congruence. Qed.

Lemma links_only_refl es : links_only es es.
Proof.
  intros p. destruct (es !! p); constructor. apply same_data_refl.
Qed.

Lemma links_only_trans es1 es2 es3 :
  links_only es1 es2 → links_only es2 es3 → links_only es1 es3.
Proof.
  intros H1 H2 p. specialize (H1 p). specialize (H2 p).
  destruct H1; inversion H2; subst; constructor.
  eauto using same_data_trans.
Qed.

Lemma links_only_lookup es es' p e :
  links_only es es' → es !! p = Some e →
  ∃ e', es' !! p = Some e' ∧ same_data e e'.
Proof.
  intros H Hp. specialize (H p). rewrite Hp in H. inversion H; subst. eauto.
Qed.

Lemma links_only_lookup_inv es es' p e' :
  links_only es es' → es' !! p = Some e' →
  ∃ e, es !! p = Some e ∧ same_data e e'.
Proof.
  intros H Hp. specialize (H p). rewrite Hp in H. inversion H; subst. eauto.
Qed.

Lemma links_only_alter es (f : cacheEntry → cacheEntry) p :
  (∀ e, same_data e (f e)) → links_only es (alter f p es).
Proof.
  intros Hf q. rewrite lookup_alter. case_decide; subst.
  - destruct (es !! q); constructor. apply Hf.
  - destruct (es !! q); constructor. apply same_data_refl.
Qed.

Lemma links_only_SetNext es p n : links_only es (SetNext es p n).
Proof. apply links_only_alter. by intros []. Qed.

Lemma links_only_SetPrev es p n : links_only es (SetPrev es p n).
Proof. apply links_only_alter. by intros []. Qed.

Lemma links_only_PushFront es l p : links_only es (PushFront es l p).1.
Proof.
  unfold PushFront. destruct (head l); simpl;
    eauto using links_only_trans, links_only_SetNext, links_only_SetPrev.
Qed.

Lemma links_only_Remove es l p : links_only es (Remove es l p).1.
Proof.
  unfold Remove. destruct (Prev es p), (Next es p); simpl;
    eauto using links_only_trans, links_only_SetNext, links_only_SetPrev,
      links_only_refl.
Qed.

(** The entry found at [q] after Remove. *)
Lemma Remove_lookup es l p e q :
  es !! p = Some e →
  (Remove es l p).1 !! q =
    (λ x, let x := if decide (prev e = Some q)
                   then with_next (next e) x else x in
          if decide (next e = Some q) then with_prev (prev e) x else x)
    <$> es !! q.
Proof.
  intros Hp. unfold Remove, Prev, Next, SetNext, SetPrev. rewrite Hp. simpl.
  destruct (prev e) as [a|], (next e) as [b|]; simpl;
    rewrite ?lookup_alter; repeat case_decide; simplify_eq;
    rewrite ?lookup_alter; repeat case_decide; simplify_eq;
    by destruct (es !! q).
Qed.

Lemma Remove_list es l p e :
  es !! p = Some e →
  (Remove es l p).2 =
    mkList (if prev e is Some _ then head l else next e)
           (if next e is Some _ then tail l else prev e).
Proof.
  intros Hp. unfold Remove, Prev, Next. rewrite Hp. simpl.
  by destruct (prev e), (next e), l.
Qed.

(** The entry found at [q] after PushFront. *)
Lemma PushFront_lookup es l p q :
  head l ≠ Some p →
  (PushFront es l p).1 !! q =
    (λ x, if decide (p = q) then with_prev None (with_next (head l) x)
          else if decide (head l = Some q) then with_prev (Some p) x
          else x) <$> es !! q.
Proof.
  intros Hne. unfold PushFront, SetNext, SetPrev.
  destruct (head l) as [hd|]; simpl;
    rewrite ?lookup_alter; repeat case_decide; simplify_eq;
    rewrite ?lookup_alter; repeat case_decide; simplify_eq;
    by destruct (es !! q).
Qed.

Lemma PushFront_list es l p :
  (PushFront es l p).2 =
    mkList (Some p) (if head l is Some _ then tail l else Some p).
Proof. unfold PushFront. by destruct (head l). Qed.

Lemma wf_list_nil es : wf_list es (mkList None None) [].
Proof. repeat split; [constructor | done]. Qed.

Lemma wf_list_lookup es l ps p :
  wf_list es l ps → p ∈ ps → is_Some (es !! p).
Proof.
  intros (_ & _ & _ & H) [i Hi]%list_elem_of_lookup.
  destruct (H i p Hi) as (e & ? & _). eauto.
Qed.

Lemma wf_list_PushFront es l ps p :
  wf_list es l ps → p ∉ ps → is_Some (es !! p) →
  wf_list (PushFront es l p).1 (PushFront es l p).2 (p :: ps).
Proof.
  intros (Hnd & Hh & Ht & Hl) Hp [e0 He0].
  assert (head l ≠ Some p) as Hne.
  { rewrite Hh. intros H. apply Hp, list_elem_of_lookup. eauto. }
  rewrite PushFront_list. repeat split.
  - by constructor.
  - simpl. rewrite Hh, Ht. by destruct ps.
  - intros i q Hq. rewrite PushFront_lookup by done.
    destruct i as [|i]; simpl in *; simplify_eq.
    + rewrite He0. simpl. rewrite decide_True by done.
      eexists; split; [done|]. simpl. by rewrite Hh.
    + destruct (Hl i q Hq) as (e & He & Hn & Hpv). rewrite He. simpl.
      assert (p ≠ q) by (intros ->; apply Hp, list_elem_of_lookup; eauto).
      rewrite decide_False by done.
      eexists; split; [done|]. rewrite Hh.
      destruct i as [|i]; simpl in *.
      * rewrite decide_True by done. by destruct e.
      * rewrite decide_False; [done|].
        intros H0. by pose proof (NoDup_lookup _ _ _ _ Hnd H0 Hq).
Qed.


Lemma pred_at_app_l xs ys i :
  (i ≤ length xs)%nat → pred_at (xs ++ ys) i = pred_at xs i.
Proof.
  destruct i as [|i]; simpl; [done|]. intros. by rewrite lookup_app_l by lia.
Qed.

Lemma pred_at_length xs : pred_at xs (length xs) = last xs.
Proof.
  rewrite last_lookup. destruct xs; simpl; [done|]. done.
Qed.

Lemma wf_list_Remove es l xs p ys :
  wf_list es l (xs ++ p :: ys) →
  wf_list (Remove es l p).1 (Remove es l p).2 (xs ++ ys).
Proof.
  intros (Hnd & Hh & Ht & Hl).
  assert ((xs ++ p :: ys) !! length xs = Some p) as Hip
    by apply list_lookup_middle, eq_refl.
  destruct (Hl _ _ Hip) as (e & He & Hn & Hpv).
  rewrite lookup_app_r, lookup_cons in Hn by lia.
  replace (S (length xs) - length xs)%nat with 1%nat in Hn by lia.
  rewrite pred_at_app_l, pred_at_length in Hpv by lia.
  apply NoDup_app in Hnd as (Hndx & Hxy & Hndy).
  apply NoDup_cons in Hndy as (Hpy & Hndy).
  assert (NoDup (xs ++ ys)) as Hnd'.
  { apply NoDup_app. repeat split; [done| |done].
    intros x Hx Hy. apply (Hxy x Hx). by right. }
  rewrite (Remove_list _ _ _ _ He). repeat split; simpl.
  - done.
  - rewrite Hpv, Hn. destruct xs as [|x xs]; simpl.
    + done.
    + destruct (last (x :: xs)) eqn:E; [by rewrite Hh|].
      by apply last_None in E.
  - rewrite Hn, Hpv, Ht, !last_app. simpl.
    destruct ys as [|y ys]; [done|].
    change (last (p :: y :: ys)) with (last (y :: ys)). simpl (_ !! _).
    cbv iota beta. done.
  - intros i q Hq. rewrite (Remove_lookup _ _ _ _ _ He), Hpv, Hn.
    destruct (decide (i < length xs)%nat) as [Hi|Hi].
    + rewrite lookup_app_l in Hq by done.
      destruct (Hl i q) as (eq & Heq & Hnq & Hpq).
      { by rewrite lookup_app_l. }
      rewrite Heq. simpl. eexists; split; [done|].
      assert (q ∈ xs) as Hqx by (apply list_elem_of_lookup; eauto).
      rewrite (decide_False (P := ys !! 0%nat = Some q)).
      2:{ intros H0. apply (Hxy q Hqx). right.
          apply list_elem_of_lookup; eauto. }
      rewrite pred_at_app_l in Hpq |- * by lia.
      split; [|by destruct (decide (last xs = Some q)), eq].
      rewrite last_lookup. case_decide as Hlast.
      * assert (i = pred (length xs)) as ->
          by exact (NoDup_lookup _ _ _ _ Hndx Hq Hlast).
        destruct eq; simpl.
        rewrite lookup_app_r by lia.
        replace (S (pred (length xs)) - length xs)%nat with 0%nat by lia.
        done.
      * rewrite Hnq.
        assert (S i < length xs)%nat.
        { destruct (decide (S i = length xs)) as [E|]; [|lia].
          exfalso. apply Hlast. rewrite <- E. done. }
        by rewrite !lookup_app_l by lia.
    + rewrite lookup_app_r in Hq by lia.
      destruct (Hl (S i) q) as (eq & Heq & Hnq & Hpq).
      { rewrite lookup_app_r, lookup_cons by lia.
        by replace (S i - length xs)%nat with (S (i - length xs)) by lia. }
      rewrite Heq. simpl. eexists; split; [done|].
      assert (q ∈ ys) as Hqy by (apply list_elem_of_lookup; eauto).
      rewrite (decide_False (P := last xs = Some q)).
      2:{ intros H0. apply (Hxy q); [|by right].
          rewrite last_lookup in H0. apply list_elem_of_lookup; eauto. }
      split.
      * case_decide; destruct eq; simpl in *; rewrite Hnq;
          rewrite !lookup_app_r, lookup_cons by lia;
          by replace (S (S i) - length xs)%nat
            with (S (S i - length xs)) by lia.
      * case_decide as Hhd.
        -- assert (i - length xs = 0)%nat as E
             by exact (NoDup_lookup _ _ _ _ Hndy Hq Hhd).
           assert (i = length xs) as -> by lia.
           destruct eq; simpl.
           rewrite pred_at_app_l, pred_at_length by lia. done.
        -- rewrite Hpq.
           assert (length xs < i)%nat.
           { destruct (decide (i = length xs)) as [->|]; [|lia].
             exfalso. apply Hhd. rewrite <- Hq. f_equal. lia. }
           destruct i as [|i]; [lia|]. simpl.
           rewrite !lookup_app_r, lookup_cons by lia.
           by replace (S i - length xs)%nat with (S (i - length xs)) by lia.
Qed.

End list_lemmas.

Section cache_lemmas.
Implicit Types (es : entries) (l : cacheListList) (ps xs ys : list addr).
Implicit Types (p q : addr) (e : cacheEntry) (k : cacheKey).
Implicit Types (m : gmap cacheKey addr).

Lemma wf_cache_empty : wf_cache ∅ (mkList None None) ∅ [].
Proof.
  split; [apply wf_list_nil|]. split.
  - intros k p H. by rewrite lookup_empty in H.
  - intros p H. by apply elem_of_nil in H.
Qed.

Lemma wf_cache_size m l es ps : wf_cache m l es ps → size m = length ps.
Proof.
  intros ((Hnd & _) & Hm & Hl).
  rewrite <- length_map_to_list, <- (length_fmap snd).
  apply Permutation_length, NoDup_Permutation; [|done|].
  - apply NoDup_fmap_2_strong; [|apply NoDup_map_to_list].
    intros [k1 p1] [k2 p2] H1%elem_of_map_to_list H2%elem_of_map_to_list.
    simpl. intros <-.
    destruct (Hm _ _ H1) as (_ & e1 & He1 & <-).
    destruct (Hm _ _ H2) as (_ & e2 & He2 & <-).
    congruence.
  - intros p. rewrite list_elem_of_fmap. split.
    + intros ([k p'] & -> & H%elem_of_map_to_list). by apply (Hm k).
    + intros H. destruct (Hl p H) as (e & _ & He).
      exists (key e, p). split; [done|]. by apply elem_of_map_to_list.
Qed.

(** Unlinking an entry and deleting its key. *)
Lemma wf_cache_remove m l es xs p ys e :
  wf_cache m l es (xs ++ p :: ys) → es !! p = Some e →
  wf_cache (delete (key e) m) (Remove es l p).2 (Remove es l p).1 (xs ++ ys).
Proof.
  intros (Hlist & Hm & Hl) He.
  pose proof (links_only_Remove es l p) as Hlo.
  assert (NoDup (xs ++ p :: ys)) as Hnd by apply Hlist.
  assert (∀ q, q ∈ xs ++ ys ↔ q ∈ xs ++ p :: ys ∧ q ≠ p) as Hin.
  { intros q. apply NoDup_app in Hnd as (_ & Hxy & [Hpy _]%NoDup_cons).
    rewrite !elem_of_app, elem_of_cons. split.
    - intros [H|H]; (split; [tauto|]); intros ->; [|done].
      apply (Hxy p H). by left.
    - tauto. }
  destruct (Hl p) as (e' & He' & Hkp).
  { apply elem_of_app. right. by left. }
  simplify_eq.
  split; [by apply wf_list_Remove|]. split.
  - intros k q [Hk Hq]%lookup_delete_Some.
    destruct (Hm k q Hq) as (Hqin & eq & Heq & Hkey).
    destruct (links_only_lookup _ _ _ _ Hlo Heq) as (eq' & Heq' & Hsd).
    split.
    + apply Hin. split; [done|]. intros ->. congruence.
    + exists eq'. split; [done|]. destruct Hsd as (<- & _). done.
  - intros q [Hq Hne]%Hin.
    destruct (Hl q Hq) as (eq & Heq & Hkey).
    destruct (links_only_lookup _ _ _ _ Hlo Heq) as (eq' & Heq' & Hsd).
    exists eq'. split; [done|]. destruct Hsd as (<- & _).
    rewrite lookup_delete_ne; [done|]. intros E. rewrite <- E in Hkey.
    congruence.
Qed.

(** Moving an entry to the front. *)
Lemma wf_cache_touch m l es xs p ys :
  wf_cache m l es (xs ++ p :: ys) →
  let r := Remove es l p in
  wf_cache m (PushFront r.1 r.2 p).2 (PushFront r.1 r.2 p).1 (p :: xs ++ ys).
Proof.
  intros (Hlist & Hm & Hl) r.
  assert (links_only es (PushFront r.1 r.2 p).1) as Hlo.
  { eapply links_only_trans;
      [apply links_only_Remove | apply links_only_PushFront]. }
  assert (NoDup (xs ++ p :: ys)) as Hnd by apply Hlist.
  assert (p ∉ xs ++ ys) as Hp.
  { apply NoDup_app in Hnd as (_ & Hxy & [Hpy _]%NoDup_cons).
    rewrite elem_of_app. intros [H|H]; [|done]. apply (Hxy p H). by left. }
  assert (∀ q, q ∈ p :: xs ++ ys ↔ q ∈ xs ++ p :: ys) as Hin.
  { intros q. rewrite elem_of_cons, !elem_of_app, elem_of_cons. tauto. }
  destruct (Hl p) as (e & He & Hkp); [by apply Hin; left|].
  split.
  - apply wf_list_PushFront; [by apply wf_list_Remove|done|].
    destruct (links_only_lookup _ _ _ _ (links_only_Remove es l p) He)
      as (? & ? & _). eauto.
  - split.
    + intros k q Hq.
      destruct (Hm k q Hq) as (Hqin & eq & Heq & Hkey).
      destruct (links_only_lookup _ _ _ _ Hlo Heq) as (eq' & Heq' & Hsd).
      split; [by apply Hin|]. exists eq'. split; [done|].
      destruct Hsd as (<- & _). done.
    + intros q Hq%Hin.
      destruct (Hl q Hq) as (eq & Heq & Hkey).
      destruct (links_only_lookup _ _ _ _ Hlo Heq) as (eq' & Heq' & Hsd).
      exists eq'. split; [done|]. by destruct Hsd as (<- & _).
Qed.

Lemma wf_list_alloc es l ps p e :
  wf_list es l ps → es !! p = None → wf_list (<[p := e]> es) l ps.
Proof.
  intros (Hnd & Hh & Ht & Hl) Hp. repeat split; try done.
  intros i q Hq. destruct (Hl i q Hq) as (eq & Heq & H).
  exists eq. split; [|done]. rewrite lookup_insert_ne; [done|]. congruence.
Qed.

(** Inserting a new entry under a key that the map does not hold. *)
Lemma wf_cache_insert m l es ps k p e :
  wf_cache m l es ps → m !! k = None → es !! p = None → key e = k →
  let es1 := <[p := e]> es in
  wf_cache (<[k := p]> m) (PushFront es1 l p).2 (PushFront es1 l p).1
           (p :: ps).
Proof.
  intros (Hlist & Hm & Hl) Hk Hp Hkey es1.
  assert (p ∉ ps) as Hpps.
  { intros H. destruct (Hl p H) as (? & ? & _). congruence. }
  pose proof (links_only_PushFront es1 l p) as Hlo.
  assert (es1 !! p = Some e) as He1 by apply lookup_insert_eq.
  split.
  - apply wf_list_PushFront; [by apply wf_list_alloc|done|by eauto].
  - split.
    + intros k' q Hq. rewrite lookup_insert in Hq. case_decide; simplify_eq.
      * split; [by left|].
        destruct (links_only_lookup _ _ _ _ Hlo He1) as (e' & He' & Hsd).
        exists e'. split; [done|]. destruct Hsd as (Hsd & _). congruence.
      * destruct (Hm k' q Hq) as (Hqin & eq & Heq & Hkey').
        assert (es1 !! q = Some eq) as Heq1.
        { unfold es1. rewrite lookup_insert_ne; [done|]. congruence. }
        destruct (links_only_lookup _ _ _ _ Hlo Heq1) as (e' & He' & Hsd).
        split; [by right|]. exists e'. split; [done|].
        by destruct Hsd as (<- & _).
    + intros q [->|Hq]%elem_of_cons.
      * destruct (links_only_lookup _ _ _ _ Hlo He1) as (e' & He' & Hsd).
        exists e'. split; [done|]. destruct Hsd as (Hsd & _).
        rewrite <- Hsd, Hkey. apply lookup_insert_eq.
      * destruct (Hl q Hq) as (eq & Heq & Hkey').
        assert (es1 !! q = Some eq) as Heq1.
        { unfold es1. rewrite lookup_insert_ne; [done|]. congruence. }
        destruct (links_only_lookup _ _ _ _ Hlo Heq1) as (e' & He' & Hsd).
        exists e'. split; [done|]. destruct Hsd as (<- & _).
        rewrite lookup_insert_ne; [done|]. congruence.
Qed.

End cache_lemmas.

Section mem_lemmas.
Implicit Types (h : Mem) (s t : slice) (rs : list Resource).

Lemma apart_sym s t : apart s t → apart t s.
Proof. destruct s, t; simpl; congruence. Qed.

Lemma load_store_eq h s rs : rs = [] ∨ s ≠ None → load (store h s rs) s = rs.
Proof.
  destruct s as [a|]; simpl.
  - by rewrite lookup_insert_eq.
  - by intros [->|].
Qed.

Lemma load_store_ne h s t rs : apart s t → load (store h s rs) t = load h t.
Proof.
  destruct s as [a|], t as [b|]; simpl; try done.
  intros. by rewrite lookup_insert_ne.
Qed.

Lemma bodies_store h s rs : bodies (store h s rs) = bodies h.
Proof. by destruct s. Qed.

Lemma valid_store h s t rs : valid h t → valid (store h s rs) t.
Proof.
  destruct s as [a|], t as [b|]; simpl; try done.
  intros. rewrite lookup_insert. case_decide; eauto.
Qed.

Lemma extends_except_refl X h : extends_except X h h.
Proof. split; [done|]. eauto. Qed.

Lemma extends_except_trans X h1 h2 h3 :
  extends_except X h1 h2 → extends_except X h2 h3 → extends_except X h1 h3.
Proof.
  intros [Hb1 H1] [Hb2 H2]. split; [congruence|].
  intros a Ha. destruct (H1 a Ha) as [Ha2 E1]. destruct (H2 a Ha2) as [Ha3 E2].
  split; [done|]. intros. rewrite E2, E1; done.
Qed.

Lemma extends_except_weaken X Y h h' :
  X ⊆ Y → extends_except X h h' → extends_except Y h h'.
Proof.
  intros HXY [Hb H]. split; [done|]. intros a Ha.
  destruct (H a Ha) as [? E]. split; [done|]. intros Hn. apply E.
  intros Hx. apply Hn, HXY, Hx.
Qed.

Lemma extends_except_valid X h h' s :
  extends_except X h h' → valid h s → valid h' s.
Proof. intros [_ H]. destruct s as [a|]; simpl; [|done]. intros. by apply H. Qed.

Lemma extends_except_load X h h' s :
  extends_except X h h' → valid h s → s ∉ X → load h' s = load h s.
Proof.
  intros [_ H]. destruct s as [a|]; simpl; [|done].
  intros Ha Hs. destruct (H a Ha) as [_ E]. by rewrite E.
Qed.

Lemma extends_except_store h s rs :
  valid h s → extends_except [s] h (store h s rs).
Proof.
  intros Hs. split; [apply bodies_store|]. intros a Ha.
  destruct s as [b|]; simpl; [|eauto].
  rewrite lookup_insert. case_decide; subst.
  - split; [eauto|]. intros H. exfalso. apply H. by left.
  - eauto.
Qed.

(** The copy is a new slice with the elements of the original. *)
Lemma copySlice_spec h s :
  let r := copySlice h s in
  load r.1 r.2 = load h s ∧ valid r.1 r.2 ∧
  (∀ t, valid h t → apart r.2 t) ∧
  extends_except [] h r.1.
Proof.
  unfold copySlice.
  destruct (load h s) as [|x rs] eqn:E; simpl.
  - repeat split; try done; eauto.
  - pose proof (is_fresh (dom (arrays h))) as Hf.
    set (a := fresh (dom (arrays h))) in *.
    rewrite lookup_insert_eq. repeat split; simpl; eauto.
    + intros [b|]; simpl; [|done]. intros Hb <-.
      apply Hf, elem_of_dom, Hb.
    + rewrite lookup_insert. case_decide; eauto.
    + intros _. rewrite lookup_insert_ne; [done|].
      intros <-. apply Hf, elem_of_dom. done.
Qed.

End mem_lemmas.

Section scan_lemmas.
Implicit Types (rs : list Resource) (s : scan) (T : Type_).

Lemma subslice_insert_hit lo n (p : list nat) x :
  (lo + n < length p)%nat →
  subslice lo (S n) (<[(lo + n)%nat := x]> p) = subslice lo n p ++ [x].
Proof.
  intros Hlt. unfold subslice.
  rewrite drop_insert_ge by lia.
  replace (lo + n - lo)%nat with n by lia.
  rewrite (take_S_r _ n x).
  - by rewrite take_insert_ge by lia.
  - apply list_lookup_insert_eq. rewrite length_drop. lia.
Qed.

Lemma subslice_insert_miss lo n (p : list nat) j x :
  (j < lo ∨ lo + n ≤ j)%nat →
  subslice lo n (<[j := x]> p) = subslice lo n p.
Proof.
  intros Hj. unfold subslice.
  destruct (decide (j < lo)%nat).
  - by rewrite drop_insert_lt by lia.
  - rewrite drop_insert_ge by lia. by rewrite take_insert_ge by lia.
Qed.

Lemma positions_from_cons T i r rs :
  positions_from T i (r :: rs) =
    (if bool_decide (RType (Header r) = T) then [i] else [])
    ++ positions_from T (S i) rs.
Proof. simpl. by case_bool_decide. Qed.

Lemma scan_from_inv off rs : ∀ s i PA P4 PM PN,
  scan_inv off s PA P4 PM PN →
  (length PA ≤ i ∧ length P4 ≤ i ∧ length PM ≤ i ∧ length PN ≤ i)%nat →
  (i + length rs ≤ off)%nat →
  scan_inv off (scan_from off s i rs)
    (PA ++ positions_from TypeA i rs) (P4 ++ positions_from TypeAAAA i rs)
    (PM ++ positions_from TypeMX i rs) (PN ++ positions_from TypeNS i rs).
Proof.
  induction rs as [|r rs IH]; intros s i PA P4 PM PN Hinv Hle Hoff.
  { simpl. by rewrite !app_nil_r. }
  simpl in Hoff. rewrite !positions_from_cons, !app_assoc.
  destruct Hinv as (Hlen & HA & H4 & HM & HN & EA & E4 & EM & EN).
  cbn [scan_from]. unfold scan_step.
  destruct (decide (RType (Header r) = TypeA)) as [E|NA].
  { rewrite E. rewrite bool_decide_eq_true_2 by done.
    rewrite !(bool_decide_eq_false_2 (TypeA = _)) by done.
    rewrite !app_nil_r.
    apply IH; [|rewrite length_app; simpl; lia|lia].
    unfold scan_inv; cbn [pos typeA typeAAAA typeMX typeNS].
    rewrite length_insert, length_app; cbn [length].
    repeat split; try lia.
    - rewrite HA. change (length PA) with (0 + length PA)%nat at 2.
      rewrite subslice_insert_hit by (simpl; lia). simpl. by rewrite <- HA, EA.
    - rewrite subslice_insert_miss by lia. done.
    - rewrite subslice_insert_miss by lia. done.
    - rewrite subslice_insert_miss by lia. done. }
  rewrite (bool_decide_eq_false_2 (_ = TypeA)) by done.
  destruct (decide (RType (Header r) = TypeAAAA)) as [E|N4].
  { rewrite E. rewrite bool_decide_eq_true_2 by done.
    rewrite !(bool_decide_eq_false_2 (TypeAAAA = _)) by done.
    rewrite !app_nil_r.
    apply IH; [|rewrite length_app; simpl; lia|lia].
    unfold scan_inv; cbn [pos typeA typeAAAA typeMX typeNS].
    rewrite length_insert, length_app; cbn [length].
    repeat split; try lia.
    - rewrite subslice_insert_miss by lia. done.
    - rewrite H4, subslice_insert_hit by lia. by rewrite <- H4, E4.
    - rewrite subslice_insert_miss by lia. done.
    - rewrite subslice_insert_miss by lia. done. }
  rewrite (bool_decide_eq_false_2 (_ = TypeAAAA)) by done.
  destruct (decide (RType (Header r) = TypeMX)) as [E|NM].
  { rewrite E. rewrite bool_decide_eq_true_2 by done.
    rewrite !(bool_decide_eq_false_2 (TypeMX = _)) by done.
    rewrite !app_nil_r.
    apply IH; [|rewrite length_app; simpl; lia|lia].
    unfold scan_inv; cbn [pos typeA typeAAAA typeMX typeNS].
    rewrite length_insert, length_app; cbn [length].
    repeat split; try lia.
    - rewrite subslice_insert_miss by lia. done.
    - rewrite subslice_insert_miss by lia. done.
    - rewrite HM, subslice_insert_hit by lia. by rewrite <- HM, EM.
    - rewrite subslice_insert_miss by lia. done. }
  rewrite (bool_decide_eq_false_2 (_ = TypeMX)) by done.
  destruct (decide (RType (Header r) = TypeNS)) as [E|NN].
  { rewrite E. rewrite bool_decide_eq_true_2 by done.
    rewrite !app_nil_r.
    apply IH; [|rewrite length_app; simpl; lia|lia].
    unfold scan_inv; cbn [pos typeA typeAAAA typeMX typeNS].
    rewrite length_insert, length_app; cbn [length].
    repeat split; try lia.
    - rewrite subslice_insert_miss by lia. done.
    - rewrite subslice_insert_miss by lia. done.
    - rewrite subslice_insert_miss by lia. done.
    - rewrite HN, subslice_insert_hit by lia. by rewrite <- HN, EN. }
  rewrite (bool_decide_eq_false_2 (_ = TypeNS)) by done.
  rewrite !app_nil_r. apply IH; [done|lia|lia].
Qed.

Lemma positions_from_bound T rs : ∀ i j,
  j ∈ positions_from T i rs → (i ≤ j < i + length rs)%nat.
Proof.
  induction rs as [|r rs IH]; intros i j; simpl; [by intros ?%elem_of_nil|].
  case_bool_decide.
  - intros [->|H1%IH]%elem_of_cons; lia.
  - intros H1%IH. lia.
Qed.

(** The scan of reorderMsg finds the positions of the four type-classes. *)
Lemma scan_answers_spec rs :
  let s := scan_answers rs in
  let off := length rs in
  subslice 0 (typeA s) (pos s) = positions TypeA rs ∧
  subslice off (typeAAAA s) (pos s) = positions TypeAAAA rs ∧
  subslice (2 * off) (typeMX s) (pos s) = positions TypeMX rs ∧
  subslice (3 * off) (typeNS s) (pos s) = positions TypeNS rs.
Proof.
  intros s off.
  pose proof (scan_from_inv off rs
    (mkScan (replicate (4 * off) 0%nat) 0 0 0 0) 0 [] [] [] []) as H.
  destruct H as (_ & _ & _ & _ & _ & EA & E4 & EM & EN).
  - unfold scan_inv. simpl. rewrite length_replicate.
    repeat split; try lia; try done.
    all: unfold subslice; by rewrite take_0.
  - simpl. lia.
  - unfold off. lia.
  - done.
Qed.


Lemma rotate_loop_cons rr p q P :
  rotate_loop rr (p :: q :: P) =
  rotate_loop (<[p := rr !!! q]> rr) (q :: P).
Proof.
  unfold rotate_loop.
  replace (length (p :: q :: P) - 1)%nat with (S (length P)) by (simpl; lia).
  replace (length (q :: P) - 1)%nat with (length P) by (simpl; lia).
  cbn [seq foldl]. rewrite <- (fmap_S_seq 0), foldl_fmap. done.
Qed.

Lemma get_cons rr p P : get rr (p :: P) = rr !!! p :: get rr P.
Proof. done. Qed.

Lemma get_app rr P Q : get rr (P ++ Q) = get rr P ++ get rr Q.
Proof. apply fmap_app. Qed.

Lemma get_insert_notin rr j x P : j ∉ P → get (<[j := x]> rr) P = get rr P.
Proof.
  intros Hj. apply list_fmap_ext. intros _ i Hi%list_elem_of_lookup_2.
  apply list_lookup_total_insert_ne. by intros ->.
Qed.

Lemma get_ext rr rr' P :
  (∀ i, i ∈ P → rr' !! i = rr !! i) → get rr' P = get rr P.
Proof.
  intros H. apply list_fmap_ext. intros _ i Hi%list_elem_of_lookup_2.
  by rewrite !list_lookup_total_alt, H.
Qed.

(** The loop of rotateRecords moves every record but the first one place
    towards the front of the positions. *)
Lemma rotate_loop_spec P : ∀ p rr,
  NoDup (p :: P) → Forall (λ i, i < length rr)%nat (p :: P) →
  let rr' := rotate_loop rr (p :: P) in
  length rr' = length rr ∧
  (∀ i, i ∉ p :: P → rr' !! i = rr !! i) ∧
  get rr' (p :: P) = get rr P ++ [rr !!! default p (last P)].
Proof.
  induction P as [|q P IH]; intros p rr Hnd Hin; [done|].
  rewrite rotate_loop_cons.
  apply NoDup_cons in Hnd as [Hp Hnd].
  apply Forall_cons in Hin as [Hplt Hin].
  set (rr1 := <[p := rr !!! q]> rr).
  destruct (IH q rr1) as (Hlen & Hout & Hget); [done| |].
  { unfold rr1. by rewrite length_insert. }
  cbv zeta. split; [|split].
  - rewrite Hlen. apply length_insert.
  - intros i Hi. rewrite Hout.
    + unfold rr1. apply list_lookup_insert_ne. intros ->. apply Hi. by left.
    + intros H. apply Hi. by right.
  - assert (p ∉ P) by (intros ?; apply Hp; by right).
    assert (default p (last (q :: P)) = default q (last P)) as Hlast.
    { rewrite last_cons. by destruct (last P). }
    assert (default q (last P) ≠ p) as Hne.
    { intros <-. apply Hp. destruct (last P) eqn:E; simpl; [|by left].
      right. rewrite last_lookup in E. by eapply list_elem_of_lookup_2. }
    rewrite (get_cons _ p), Hget, Hlast, (get_cons rr q).
    rewrite (list_lookup_total_alt _ p), Hout by done.
    unfold rr1. rewrite list_lookup_insert_eq by done.
    rewrite get_insert_notin by done.
    by rewrite list_lookup_total_insert_ne by done.
Qed.

(** rotateRecords on distinct positions inside the slice. *)
Lemma rotateRecords_spec rr P rnd :
  NoDup P → Forall (λ i, i < length rr)%nat P →
  let rr' := (rotateRecords rr P rnd).1 in
  length rr' = length rr ∧
  (∀ i, i ∉ P → rr' !! i = rr !! i) ∧
  get rr' P = rotl (get rr P) ∧
  (rotateRecords rr P rnd).2 = rnd.
Proof.
  intros Hnd Hin. unfold rotateRecords. case_bool_decide as Hle; simpl.
  { repeat split; try done. destruct P as [|p [|q P]]; simpl in *; try done. lia. }
  destruct P as [|p P]; [simpl in Hle; lia|].
  destruct (rotate_loop_spec P p rr Hnd Hin) as (Hlen & Hout & Hget).
  assert (P ≠ []) as HP by (intros ->; simpl in Hle; lia).
  destruct (exists_last HP) as (F & lst & ->).
  change (length (p :: F ++ [lst]) - 1)%nat with (length (F ++ [lst]) - 0)%nat.
  rewrite Nat.sub_0_r.
  assert ((p :: F ++ [lst]) !!! length (F ++ [lst]) = lst) as ->.
  { apply list_lookup_total_correct. rewrite length_app. simpl.
    rewrite lookup_cons. replace (length F + 1)%nat with (S (length F)) by lia.
    by apply list_lookup_middle. }
  rewrite last_snoc in Hget. simpl in Hget.
  assert (lst < length rr)%nat as Hlst.
  { rewrite Forall_forall in Hin. apply Hin. right. apply elem_of_app.
    right. by left. }
  assert (lst ∉ p :: F) as HlstF.
  { change (p :: F ++ [lst]) with ((p :: F) ++ [lst]) in Hnd.
    apply NoDup_app in Hnd as (_ & Hd & _). intros H. apply (Hd _ H). by left. }
  repeat split.
  - by rewrite length_insert.
  - intros i Hi. rewrite list_lookup_insert_ne.
    + by apply Hout.
    + intros ->. apply Hi. right. apply elem_of_app. right. by left.
  - change (p :: F ++ [lst]) with ((p :: F) ++ [lst]) in *.
    set (rr' := rotate_loop rr ((p :: F) ++ [lst])) in *.
    rewrite (get_app rr') in Hget.
    apply (app_inj_2 (get rr' (p :: F)) (get rr (F ++ [lst]))) in Hget
      as [Hget _]; [|done].
    rewrite get_app, get_insert_notin, Hget by done.
    rewrite (get_app rr (p :: F)). cbn [get fmap list_fmap rotl app].
    rewrite list_lookup_total_insert_eq by (by rewrite Hlen).
    by rewrite get_app.
Qed.


Lemma elem_of_positions_from T rs : ∀ i j,
  j ∈ positions_from T i rs ↔
  (i ≤ j)%nat ∧ ∃ r, rs !! (j - i)%nat = Some r ∧ RType (Header r) = T.
Proof.
  induction rs as [|r rs IH]; intros i j; simpl.
  { split; [by intros ?%elem_of_nil|]. by intros (_ & ? & ? & _). }
  assert (j ∈ positions_from T (S i) rs ↔
          (i < j)%nat ∧ ∃ r', (r :: rs) !! (j - i)%nat = Some r' ∧
                              RType (Header r') = T) as IH'.
  { rewrite IH. split.
    - intros (Hle & r' & Hr' & HT). split; [lia|]. exists r'. split; [|done].
      by replace (j - i)%nat with (S (j - S i)) by lia.
    - intros (Hlt & r' & Hr' & HT). split; [lia|]. exists r'. split; [|done].
      by replace (j - i)%nat with (S (j - S i)) in Hr' by lia. }
  case_bool_decide as HT.
  - rewrite elem_of_cons, IH'. split.
    + intros [->|(Hlt & H)].
      * split; [lia|]. exists r. by rewrite Nat.sub_diag.
      * split; [lia|done].
    + intros (Hle & H). destruct (decide (j = i)) as [->|]; [by left|].
      right. split; [lia|done].
  - rewrite IH'. split.
    + intros (Hlt & H). split; [lia|done].
    + intros (Hle & r' & Hr' & HT'). split; [|by eauto].
      destruct (decide (j = i)) as [->|]; [|lia].
      rewrite Nat.sub_diag in Hr'. simpl in Hr'. congruence.
Qed.

Lemma NoDup_positions_from T rs i : NoDup (positions_from T i rs).
Proof.
  revert i. induction rs as [|r rs IH]; intros i; simpl; [constructor|].
  case_bool_decide; [|done]. constructor; [|done].
  intros H0%positions_from_bound. lia.
Qed.

Lemma positions_in_range T rs :
  Forall (λ i, i < length rs)%nat (positions T rs).
Proof.
  apply Forall_forall. intros j Hj%positions_from_bound. lia.
Qed.

Lemma positions_from_types T rs rs' i :
  types rs = types rs' → positions_from T i rs = positions_from T i rs'.
Proof.
  revert rs' i. induction rs as [|r rs IH]; intros [|r' rs'] i; try done.
  unfold types. simpl. intros [= E1 E2]. rewrite E1.
  by rewrite (IH rs' (S i)).
Qed.

Lemma get_positions_from T rs : ∀ pre,
  get (pre ++ rs) (positions_from T (length pre) rs) = of_type T rs.
Proof.
  unfold of_type.
  induction rs as [|r rs IH]; intros pre; simpl; [done|].
  specialize (IH (pre ++ [r])). rewrite length_app in IH. simpl in IH.
  replace (length pre + 1)%nat with (S (length pre)) in IH by lia.
  rewrite <- app_assoc in IH. simpl in IH.
  rewrite filter_cons. case_bool_decide; case_decide; try done.
  rewrite get_cons, IH. f_equal.
  apply list_lookup_total_correct. by apply list_lookup_middle.
Qed.

Lemma get_positions T rs : get rs (positions T rs) = of_type T rs.
Proof. apply (get_positions_from T rs []). Qed.

Lemma of_type_types T rs :
  Forall (λ r, RType (Header r) = T) (of_type T rs).
Proof.
  apply Forall_forall. intros r Hr. unfold of_type in Hr.
  by apply list_elem_of_filter in Hr as [? _].
Qed.

Lemma Forall_rotl {A} (P : A → Prop) (xs : list A) :
  Forall P xs → Forall P (rotl xs).
Proof.
  destruct xs as [|x xs]; simpl; [done|].
  intros [? ?]%Forall_cons. apply Forall_app. split; [done|]. by constructor.
Qed.

(** Rotating the positions of one type-class moves the records of that
    class only, and every position keeps the type of its record. *)
Lemma rotate_class T rr rnd :
  let rr' := (rotateRecords rr (positions T rr) rnd).1 in
  types rr' = types rr ∧
  of_type T rr' = rotl (of_type T rr) ∧
  (∀ i r, rr !! i = Some r → RType (Header r) ≠ T → rr' !! i = Some r).
Proof.
  destruct (rotateRecords_spec rr (positions T rr) rnd)
    as (Hlen & Hout & Hget & _).
  { apply NoDup_positions_from. }
  { apply positions_in_range. }
  intros rr'. fold rr' in Hlen, Hout, Hget.
  rewrite get_positions in Hget.
  assert (∀ i r, rr !! i = Some r → RType (Header r) ≠ T →
                 rr' !! i = Some r) as Hfix.
  { intros i r Hr HT. rewrite Hout; [done|].
    intros (_ & r' & Hr' & HT')%elem_of_positions_from.
    rewrite Nat.sub_0_r in Hr'. congruence. }
  assert (types rr' = types rr) as Hty.
  { apply list_eq. intros i. unfold types. rewrite !list_lookup_fmap.
    destruct (rr !! i) as [r|] eqn:Hr.
    - destruct (decide (RType (Header r) = T)) as [HT|HT].
      + assert (i ∈ positions T rr) as Hi.
        { apply elem_of_positions_from. split; [lia|].
          exists r. by rewrite Nat.sub_0_r. }
        apply list_elem_of_lookup in Hi as [j Hj].
        assert (get rr' (positions T rr) !! j = Some (rr' !!! i)) as Hg.
        { unfold get. by rewrite list_lookup_fmap, Hj. }
        rewrite Hget in Hg.
        pose proof (Forall_rotl _ _ (of_type_types T rr)) as Hall.
        rewrite Forall_forall in Hall.
        specialize (Hall _ (list_elem_of_lookup_2 _ _ _ Hg)).
        assert (i < length rr')%nat as Hlt.
        { rewrite Hlen. by eapply lookup_lt_Some. }
        rewrite (list_lookup_lookup_total_lt rr' i Hlt). simpl. congruence.
      + by rewrite (Hfix i r Hr HT).
    - apply lookup_ge_None in Hr. rewrite <- Hlen in Hr.
      apply lookup_ge_None in Hr. by rewrite Hr. }
  repeat split; [done| |done].
  rewrite <- get_positions. unfold positions.
  by rewrite (positions_from_types T rr' rr).
Qed.

Lemma rotate_class_other T T' rr rnd :
  T' ≠ T →
  of_type T' (rotateRecords rr (positions T rr) rnd).1 = of_type T' rr.
Proof.
  intros Hne.
  destruct (rotate_class T rr rnd) as (Hty & _ & Hfix).
  rewrite <- !get_positions. unfold positions.
  rewrite (positions_from_types T' _ rr) by done.
  apply get_ext. intros i (_ & r & Hr & HT)%elem_of_positions_from.
  rewrite Nat.sub_0_r in Hr. rewrite Hr. apply Hfix; congruence.
Qed.


Lemma rotl_short {A} (xs : list A) : (length xs ≤ 1)%nat → rotl xs = xs.
Proof. destruct xs as [|x [|y xs]]; simpl; try done. lia. Qed.

Lemma rotl_iter {A} (n : nat) : ∀ xs : list A,
  (n ≤ length xs)%nat → Nat.iter n rotl xs = drop n xs ++ take n xs.
Proof.
  induction n as [|n IH]; intros xs Hn; simpl.
  { by rewrite drop_0, app_nil_r. }
  rewrite IH by lia.
  destruct (drop n xs) as [|x ys] eqn:E.
  { apply (f_equal length) in E. rewrite length_drop in E. simpl in E. lia. }
  assert (xs !! n = Some x) as Hx.
  { rewrite <- (Nat.add_0_r n), <- lookup_drop, E. done. }
  assert (drop (S n) xs = ys) as ->.
  { replace (S n) with (n + 1)%nat by lia. by rewrite <- drop_drop, E. }
  rewrite (take_S_r _ _ _ Hx). simpl. by rewrite <- app_assoc.
Qed.

Lemma rotl_iter_length {A} (xs : list A) : Nat.iter (length xs) rotl xs = xs.
Proof.
  rewrite rotl_iter by done. by rewrite drop_all, firstn_all.
Qed.

(** One stage of reorderMsg with rotateRecords: the positions are those
    of the scan of the original answers [rr0]. *)
Lemma rotate_stage T rr0 rr rnd :
  types rr = types rr0 →
  let rr' := (rotateRecords rr (positions T rr0) rnd).1 in
  types rr' = types rr0 ∧
  of_type T rr' = rotl (of_type T rr) ∧
  (∀ T', T' ≠ T → of_type T' rr' = of_type T' rr) ∧
  (∀ i r, rr !! i = Some r → RType (Header r) ≠ T → rr' !! i = Some r).
Proof.
  intros Hty. unfold positions.
  rewrite <- (positions_from_types T rr rr0) by done.
  destruct (rotate_class T rr rnd) as (H1 & H2 & H3).
  cbv zeta. fold (positions T rr). repeat split; try done.
  - by rewrite H1.
  - intros T' HT'. by apply rotate_class_other.
Qed.

Lemma rotateRecords_rnd rr P rnd : (rotateRecords rr P rnd).2 = rnd.
Proof. unfold rotateRecords. by case_bool_decide. Qed.

(** reorderMsg with rotateRecords, on the elements of the answer section. *)
Lemma reorder_list_rotate rs rnd :
  let rs' := (reorder_list rotateRecords rs rnd).1 in
  types rs' = types rs ∧
  (∀ T, T ∈ reordered_types → of_type T rs' = rotl (of_type T rs)) ∧
  (∀ i r, rs !! i = Some r → RType (Header r) ∉ reordered_types →
          rs' !! i = Some r) ∧
  (reorder_list rotateRecords rs rnd).2 = rnd.
Proof.
  unfold reorder_list. case_bool_decide as Hlen.
  { simpl. repeat split; try done. intros T _. symmetry. apply rotl_short.
    unfold of_type. etrans; [apply length_filter|done]. }
  destruct (scan_answers_spec rs) as (EA & E4 & EM & EN).
  rewrite EA, E4, EM, EN.
  destruct (rotateRecords rs _ rnd) as [r1 n1] eqn:S1.
  destruct (rotateRecords r1 _ n1) as [r2 n2] eqn:S2.
  destruct (rotateRecords r2 _ n2) as [r3 n3] eqn:S3.
  destruct (rotateRecords r3 _ n3) as [r4 n4] eqn:S4.
  pose proof (rotate_stage TypeA rs rs rnd eq_refl) as (T1 & A1 & O1 & F1).
  rewrite S1 in T1, A1, O1, F1. simpl in T1, A1, O1, F1.
  pose proof (rotate_stage TypeAAAA rs r1 n1 T1) as (T2 & A2 & O2 & F2).
  rewrite S2 in T2, A2, O2, F2. simpl in T2, A2, O2, F2.
  pose proof (rotate_stage TypeMX rs r2 n2 T2) as (T3 & A3 & O3 & F3).
  rewrite S3 in T3, A3, O3, F3. simpl in T3, A3, O3, F3.
  pose proof (rotate_stage TypeNS rs r3 n3 T3) as (T4 & A4 & O4 & F4).
  rewrite S4 in T4, A4, O4, F4. simpl in T4, A4, O4, F4.
  simpl. repeat split.
  - done.
  - intros T HT. unfold reordered_types in HT.
    repeat (apply elem_of_cons in HT as [->|HT]).
    + by rewrite O4, O3, O2, A1.
    + by rewrite O4, O3, A2, O1.
    + by rewrite O4, A3, O2, O1.
    + by rewrite A4, O3, O2, O1.
    + by apply elem_of_nil in HT.
  - intros i r Hr HT.
    assert (∀ T, T ∈ reordered_types → RType (Header r) ≠ T) as Hne.
    { intros T HT' E. apply HT. by rewrite E. }
    assert (RType (Header r) ≠ TypeA ∧ RType (Header r) ≠ TypeAAAA ∧
            RType (Header r) ≠ TypeMX ∧ RType (Header r) ≠ TypeNS)
      as (NA & N4 & NM & NN).
    { repeat split; apply Hne; unfold reordered_types; set_solver. }
    simpl. apply F4; [apply F3; [apply F2; [by apply F1|done]|done]|done].
  - pose proof (rotateRecords_rnd rs (positions TypeA rs) rnd) as R1.
    pose proof (rotateRecords_rnd r1 (positions TypeAAAA rs) n1) as R2.
    pose proof (rotateRecords_rnd r2 (positions TypeMX rs) n2) as R3.
    pose proof (rotateRecords_rnd r3 (positions TypeNS rs) n3) as R4.
    rewrite S1 in R1. rewrite S2 in R2. rewrite S3 in R3. rewrite S4 in R4.
    simpl in *. congruence.
Qed.


Lemma Intn_bound rnd n : (0 < n)%nat → ((Intn rnd n).1 < n)%nat.
Proof.
  intros Hn. destruct rnd as [|x rnd]; simpl; [done|].
  apply Nat.mod_upper_bound. lia.
Qed.

Lemma swap_perm rr a b :
  (a < length rr)%nat → (b < length rr)%nat → swap rr a b ≡ₚ rr.
Proof.
  intros Ha Hb. unfold swap.
  apply Permutation_insert_swap; by apply list_lookup_lookup_total_lt.
Qed.

Lemma Shuffle_loop_perm P i : ∀ rr rnd,
  (i < length P)%nat → Forall (λ j, j < length rr)%nat P →
  (Shuffle_loop i rr P rnd).1 ≡ₚ rr.
Proof.
  induction i as [|i IH]; intros rr rnd Hi Hin; simpl; [done|].
  pose proof (Intn_bound rnd (S (S i)) ltac:(lia)) as Hj.
  destruct (Intn rnd (S (S i))) as [j rnd']. simpl in Hj.
  assert (∀ k, k < length P → P !!! k < length rr)%nat as Hk.
  { intros k Hlt. rewrite Forall_forall in Hin. apply Hin.
    apply list_elem_of_lookup. exists k.
    by apply list_lookup_lookup_total_lt. }
  assert (swap rr (P !!! S i) (P !!! j) ≡ₚ rr) as Hsw
    by (apply swap_perm; apply Hk; lia).
  rewrite IH; [done|lia|].
  eapply Forall_impl; [exact Hin|]. simpl. intros k Hlt.
  by rewrite (Permutation_length Hsw).
Qed.

Lemma shuffleRecords_perm rr P rnd :
  Forall (λ j, j < length rr)%nat P → (shuffleRecords rr P rnd).1 ≡ₚ rr.
Proof.
  intros Hin. unfold shuffleRecords. case_bool_decide; [done|].
  apply Shuffle_loop_perm; [lia|done].
Qed.

(** reorderMsg with shuffleRecords permutes the answers. *)
Lemma reorder_list_shuffle_perm rs rnd :
  (reorder_list shuffleRecords rs rnd).1 ≡ₚ rs.
Proof.
  unfold reorder_list. case_bool_decide as Hlen; [done|].
  destruct (scan_answers_spec rs) as (EA & E4 & EM & EN).
  rewrite EA, E4, EM, EN.
  assert (∀ T rr n, rr ≡ₚ rs → (shuffleRecords rr (positions T rs) n).1 ≡ₚ rs)
    as Hstage.
  { intros T rr n Hp. rewrite shuffleRecords_perm; [done|].
    rewrite (Permutation_length Hp). apply positions_in_range. }
  destruct (shuffleRecords rs _ rnd) as [r1 n1] eqn:S1.
  destruct (shuffleRecords r1 _ n1) as [r2 n2] eqn:S2.
  destruct (shuffleRecords r2 _ n2) as [r3 n3] eqn:S3.
  pose proof (Hstage TypeA rs rnd (reflexivity _)) as P1.
  rewrite S1 in P1. simpl in P1.
  pose proof (Hstage TypeAAAA r1 n1 P1) as P2. rewrite S2 in P2. simpl in P2.
  pose proof (Hstage TypeMX r2 n2 P2) as P3. rewrite S3 in P3. simpl in P3.
  by apply Hstage.
Qed.

End scan_lemmas.

Section ttl_lemmas.
Implicit Types (h : Mem) (r : Resource) (rs : list Resource).

Lemma wrap_i64_id z : min_i64 ≤ z ≤ max_i64 → wrap_i64 z = z.
Proof.
  unfold wrap_i64, min_i64, max_i64. intros Hz.
  rewrite Z.mod_small; lia.
Qed.

Lemma wrap_u32_id z : u32 z → wrap_u32 z = z.
Proof. unfold wrap_u32, u32. intros Hz. by apply Z.mod_small. Qed.

(** The remaining nanoseconds truncated to seconds: the seconds that the
    elapsed time has started are all deducted. *)
Lemma remaining_seconds t e :
  0 ≤ t → 0 ≤ e →
  Z.max 0 (t * Second - e) / Second = Z.max 0 (t - seconds_started e).
Proof.
  unfold seconds_started, Second. intros Ht He.
  pose proof (Z.div_mod (e + 1000000000 - 1) 1000000000 ltac:(lia)) as Hdm.
  pose proof (Z.mod_pos_bound (e + 1000000000 - 1) 1000000000 ltac:(lia)).
  set (c := (e + 1000000000 - 1) / 1000000000) in *.
  destruct (Z.max_spec 0 (t * 1000000000 - e)) as [[? ->]|[? ->]];
    destruct (Z.max_spec 0 (t - c)) as [[? ->]|[? ->]]; try lia.
  - symmetry. apply Z.div_unique with (t * 1000000000 - e - (t - c) * 1000000000);
      lia.
  - apply Z.div_small. lia.
  - by rewrite Z.div_0_l.
Qed.

Lemma initial_ttl_u32 h negative r :
  wt_record h r → u32 (initial_ttl h negative r).
Proof.
  intros [Ht Hs]. unfold initial_ttl.
  destruct negative; [|done].
  destruct (deref h (Body r)) as [[]|]; try done.
  specialize (Hs _ eq_refl). unfold u32 in *. lia.
Qed.

(** One iteration of adjustTTL on a well-typed record, when the clock has
    not gone backwards. *)
Lemma adjustTTL1_aged h elapsed negative r :
  wt_record h r → 0 ≤ elapsed ≤ max_i64 →
  adjustTTL1 h elapsed negative r = aged h elapsed negative r.
Proof.
  intros Hwt He.
  pose proof (initial_ttl_u32 h negative r Hwt) as Hu.
  unfold adjustTTL1, aged. f_equal.
  assert ((if negative
           then match deref h (Body r) with
                | Some (SOAResource soa) =>
                    if bool_decide (MinTTL soa < TTL (Header r))
                    then MinTTL soa else TTL (Header r)
                | _ => TTL (Header r)
                end
           else TTL (Header r)) = initial_ttl h negative r) as ->.
  { unfold initial_ttl. destruct negative; [|done].
    destruct (deref h (Body r)) as [[]|]; try done.
    case_bool_decide; lia. }
  set (t := initial_ttl h negative r) in *.
  unfold u32 in Hu. unfold max_i64 in He.
  assert (wrap_i64 (t * Second) = t * Second) as ->.
  { apply wrap_i64_id. unfold min_i64, max_i64, Second. lia. }
  assert (wrap_i64 (t * Second - elapsed) = t * Second - elapsed) as ->.
  { apply wrap_i64_id. unfold min_i64, max_i64, Second. lia. }
  assert ((if bool_decide (t * Second - elapsed < 0) then 0
           else t * Second - elapsed) = Z.max 0 (t * Second - elapsed)) as ->.
  { case_bool_decide; lia. }
  rewrite Z.quot_div_nonneg by (unfold Second; lia).
  rewrite remaining_seconds by lia.
  apply wrap_u32_id. unfold u32.
  assert (0 ≤ seconds_started elapsed).
  { unfold seconds_started, Second. apply Z.div_pos; lia. }
  lia.
Qed.

Lemma adjustTTL_list_aged h rs elapsed negative :
  Forall (wt_record h) rs → 0 ≤ elapsed ≤ max_i64 →
  adjustTTL_list h rs elapsed negative = aged h elapsed negative <$> rs.
Proof.
  intros Hwt He. unfold adjustTTL_list. apply Forall_fmap_ext.
  eapply Forall_impl; [exact Hwt|]. intros r Hr. simpl.
  by apply adjustTTL1_aged.
Qed.

Lemma adjustTTL1_bodies h h' elapsed negative r :
  bodies h' = bodies h →
  adjustTTL1 h' elapsed negative r = adjustTTL1 h elapsed negative r.
Proof. intros Hb. unfold adjustTTL1, deref. by rewrite Hb. Qed.

Lemma adjustTTL_list_bodies h h' rs elapsed negative :
  bodies h' = bodies h →
  adjustTTL_list h' rs elapsed negative = adjustTTL_list h rs elapsed negative.
Proof.
  intros Hb. unfold adjustTTL_list. apply list_fmap_ext. intros _ r _.
  by apply adjustTTL1_bodies.
Qed.

End ttl_lemmas.

Section hit_lemmas.
Implicit Types (h : Mem) (s t : slice) (rs : list Resource).

Lemma extends_except_load' X h h' s :
  extends_except X h h' → valid h s → Forall (apart s) X →
  load h' s = load h s.
Proof.
  destruct s as [a|]; [|done]. intros Hx Hv Hap.
  apply (extends_except_load X); [done..|].
  intros Hin. rewrite Forall_forall in Hap. specialize (Hap _ Hin).
  by simpl in Hap.
Qed.

Lemma extends_except_store_fresh X h0 h s rs :
  extends_except X h0 h → fresh_in h0 s →
  extends_except X h0 (store h s rs).
Proof.
  intros [Hb Hx] Hf. split; [by rewrite bodies_store|].
  intros a Ha. destruct (Hx a Ha) as [Hs E].
  specialize (Hf (Some a) Ha).
  destruct s as [b|]; simpl in *; [|done].
  rewrite lookup_insert_ne by done. done.
Qed.

Lemma extends_except_bodies X h h' : extends_except X h h' → bodies h' = bodies h.
Proof. by intros [? _]. Qed.

Lemma reorder_list_nil f rnd : reorder_list f [] rnd = ([], rnd).
Proof. done. Qed.

Lemma reorderMsg_spec h msg f rnd :
  valid h (Answers msg) →
  let r := reorderMsg h msg f rnd in
  let o := reorder_list f (load h (Answers msg)) rnd in
  load r.1 (Answers msg) = o.1 ∧ r.2 = o.2 ∧
  r.1 = store h (Answers msg) o.1.
Proof.
  intros Hv. unfold reorderMsg.
  destruct (reorder_list f (load h (Answers msg)) rnd) as [rs' rnd'] eqn:E.
  simpl. repeat split. apply load_store_eq.
  destruct (Answers msg); [by right|]. left. simpl in E.
  rewrite reorder_list_nil in E. congruence.
Qed.

Lemma adjustTTL_spec h s elapsed negative :
  load (adjustTTL h s elapsed negative) s =
  adjustTTL_list h (load h s) elapsed negative.
Proof.
  unfold adjustTTL. apply load_store_eq.
  destruct s; [by right|]. by left.
Qed.

Lemma load_adjustTTL_ne h s t elapsed negative :
  apart s t → load (adjustTTL h s elapsed negative) t = load h t.
Proof. apply load_store_ne. Qed.

Lemma valid_extends X h h' s : extends_except X h h' → valid h s → valid h' s.
Proof. apply extends_except_valid. Qed.


(** The message of a hit: fresh copies of the three sections of the
    entry, the answers in the order of the mode, every record aged. *)
Lemma hit_mem_spec mode h e q elapsed rnd :
  msg_ok h (msg e) →
  let r := hit_mem mode h e q elapsed rnd in
  let h' := r.1.1 in
  let m' := r.2 in
  MHeader m' = MHeader (msg e) ∧ Questions m' = [q] ∧
  load h' (Answers m') =
    adjustTTL_list h (order_by mode rnd (load h (Answers (msg e))))
                   elapsed false ∧
  load h' (Authorities m') =
    adjustTTL_list h (load h (Authorities (msg e))) elapsed (negative e) ∧
  load h' (Additionals m') =
    adjustTTL_list h (load h (Additionals (msg e))) elapsed false ∧
  extends_except [Answers (msg e)] h h' ∧
  load h' (Answers (msg e)) =
    (if bool_decide (mode = RotationReordering)
     then (reorder_list rotateRecords (load h (Answers (msg e))) rnd).1
     else load h (Answers (msg e))) ∧
  msg_ok h' m' ∧
  fresh_in h (Answers m') ∧ fresh_in h (Authorities m') ∧
  fresh_in h (Additionals m') ∧
  r.1.2 = (if bool_decide (mode = RandomReordering)
           then (reorder_list shuffleRecords (load h (Answers (msg e))) rnd).2
           else rnd).
Proof.
  intros (VA & VU & VD & AU & AD & UD).
  unfold hit_mem.
  set (A := Answers (msg e)) in *. set (U := Authorities (msg e)) in *.
  set (D := Additionals (msg e)) in *.
  set (rsA := if bool_decide (mode = RotationReordering)
              then (reorder_list rotateRecords (load h A) rnd).1
              else load h A).
  (* rotation in place *)
  assert (∃ h1 rnd1,
    (if bool_decide (mode = RotationReordering)
     then reorderMsg h (msg e) rotateRecords rnd else (h, rnd)) = (h1, rnd1) ∧
    load h1 A = rsA ∧ extends_except [A] h h1 ∧ rnd1 = rnd)
    as (h1 & rnd1 & -> & LA1 & X1 & R1).
  { unfold rsA. case_bool_decide.
    - destruct (reorderMsg_spec h (msg e) rotateRecords rnd VA) as (L & R & S).
      destruct (reorderMsg h (msg e) rotateRecords rnd) as [h1 rnd1].
      destruct (reorder_list_rotate (load h A) rnd) as (_ & _ & _ & R').
      simpl in *. exists h1, rnd1.
      split_and!; try done;
        [rewrite S; by apply extends_except_store|rewrite R; exact R'].
    - exists h, rnd. split_and!; try done; apply extends_except_refl. }
  assert (load h1 U = load h U) as LU1.
  { apply (extends_except_load' [A]); [done..|]. repeat constructor.
    by apply apart_sym. }
  assert (load h1 D = load h D) as LD1.
  { apply (extends_except_load' [A]); [done..|]. repeat constructor.
    by apply apart_sym. }
  (* the three copies *)
  pose proof (copySlice_spec h1 A) as S2.
  destruct (copySlice h1 A) as [h2 a]. simpl in S2.
  destruct S2 as (La2 & Va2 & Fa & X2).
  pose proof (copySlice_spec h2 U) as S3.
  destruct (copySlice h2 U) as [h3 u]. simpl in S3.
  destruct S3 as (Lu3 & Vu3 & Fu & X3).
  pose proof (copySlice_spec h3 D) as S4.
  destruct (copySlice h3 D) as [h4 d]. simpl in S4.
  destruct S4 as (Ld4 & Vd4 & Fd & X4).
  assert (extends_except [] h1 h3) as X13 by eauto using extends_except_trans.
  assert (extends_except [] h1 h4) as X14 by eauto using extends_except_trans.
  assert (extends_except [] h2 h4) as X24 by eauto using extends_except_trans.
  assert (valid h1 A ∧ valid h1 U ∧ valid h1 D) as (VA1 & VU1 & VD1)
    by (split_and!; by apply (valid_extends [A] h h1)).
  assert (apart u a) as Hua by (by apply Fu).
  assert (apart d a) as Hda by (by apply Fd, (valid_extends [] h2 h3)).
  assert (apart d u) as Hdu by (by apply Fd).
  assert (load h4 a = rsA) as La4.
  { rewrite (extends_except_load' [] h2 h4) by (done || constructor).
    congruence. }
  assert (load h4 u = load h U) as Lu4.
  { rewrite (extends_except_load' [] h3 h4) by (done || constructor).
    rewrite Lu3.
    rewrite (extends_except_load' [] h1 h2) by (done || constructor).
    done. }
  assert (load h4 d = load h D) as Ld4'.
  { rewrite Ld4.
    rewrite (extends_except_load' [] h1 h3) by (done || constructor).
    done. }
  assert (fresh_in h a ∧ fresh_in h u ∧ fresh_in h d) as (Fa0 & Fu0 & Fd0).
  { split_and!; intros t Ht.
    - by apply Fa, (valid_extends [A] h h1).
    - by apply Fu, (valid_extends [] h1 h2), (valid_extends [A] h h1).
    - by apply Fd, (valid_extends [] h1 h3), (valid_extends [A] h h1). }
  assert (extends_except [A] h h4) as X04.
  { eapply extends_except_trans; [exact X1|].
    eapply extends_except_weaken; [|exact X14]. by intros ? ?%elem_of_nil. }
  assert (valid h4 a ∧ valid h4 u ∧ valid h4 d) as (Va4 & Vu4 & Vd4').
  { split_and!; [by apply (valid_extends [] h2 h4)
                |by apply (valid_extends [] h3 h4)|done]. }
  (* shuffle of the copy *)
  set (m' := mkMessage (MHeader (msg e)) [q] a u d).
  assert (∃ h5 rnd5,
    (if bool_decide (mode = RandomReordering)
     then reorderMsg h4 m' shuffleRecords rnd1 else (h4, rnd1)) = (h5, rnd5) ∧
    load h5 a = order_by mode rnd (load h A) ∧
    load h5 u = load h U ∧ load h5 d = load h D ∧
    extends_except [A] h h5 ∧ valid h5 a ∧ valid h5 u ∧ valid h5 d ∧
    load h5 A = rsA ∧
    rnd5 = (if bool_decide (mode = RandomReordering)
            then (reorder_list shuffleRecords (load h A) rnd).2 else rnd))
    as (h5 & rnd5 & -> & La5 & Lu5 & Ld5 & X05 & Va5 & Vu5 & Vd5 & LA5 & R5).
  { unfold order_by. fold rsA.
    assert (load h4 A = rsA) as LA4.
    { rewrite (extends_except_load' [] h1 h4) by (done || constructor).
      done. }
    case_bool_decide as Hrnd.
    - destruct (reorderMsg_spec h4 m' shuffleRecords rnd1 Va4) as (L & R & S).
      destruct (reorderMsg h4 m' shuffleRecords rnd1) as [h5 rnd5].
      simpl in L, R, S. exists h5, rnd5.
      assert (mode ≠ RotationReordering) as Hrot by (rewrite Hrnd; done).
      rewrite (bool_decide_eq_false_2 _ Hrot). unfold rsA in *.
      rewrite (bool_decide_eq_false_2 _ Hrot) in *.
      rewrite R1 in *. rewrite La4 in L, R, S.
      split_and!; try done; subst h5.
      + by rewrite load_store_ne by (by apply apart_sym).
      + by rewrite load_store_ne by (by apply apart_sym).
      + by apply extends_except_store_fresh.
      + by apply valid_store.
      + by apply valid_store.
      + by apply valid_store.
      + rewrite load_store_ne; [done|]. apply Fa. done.
    - exists h4, rnd1. split_and!; try done;
        rewrite La4; unfold rsA; by case_bool_decide. }
  subst rnd5.
  (* ageing in place *)
  cbn [Answers Authorities Additionals].
  set (h6 := adjustTTL h5 a elapsed false).
  set (h7 := adjustTTL h6 u elapsed (negative e)).
  set (h8 := adjustTTL h7 d elapsed false).
  assert (bodies h5 = bodies h) as B5 by (by eapply extends_except_bodies).
  assert (bodies h6 = bodies h) as B6 by (unfold h6, adjustTTL; by rewrite bodies_store).
  assert (bodies h7 = bodies h) as B7 by (unfold h7, adjustTTL; by rewrite bodies_store).
  simpl. split_and!.
  - done.
  - done.
  - unfold h8, h7. rewrite !load_adjustTTL_ne by done.
    unfold h6. rewrite adjustTTL_spec, La5. by apply adjustTTL_list_bodies.
  - unfold h8. rewrite load_adjustTTL_ne by done.
    unfold h7. rewrite adjustTTL_spec.
    unfold h6. rewrite load_adjustTTL_ne by (by apply apart_sym).
    rewrite Lu5. by apply adjustTTL_list_bodies.
  - unfold h8. rewrite adjustTTL_spec.
    unfold h7, h6. rewrite !load_adjustTTL_ne by (by apply apart_sym).
    rewrite Ld5. by apply adjustTTL_list_bodies.
  - unfold h8, h7, h6, adjustTTL.
    by repeat apply extends_except_store_fresh.
  - unfold h8, h7, h6. rewrite !load_adjustTTL_ne; [done|..].
    + by apply Fa.
    + by apply Fu0.
    + by apply Fd0.
  - unfold msg_ok. cbn [Answers Authorities Additionals].
    split_and!; try (by apply apart_sym);
      unfold h8, h7, h6, adjustTTL; by repeat apply valid_store.
  - done.
  - done.
  - done.
  - done.
Qed.

End hit_lemmas.

Section op_lemmas.
Implicit Types (c : cachingResolver) (h : Mem) (ps : list addr).

Lemma filter_all {A} (P : A → Prop) `{!∀ x, Decision (P x)} (xs : list A) :
  Forall P xs → filter P xs = xs.
Proof.
  induction 1 as [|x xs Hx _ IH]; [done|].
  rewrite filter_cons, decide_True by done. by f_equal.
Qed.

Lemma without_middle xs p ys :
  NoDup (xs ++ p :: ys) → without p (xs ++ p :: ys) = xs ++ ys.
Proof.
  intros Hnd. unfold without.
  apply NoDup_app in Hnd as (_ & Hxy & [Hpy _]%NoDup_cons).
  rewrite filter_app, filter_cons, decide_False by (intros H; by apply H).
  f_equal; apply filter_all, Forall_forall.
  - intros q Hq ->. apply (Hxy p Hq). by left.
  - intros q Hq ->. done.
Qed.

Lemma lookup_miss_absent c h now q rd :
  m c !! mkKey q rd = None →
  lookup c h now q rd = (c, h, zeroMessage, false).
Proof. intros H. unfold lookup. by rewrite H. Qed.

Lemma lookup_expired_eq c h now q rd p e :
  m c !! mkKey q rd = Some p → ents c !! p = Some e →
  After now (expires e) = true →
  lookup c h now q rd =
    (mkResolver (config c) (delete (mkKey q rd) (m c))
       (Remove (ents c) (l c) p).2 (Remove (ents c) (l c) p).1
       (rand c) (stats c), h, zeroMessage, false).
Proof.
  intros Hm He Hx. unfold lookup. rewrite Hm, He, Hx.
  by destruct (Remove (ents c) (l c) p).
Qed.

Lemma lookup_hit_eq c h now q rd p e :
  m c !! mkKey q rd = Some p → ents c !! p = Some e →
  After now (expires e) = false →
  lookup c h now q rd =
    let r := Remove (ents c) (l c) p in
    let pf := PushFront r.1 r.2 p in
    let hm := hit_mem (Reordering (config c)) h e q (Sub now (created e))
                      (rand c) in
    (mkResolver (config c) (m c) pf.2 pf.1 hm.1.2 (stats c),
     hm.1.1, hm.2, true).
Proof.
  intros Hm He Hx. unfold lookup, hit_mem. rewrite Hm, He, Hx.
  destruct (Remove (ents c) (l c) p) as [es1 l1]. simpl.
  destruct (PushFront es1 l1 p) as [es2 l2]. simpl.
  destruct (if bool_decide (Reordering (config c) = RotationReordering)
            then _ else _) as [h1 rnd1].
  destruct (copySlice h1 _) as [h2 a].
  destruct (copySlice h2 _) as [h3 u].
  destruct (copySlice h3 _) as [h4 d].
  destruct (if bool_decide (Reordering (config c) = RandomReordering)
            then _ else _) as [h5 rnd5].
  done.
Qed.

(** A lookup keeps the invariant: a miss leaves the cache as it is, an
    expired entry leaves the map and the list, a hit moves its entry to
    the front of the list. *)
Lemma lookup_wf c h now q rd ps :
  wf c ps →
  let r := lookup c h now q rd in
  let c' := r.1.1.1 in
  config c' = config c ∧ stats c' = stats c ∧
  links_only (ents c) (ents c') ∧
  match m c !! mkKey q rd with
  | None => c' = c ∧ r.2 = false
  | Some p =>
      ∃ e, ents c !! p = Some e ∧ key e = mkKey q rd ∧
      if After now (expires e)
      then r.2 = false ∧ wf c' (without p ps) ∧
           m c' = delete (mkKey q rd) (m c)
      else r.2 = true ∧ wf c' (p :: without p ps) ∧ m c' = m c
  end.
Proof.
  intros Hwf. destruct (m c !! mkKey q rd) as [p|] eqn:Hm.
  2:{ rewrite lookup_miss_absent by done. simpl.
      split_and!; try done. apply links_only_refl. }
  destruct Hwf as (Hlist & Hmap & Hl).
  destruct (Hmap _ _ Hm) as (Hp & e & He & Hk).
  apply list_elem_of_split in Hp as (xs & ys & ->).
  assert (NoDup (xs ++ p :: ys)) as Hnd by apply Hlist.
  rewrite (without_middle _ _ _ Hnd).
  destruct (After now (expires e)) eqn:Hx.
  - rewrite (lookup_expired_eq c h now q rd p e) by done. simpl.
    split_and!; try done; [apply links_only_Remove|].
    exists e. rewrite Hx. split_and!; try done.
    rewrite <- Hk. apply wf_cache_remove; [done|done].
  - rewrite (lookup_hit_eq c h now q rd p e) by done. simpl.
    split_and!; try done.
    { eapply links_only_trans;
        [apply links_only_Remove | apply links_only_PushFront]. }
    exists e. rewrite Hx. split_and!; try done.
    by apply (wf_cache_touch (m c) (l c) (ents c) xs p ys).
Qed.


Lemma put_mem_spec h msg :
  msg_valid h msg →
  let r := put_mem h msg in
  MHeader r.2 = MHeader msg ∧ sections r.1 r.2 = sections h msg ∧
  msg_ok r.1 r.2 ∧
  fresh_in h (Answers r.2) ∧ fresh_in h (Authorities r.2) ∧
  fresh_in h (Additionals r.2) ∧
  extends_except [] h r.1.
Proof.
  intros (VA & VU & VD). unfold put_mem.
  pose proof (copySlice_spec h (Answers msg)) as S2.
  destruct (copySlice h (Answers msg)) as [h2 a]. simpl in S2.
  destruct S2 as (La2 & Va2 & Fa & X2).
  pose proof (copySlice_spec h2 (Authorities msg)) as S3.
  destruct (copySlice h2 (Authorities msg)) as [h3 u]. simpl in S3.
  destruct S3 as (Lu3 & Vu3 & Fu & X3).
  pose proof (copySlice_spec h3 (Additionals msg)) as S4.
  destruct (copySlice h3 (Additionals msg)) as [h4 d]. simpl in S4.
  destruct S4 as (Ld4 & Vd4 & Fd & X4).
  assert (extends_except [] h h3) as X03 by eauto using extends_except_trans.
  assert (extends_except [] h2 h4) as X24 by eauto using extends_except_trans.
  assert (extends_except [] h h4) as X04 by eauto using extends_except_trans.
  assert (apart u a) as Hua by (by apply Fu).
  assert (apart d a) as Hda by (by apply Fd, (valid_extends [] h2 h3)).
  assert (apart d u) as Hdu by (by apply Fd).
  simpl. split_and!; try done.
  - unfold sections. simpl. f_equal; [f_equal|].
    + rewrite (extends_except_load' [] h2 h4) by (done || constructor). done.
    + rewrite (extends_except_load' [] h3 h4) by (done || constructor).
      rewrite Lu3.
      by rewrite (extends_except_load' [] h h2) by (done || constructor).
    + rewrite Ld4.
      by rewrite (extends_except_load' [] h h3) by (done || constructor).
  - unfold msg_ok. simpl. split_and!; try (by apply apart_sym); try done.
    + by apply (valid_extends [] h2 h4).
    + by apply (valid_extends [] h3 h4).
  - intros t Ht. by apply Fu, (valid_extends [] h h2).
  - intros t Ht. by apply Fd, (valid_extends [] h h3).
Qed.

Lemma put_eq c h now q rd msg ttl neg :
  put c h now q rd msg ttl neg =
    let pm := put_mem h msg in
    let k := mkKey q rd in
    let e := mkEntry None None k pm.2 neg
               (Add now (wrap_i64 (ttl * Second))) now in
    let p := fresh (dom (ents c)) in
    let m' := <[k := p]> (m c) in
    let pf := PushFront (<[p := e]> (ents c)) (l c) p in
    if over_size c (size m') then
      match Back pf.2 with
      | None => (mkResolver (config c) m' pf.2 pf.1 (rand c) (stats c), pm.1)
      | Some evict =>
          let r := Remove pf.1 pf.2 evict in
          let m'' := match pf.1 !! evict with
                     | Some ev => delete (key ev) m'
                     | None => m'
                     end in
          (mkResolver (config c) m'' r.2 r.1 (rand c) (stats c), pm.1)
      end
    else (mkResolver (config c) m' pf.2 pf.1 (rand c) (stats c), pm.1).
Proof.
  unfold put, put_mem, over_size.
  destruct (copySlice h _) as [h2 a].
  destruct (copySlice h2 _) as [h3 u].
  destruct (copySlice h3 _) as [h4 d]. simpl.
  destruct (PushFront _ (l c) _) as [es1 l1]. simpl.
  destruct (_ && _); [|done].
  destruct (Back l1); [|done].
  by destruct (Remove es1 l1 _).
Qed.

(** A store under a key that the map does not hold keeps the invariant:
    the new entry goes to the front of the list, and when the bound is
    exceeded the entry at the back of the list leaves the map and the
    list. *)
Lemma put_fresh_wf c h now q rd rsp ttl neg ps :
  wf c ps → m c !! mkKey q rd = None →
  let r := put c h now q rd rsp ttl neg in
  let c' := r.1 in
  let p := fresh (dom (ents c)) in
  ents c !! p = None ∧
  config c' = config c ∧ rand c' = rand c ∧ stats c' = stats c ∧
  r.2 = (put_mem h rsp).1 ∧
  m c' !! mkKey q rd = Some p ∧
  (∃ e, ents c' !! p = Some e ∧ key e = mkKey q rd ∧ negative e = neg ∧
        created e = now ∧ expires e = Add now (wrap_i64 (ttl * Second)) ∧
        msg e = (put_mem h rsp).2) ∧
  if over_size c (S (length ps))
  then wf c' (take (length ps) (p :: ps)) ∧
       ∃ ev e, last (p :: ps) = Some ev ∧ ev ≠ p ∧ ents c !! ev = Some e ∧
               m c' = delete (key e) (<[mkKey q rd := p]> (m c))
  else wf c' (p :: ps) ∧ m c' = <[mkKey q rd := p]> (m c).
Proof.
  intros Hwf Hk r c' p.
  assert (ents c !! p = None) as Hp.
  { apply not_elem_of_dom, is_fresh. }
  set (k := mkKey q rd) in *.
  set (e := mkEntry None None k (put_mem h rsp).2 neg
              (Add now (wrap_i64 (ttl * Second))) now).
  pose proof (wf_cache_insert (m c) (l c) (ents c) ps k p e Hwf Hk Hp eq_refl)
    as Hwf1. cbv zeta in Hwf1.
  pose proof (wf_cache_size _ _ _ _ Hwf1) as Hsz. simpl in Hsz.
  pose proof (links_only_PushFront (<[p := e]> (ents c)) (l c) p) as Hlo.
  assert ((<[p := e]> (ents c)) !! p = Some e) as He by apply lookup_insert_eq.
  destruct (links_only_lookup _ _ _ _ Hlo He) as (e1 & He1 & Hsd).
  subst r c'. rewrite put_eq. cbv zeta. fold k p e. rewrite Hsz.
  destruct (over_size c (S (length ps))) eqn:Hov.
  2:{ simpl. split_and!; try done.
      - apply lookup_insert_eq.
      - exists e1. destruct Hsd as (<- & <- & <- & <- & <-). done. }
  assert (ps ≠ []) as Hne.
  { intros ->. unfold over_size in Hov. simpl in Hov.
    apply andb_true_iff in Hov as [H1%bool_decide_eq_true H2%bool_decide_eq_true].
    lia. }
  destruct (exists_last Hne) as (F & ev & ->).
  assert (last (p :: F ++ [ev]) = Some ev) as Hlast.
  { change (p :: F ++ [ev]) with ((p :: F) ++ [ev]). apply last_snoc. }
  destruct Hwf1 as (Hlist1 & Hm1 & Hl1).
  assert (Back (PushFront (<[p := e]> (ents c)) (l c) p).2 = Some ev) as ->.
  { destruct Hlist1 as (_ & _ & Ht & _). unfold Back. by rewrite Ht. }
  assert (ev ≠ p) as Hevp.
  { destruct Hlist1 as (Hnd & _). apply NoDup_cons in Hnd as [Hn _].
    intros ->. apply Hn. apply elem_of_app. right. by left. }
  destruct (Hl1 ev) as (eev & Heev & Hkev).
  { right. apply elem_of_app. right. by left. }
  rewrite Heev.
  assert (key eev ≠ k) as Hkne.
  { intros E. rewrite E, lookup_insert_eq in Hkev. congruence. }
  pose proof (wf_cache_remove _ _ _ (p :: F) ev [] eev
                (conj Hlist1 (conj Hm1 Hl1)) Heev) as Hwf2.
  rewrite app_nil_r in Hwf2.
  pose proof (links_only_Remove (PushFront (<[p := e]> (ents c)) (l c) p).1
                (PushFront (<[p := e]> (ents c)) (l c) p).2 ev) as Hlo2.
  destruct (links_only_lookup _ _ _ _ Hlo2 He1) as (e2 & He2 & Hsd2).
  destruct (links_only_lookup_inv _ _ _ _ Hlo Heev) as (e0 & He0 & Hsd0).
  rewrite lookup_insert_ne in He0 by done.
  simpl. split_and!; try done.
  - rewrite lookup_delete_ne by done. apply lookup_insert_eq.
  - exists e2. destruct Hsd2 as (<- & <- & <- & <- & <-).
    destruct Hsd as (<- & <- & <- & <- & <-). done.
  - rewrite length_app. simpl.
    replace (length F + 1)%nat with (S (length F)) by lia. simpl.
    rewrite take_app_length. exact Hwf2.
  - exists ev, e0. split_and!; try done.
    destruct Hsd0 as (-> & _). done.
Qed.

End op_lemmas.

Section store_rules.
Implicit Types (c : cachingResolver) (h : Mem) (rs : list Resource).

Lemma min_ttl_init a b rs :
  min_ttl (Z.min a b) rs = Z.min a (min_ttl b rs).
Proof.
  unfold min_ttl. induction rs as [|r rs IH]; [done|].
  rewrite fmap_cons. cbn [foldr]. rewrite IH. lia.
Qed.

Lemma minTTL_list_min_ttl rs : ∀ bound,
  minTTL_list rs bound = min_ttl bound rs.
Proof.
  unfold minTTL_list.
  induction rs as [|r rs IH]; intros bound; simpl; [done|].
  rewrite IH.
  replace (if bool_decide (TTL (Header r) < bound) then TTL (Header r)
           else bound) with (Z.min (TTL (Header r)) bound)
    by (case_bool_decide; lia).
  rewrite min_ttl_init. unfold min_ttl at 2. by rewrite fmap_cons.
Qed.

Lemma min_ttl_app bound rs1 rs2 :
  min_ttl bound (rs1 ++ rs2) = min_ttl (min_ttl bound rs2) rs1.
Proof. unfold min_ttl. by rewrite fmap_app, foldr_app. Qed.

Lemma min_ttl_cons bound r rs :
  min_ttl bound (r :: rs) = Z.min (TTL (Header r)) (min_ttl bound rs).
Proof. unfold min_ttl. by rewrite fmap_cons. Qed.

Lemma min_ttl_swap bound rs1 rs2 :
  min_ttl (min_ttl bound rs1) rs2 = min_ttl (min_ttl bound rs2) rs1.
Proof.
  induction rs1 as [|r rs1 IH]; [done|].
  by rewrite !min_ttl_cons, min_ttl_init, IH.
Qed.

(** The three calls of minTTL compute the minimum over the sections. *)
Lemma minTTL_sections h rsp :
  minTTL h (Additionals rsp)
    (minTTL h (Authorities rsp) (minTTL h (Answers rsp) MaxUint32)) =
  min_ttl MaxUint32 (all_records h rsp).
Proof.
  unfold minTTL, all_records. rewrite !minTTL_list_min_ttl, !min_ttl_app.
  set (A := load h (Answers rsp)). set (U := load h (Authorities rsp)).
  set (D := load h (Additionals rsp)).
  by rewrite (min_ttl_swap (min_ttl MaxUint32 A) U D),
    (min_ttl_swap MaxUint32 A D), (min_ttl_swap (min_ttl MaxUint32 D) A U).
Qed.

Lemma no_records h rsp :
  bool_decide (length (load h (Answers rsp)) = 0%nat) &&
  bool_decide (length (load h (Authorities rsp)) = 0%nat) &&
  bool_decide (length (load h (Additionals rsp)) = 0%nat) =
  bool_decide (all_records h rsp = []).
Proof.
  unfold all_records.
  destruct (load h (Answers rsp)), (load h (Authorities rsp)),
    (load h (Additionals rsp)); simpl; try done; symmetry;
    by apply bool_decide_eq_false_2.
Qed.

End store_rules.

Lemma putResponse_spec c h now q rd rsp :
  putResponse c h now q rd rsp = put_positive c h now q rd rsp.
Proof.
  unfold putResponse, put_positive.
  rewrite no_records, minTTL_sections.
  case_bool_decide; [done|]. case_bool_decide; [done|].
  f_equal. case_bool_decide; lia.
Qed.

(** [min_ttl] is the minimum of the bound and of the TTLs. *)
Lemma min_ttl_least bound (rs : list Resource) :
  min_ttl bound rs ≤ bound ∧
  (∀ r, r ∈ rs → min_ttl bound rs ≤ TTL (Header r)) ∧
  (min_ttl bound rs = bound ∨
   ∃ r, r ∈ rs ∧ min_ttl bound rs = TTL (Header r)).
Proof.
  induction rs as [|x rs (IH1 & IH2 & IH3)].
  { split_and!; [done| |by left]. by intros r ?%elem_of_nil. }
  rewrite min_ttl_cons. split_and!.
  - lia.
  - intros r [->|Hr]%elem_of_cons; [lia|]. specialize (IH2 r Hr). lia.
  - destruct (Z.min_spec (TTL (Header x)) (min_ttl bound rs))
      as [[? ->]|[? ->]].
    + right. exists x. split; [by left|done].
    + destruct IH3 as [?|(r & Hr & ?)]; [by left|].
      right. exists r. split; [by right|done].
Qed.

(** C5.  putResponse does not cache a message without records; otherwise
    the lifetime is the minimum of MaxUint32 and the TTLs of the records
    of the three sections; a lifetime of 0 is not cached; otherwise the
    lifetime is clamped to MaxTTL and the message is stored by put with
    negative = false. *)
Theorem putResponse_put_positive c h now q rd rsp :
  let ttl := min_ttl MaxUint32 (all_records h rsp) in
  putResponse c h now q rd rsp = put_positive c h now q rd rsp ∧
  ttl ≤ MaxUint32 ∧
  (∀ r, r ∈ all_records h rsp → ttl ≤ TTL (Header r)) ∧
  (ttl = MaxUint32 ∨ ∃ r, r ∈ all_records h rsp ∧ ttl = TTL (Header r)).
Proof.
  cbv zeta. split; [apply putResponse_spec|apply min_ttl_least].
Qed.

Section negative_rules.
Implicit Types (c : cachingResolver) (h : Mem) (rs : list Resource).

(** The loop of putNegativeResponse stops at the first SOA record. *)
Lemma soa_ttl_find h rs :
  soa_ttl h rs =
    match find (is_soa h) rs with
    | Some rr => Z.min (TTL (Header rr)) (soa_min_ttl h rr)
    | None => 0
    end.
Proof.
  induction rs as [|rr rs IH]; simpl; [done|].
  destruct (is_soa h rr) eqn:S; unfold is_soa in S.
  - unfold soa_min_ttl.
    destruct (deref h (Body rr)) as [[]|]; try discriminate.
    case_bool_decide; lia.
  - destruct (deref h (Body rr)) as [[]|]; try discriminate; done.
Qed.

Lemma find_is_soa_None h rs :
  find (is_soa h) rs = None ↔
  ∀ rr soa, rr ∈ rs → deref h (Body rr) ≠ Some (SOAResource soa).
Proof.
  induction rs as [|r rs IH]; simpl.
  { split; [|done]. by intros _ rr soa ?%elem_of_nil. }
  destruct (is_soa h r) eqn:S; unfold is_soa in S.
  - split; [done|]. intros H. exfalso.
    destruct (deref h (Body r)) as [[| | |soa| | |]|] eqn:E;
      try discriminate.
    by apply (H r soa); [left|].
  - rewrite IH. split.
    + intros H rr soa [->|Hin]%elem_of_cons; [|by apply H].
      intros E. by rewrite E in S.
    + intros H rr soa Hin. apply H. by right.
Qed.

End negative_rules.

Lemma find_is_soa_Some h (rs : list Resource) rr :
  find (is_soa h) rs = Some rr →
  rr ∈ rs ∧ ∃ soa, deref h (Body rr) = Some (SOAResource soa) ∧
                   soa_min_ttl h rr = MinTTL soa.
Proof.
  induction rs as [|r rs IH]; simpl; [done|].
  destruct (is_soa h r) eqn:S.
  - intros [= ->]. split; [by left|]. unfold is_soa in S. unfold soa_min_ttl.
    destruct (deref h (Body rr)) as [[| | |soa| | |]|]; try discriminate.
    by exists soa.
  - intros [Hin Hs]%IH. split; [by right|done].
Qed.

(** C6.  putNegativeResponse does not cache a message whose authority
    section has no SOA record; otherwise the lifetime is the minimum of
    the TTL of the (first) SOA record and of the MINIMUM field of its
    body; a lifetime of 0 is not cached; otherwise the lifetime is clamped
    to MaxTTL and the message is stored by put with negative = true. *)
Theorem putNegativeResponse_put_negative c h now q rd rsp :
  let auth := load h (Authorities rsp) in
  putNegativeResponse c h now q rd rsp = put_negative c h now q rd rsp ∧
  (find (is_soa h) auth = None ↔
   ∀ rr soa, rr ∈ auth → deref h (Body rr) ≠ Some (SOAResource soa)) ∧
  (∀ rr, find (is_soa h) auth = Some rr →
     rr ∈ auth ∧ ∃ soa, deref h (Body rr) = Some (SOAResource soa) ∧
                        soa_min_ttl h rr = MinTTL soa).
Proof.
  cbv zeta. split_and!; [|apply find_is_soa_None|apply find_is_soa_Some].
  unfold putNegativeResponse, put_negative. rewrite soa_ttl_find.
  destruct (find (is_soa h) (load h (Authorities rsp))) as [rr|]; [|done].
  case_bool_decide; [done|]. f_equal. case_bool_decide; lia.
Qed.

(** C7.  The classifier answers true exactly for NameError and for
    NoError without an answer record of the type of the question; every
    other response, ServerFailure and Refused among them, is not a
    negative one. *)
Theorem negative_classifier h qn rsp :
  (isCacheableNegativeResponse h qn rsp = true ↔
     RCode_ (MHeader rsp) = RCodeNameError ∨
     (RCode_ (MHeader rsp) = RCodeSuccess ∧
      ∀ rr, rr ∈ load h (Answers rsp) → RType (Header rr) ≠ QType qn)) ∧
  (RCode_ (MHeader rsp) = RCodeServerFailure ∨
   RCode_ (MHeader rsp) = RCodeRefused →
   isCacheableNegativeResponse h qn rsp = false).
Proof.
  split.
  2:{ unfold isCacheableNegativeResponse. by intros [->| ->]. }
  assert (∀ rs, nodata_loop (QType qn) rs = true ↔
                ∀ rr, rr ∈ rs → RType (Header rr) ≠ QType qn) as Hloop.
  { induction rs as [|r rs IH]; simpl.
    - split; [|done]. by intros _ rr ?%elem_of_nil.
    - case_bool_decide as E.
      + split; [done|]. intros H. exfalso. by apply (H r); [left|].
      + rewrite IH. split.
        * intros H rr [->|Hin]%elem_of_cons; [done|by apply H].
        * intros H rr Hin. apply H. by right. }
  unfold isCacheableNegativeResponse.
  case_bool_decide as E0.
  - rewrite Hloop. split; [by right|].
    intros [E|[_ H]]; [|done]. rewrite E0 in E. discriminate.
  - case_bool_decide as E3.
    + split; [by left|done].
    + split; [done|]. by intros [?|[? _]].
Qed.

Section rotation.
Implicit Types (h : Mem) (rsp : Message) (rnd : Rand).

Lemma rotate_answers_load h rsp rnd :
  load (rotate_answers rsp rnd h) (Answers rsp) =
  (reorder_list rotateRecords (load h (Answers rsp)) rnd).1.
Proof.
  unfold rotate_answers, reorderMsg.
  destruct (reorder_list rotateRecords (load h (Answers rsp)) rnd)
    as [rs' rnd'] eqn:E.
  simpl. apply load_store_eq.
  destruct (Answers rsp); [by right|]. left. simpl in E.
  rewrite reorder_list_nil in E. congruence.
Qed.

Lemma rotate_answers_iter rsp rnd T n : ∀ h,
  T ∈ reordered_types →
  of_type T (load (Nat.iter n (rotate_answers rsp rnd) h) (Answers rsp)) =
  Nat.iter n rotl (of_type T (load h (Answers rsp))).
Proof.
  intros h HT. induction n as [|n IH]; simpl; [done|].
  rewrite rotate_answers_load.
  destruct (reorder_list_rotate
              (load (Nat.iter n (rotate_answers rsp rnd) h) (Answers rsp)) rnd)
    as (_ & Hrot & _).
  by rewrite Hrot, IH.
Qed.

End rotation.

(** C8.  Rotation reordering of the answers of a message rotates the
    records of each of the type-classes A, AAAA, MX and NS one place to
    the left among the positions of the class, every position keeps the
    type of its record, records of other types stay where they are, and
    as many rotations as a class has records restore the order of the
    class. *)
Theorem rotation_reordering h rsp rnd :
  let rs := load h (Answers rsp) in
  let rs' := load (rotate_answers rsp rnd h) (Answers rsp) in
  (∀ T, T ∈ reordered_types → of_type T rs' = rotl (of_type T rs)) ∧
  types rs' = types rs ∧
  (∀ i r, rs !! i = Some r → RType (Header r) ∉ reordered_types →
          rs' !! i = Some r) ∧
  (∀ T, T ∈ reordered_types →
     of_type T (load (Nat.iter (length (of_type T rs))
                        (rotate_answers rsp rnd) h) (Answers rsp)) =
     of_type T rs).
Proof.
  intros rs rs'. unfold rs'. rewrite rotate_answers_load. fold rs.
  destruct (reorder_list_rotate rs rnd) as (Hty & Hrot & Hfix & _).
  split_and!; try done.
  intros T HT. rewrite rotate_answers_iter by done. apply rotl_iter_length.
Qed.

Section order_lemmas.
Implicit Types (rr rs : list Resource) (P : list nat).

(** The loop of rotateRecords moves the free place from the first
    position to the last one. *)
Lemma rotate_loop_perm P : ∀ p rr x,
  NoDup (p :: P) → Forall (λ i, i < length rr)%nat (p :: P) →
  <[default p (last P) := x]> (rotate_loop rr (p :: P)) ≡ₚ <[p := x]> rr.
Proof.
  induction P as [|q P IH]; intros p rr x Hnd Hin; [done|].
  rewrite rotate_loop_cons.
  apply NoDup_cons in Hnd as [Hp Hnd].
  apply Forall_cons in Hin as [Hplt Hin].
  assert (default p (last (q :: P)) = default q (last P)) as ->.
  { rewrite last_cons. by destruct (last P). }
  rewrite IH; [|done|by rewrite length_insert].
  assert (p ≠ q) as Hpq by (intros ->; apply Hp; by left).
  assert (q < length rr)%nat as Hqlt by (by apply Forall_cons in Hin as [? _]).
  rewrite <- (list_insert_insert_eq rr p (rr !!! q) x).
  apply Permutation_insert_swap.
  - by apply list_lookup_insert_eq.
  - rewrite list_lookup_insert_ne by done.
    by apply list_lookup_lookup_total_lt.
Qed.

Lemma rotateRecords_perm rr P rnd :
  NoDup P → Forall (λ i, i < length rr)%nat P →
  (rotateRecords rr P rnd).1 ≡ₚ rr.
Proof.
  intros Hnd Hin. unfold rotateRecords. case_bool_decide as Hle; [done|].
  destruct P as [|p P]; [simpl in Hle; lia|]. cbv zeta. cbn [fst].
  assert ((p :: P) !!! (length (p :: P) - 1)%nat = default p (last P)) as ->.
  { replace (length (p :: P) - 1)%nat with (length P) by (simpl; lia).
    rewrite last_lookup.
    destruct P as [|q P]; [done|]. cbn [length pred].
    rewrite (list_lookup_lookup_total_lt (q :: P) (length P)) by (simpl; lia).
    done. }
  change ((p :: P) !!! 0%nat) with p.
  rewrite rotate_loop_perm by done.
  rewrite list_insert_id; [done|].
  apply list_lookup_lookup_total_lt. by apply Forall_cons in Hin as [? _].
Qed.

(** reorderMsg with rotateRecords permutes the answers. *)
Lemma reorder_list_rotate_perm rs rnd :
  (reorder_list rotateRecords rs rnd).1 ≡ₚ rs.
Proof.
  unfold reorder_list. case_bool_decide as Hlen; [done|].
  destruct (scan_answers_spec rs) as (EA & E4 & EM & EN).
  rewrite EA, E4, EM, EN.
  assert (∀ T rr n, rr ≡ₚ rs → (rotateRecords rr (positions T rs) n).1 ≡ₚ rs)
    as Hstage.
  { intros T rr n Hp. rewrite rotateRecords_perm; [done| |].
    - apply NoDup_positions_from.
    - rewrite (Permutation_length Hp). apply positions_in_range. }
  destruct (rotateRecords rs _ rnd) as [r1 n1] eqn:S1.
  destruct (rotateRecords r1 _ n1) as [r2 n2] eqn:S2.
  destruct (rotateRecords r2 _ n2) as [r3 n3] eqn:S3.
  pose proof (Hstage TypeA rs rnd (reflexivity _)) as P1.
  rewrite S1 in P1. simpl in P1.
  pose proof (Hstage TypeAAAA r1 n1 P1) as P2. rewrite S2 in P2. simpl in P2.
  pose proof (Hstage TypeMX r2 n2 P2) as P3. rewrite S3 in P3. simpl in P3.
  by apply Hstage.
Qed.

(** In every mode a hit returns the answers of the entry in some order. *)
Lemma order_by_perm mode rnd rs : order_by mode rnd rs ≡ₚ rs.
Proof.
  unfold order_by. repeat case_bool_decide;
    auto using reorder_list_rotate_perm, reorder_list_shuffle_perm.
Qed.

End order_lemmas.

Section freshness.
Implicit Types (c : cachingResolver) (h : Mem) (ps : list addr).

Lemma sections_eq h h' rsp rsp' :
  sections h' rsp' = sections h rsp →
  load h' (Answers rsp') = load h (Answers rsp) ∧
  load h' (Authorities rsp') = load h (Authorities rsp) ∧
  load h' (Additionals rsp') = load h (Additionals rsp).
Proof. unfold sections. by intros [= -> -> ->]. Qed.

Lemma wt_record_bodies h h' r :
  bodies h' = bodies h → wt_record h r → wt_record h' r.
Proof. unfold wt_record, deref. by intros ->. Qed.

Lemma aged_bodies h h' elapsed neg r :
  bodies h' = bodies h → aged h' elapsed neg r = aged h elapsed neg r.
Proof. unfold aged, initial_ttl, deref. by intros ->. Qed.

(** A hit on an entry of the cache: the message has the header of the
    entry and the question asked, and its sections are those of the
    entry, the answers in the order of the mode, every record aged by
    the time since the entry was created. *)
Lemma lookup_hit c h now q rd p e :
  m c !! mkKey q rd = Some p → ents c !! p = Some e →
  After now (expires e) = false → msg_ok h (msg e) →
  Forall (wt_record h) (all_records h (msg e)) →
  0 ≤ now - created e ≤ max_i64 →
  let r := lookup c h now q rd in
  let h' := r.1.1.2 in
  let m' := r.1.2 in
  r.2 = true ∧
  MHeader m' = MHeader (msg e) ∧ Questions m' = [q] ∧
  load h' (Answers m') =
    aged h (now - created e) false <$>
      hit_order c (load h (Answers (msg e))) ∧
  load h' (Authorities m') =
    aged h (now - created e) (negative e) <$> load h (Authorities (msg e)) ∧
  load h' (Additionals m') =
    aged h (now - created e) false <$> load h (Additionals (msg e)) ∧
  extends_except [Answers (msg e)] h h' ∧
  fresh_in h (Answers m') ∧ fresh_in h (Authorities m') ∧
  fresh_in h (Additionals m').
Proof.
  intros Hm He Hx Hok Hwt Hel r h' m'.
  subst r h' m'. rewrite (lookup_hit_eq c h now q rd p e) by done.
  cbv zeta. cbn [fst snd].
  destruct (hit_mem_spec (Reordering (config c)) h e q (Sub now (created e))
              (rand c) Hok)
    as (H1 & H2 & HA & HU & HD & HX & _ & _ & FA & FU & FD & _).
  assert (Sub now (created e) = now - created e) as Hsub.
  { unfold Sub. unfold max_i64, min_i64 in *. lia. }
  rewrite Hsub in *.
  unfold all_records in Hwt.
  apply Forall_app in Hwt as [WA [WU WD]%Forall_app].
  split_and!; try done.
  - rewrite HA. apply adjustTTL_list_aged; [|done].
    unfold hit_order. by rewrite order_by_perm.
  - rewrite HU. by apply adjustTTL_list_aged.
  - rewrite HD. by apply adjustTTL_list_aged.
Qed.

End freshness.

(** C3 (as amended).  An entry stored at [t0] with lifetime [ttl] under a
    fingerprint the map did not hold, and looked up at [t1] with
    [t0 <= t1 <= t0 + ttl] seconds, is a hit: the sections of the message
    are those stored, the answers in the order of the reordering mode,
    and the TTL of each record is its initial TTL minus the seconds that
    [t1 - t0] has started, clamped below at 0: the remaining nanoseconds
    are truncated to seconds after the subtraction. *)
Theorem hit_freshness c ps h t0 t1 q rd rsp ttl neg :
  wf c ps → m c !! mkKey q rd = None →
  msg_valid h rsp → Forall (wt_record h) (all_records h rsp) →
  u32 ttl → t0 ≤ t1 ≤ t0 + ttl * Second →
  let s := put c h t0 q rd rsp ttl neg in
  let r := lookup s.1 s.2 t1 q rd in
  let h' := r.1.1.2 in
  let m' := r.1.2 in
  r.2 = true ∧
  hit_order c (load h (Answers rsp)) ≡ₚ load h (Answers rsp) ∧
  load h' (Answers m') =
    aged h (t1 - t0) false <$> hit_order c (load h (Answers rsp)) ∧
  load h' (Authorities m') =
    aged h (t1 - t0) neg <$> load h (Authorities rsp) ∧
  load h' (Additionals m') =
    aged h (t1 - t0) false <$> load h (Additionals rsp).
Proof.
  intros Hwf Hk Hv Hwt Httl Ht. cbv zeta.
  destruct (put_fresh_wf c h t0 q rd rsp ttl neg ps Hwf Hk)
    as (_ & Hcfg & Hrnd & _ & Hh1 & Hm1 & (e & He & _ & Hneg & Hcr & Hex & Hmsg)
        & _).
  set (s := put c h t0 q rd rsp ttl neg) in *.
  destruct (put_mem_spec h rsp Hv) as (_ & Hsec & Hok & _ & _ & _ & HX).
  rewrite <- Hmsg, <- Hh1 in Hsec, Hok. rewrite <- Hh1 in HX.
  apply sections_eq in Hsec as (SA & SU & SD).
  pose proof (extends_except_bodies _ _ _ HX) as Hb.
  assert (wrap_i64 (ttl * Second) = ttl * Second) as Hw.
  { apply wrap_i64_id. unfold u32, min_i64, max_i64, Second in *. lia. }
  destruct (lookup_hit s.1 s.2 t1 q rd _ e Hm1 He)
    as (Hr & _ & _ & HA & HU & HD & _).
  - rewrite Hex, Hw. unfold After, Add. apply bool_decide_eq_false_2. lia.
  - done.
  - unfold all_records. rewrite SA, SU, SD.
    eapply Forall_impl; [exact Hwt|]. intros x Hxw.
    by apply (wt_record_bodies h).
  - rewrite Hcr. unfold u32, max_i64, Second in *. lia.
  - rewrite Hcr, Hneg, SA, SU, SD in *.
    assert (hit_order s.1 = hit_order c) as Ho.
    { unfold hit_order. by rewrite Hcfg, Hrnd. }
    rewrite Ho in HA.
    split_and!; [done|apply order_by_perm|..].
    + rewrite HA. apply list_fmap_ext. intros _ x _. by apply aged_bodies.
    + rewrite HU. apply list_fmap_ext. intros _ x _. by apply aged_bodies.
    + rewrite HD. apply list_fmap_ext. intros _ x _. by apply aged_bodies.
Qed.

(** C3, counterexample.  The answer of the test suite stored at time 0
    with TTL 10 and looked up one nanosecond later comes back with TTL 9,
    where flooring the elapsed time before the subtraction gives 10. *)
Lemma hit_freshness_floor_counterexample :
  let s := put (new_resolver 0) foo_bar_heap 0 foo_bar true
               foo_bar_response 10 false in
  let r := lookup s.1 s.2 1 foo_bar true in
  r.2 = true ∧ ttls r.1.1.2 (Answers r.1.2) = [9; 9] ∧
  ttls r.1.1.2 (Answers r.1.2) ≠ [floored_ttl 10 (1 - 0); floored_ttl 10 (1 - 0)].
Proof. vm_compute. split_and!; [reflexivity|reflexivity|discriminate]. Qed.

(** The theorem at the stored answer of the test suite, one nanosecond
    after the store. *)
Lemma hit_freshness_witness :
  u32 10 ∧ 0 ≤ 1 ≤ 0 + 10 * Second ∧
  let s := put (new_resolver 0) foo_bar_heap 0 foo_bar true
               foo_bar_response 10 false in
  let r := lookup s.1 s.2 1 foo_bar true in
  r.2 = true ∧
  load r.1.1.2 (Answers r.1.2) =
    aged foo_bar_heap (1 - 0) false <$>
      hit_order (new_resolver 0) (load foo_bar_heap (Answers foo_bar_response)).
Proof.
  assert (u32 10) as Hu by (unfold u32; lia).
  assert (0 ≤ 1 ≤ 0 + 10 * Second) as Ht by (unfold Second; lia).
  split_and!; [exact Hu|apply Ht|apply Ht|].
  destruct (hit_freshness (new_resolver 0) [] foo_bar_heap 0 1 foo_bar true
              foo_bar_response 10 false) as (H1 & _ & H2 & _); try done.
  - apply wf_cache_empty.
  - split_and!; simpl; try done; eexists; reflexivity.
  - assert (all_records foo_bar_heap foo_bar_response =
            load foo_bar_heap (Some 1%nat)) as -> by (vm_compute; reflexivity).
    assert (load foo_bar_heap (Some 1%nat) =
      [ mkResource (mkResourceHeader "foo.bar." TypeA ClassINET 10) (Some 7%nat);
        mkResource (mkResourceHeader "foo.bar." TypeA ClassINET 10) (Some 8%nat) ])
      as -> by (vm_compute; reflexivity).
    constructor; [|constructor; [|constructor]];
      (split; [unfold u32; simpl; lia
              |intros soa H; vm_compute in H; discriminate]).
Defined.

Section isolation.
Implicit Types (c : cachingResolver) (h : Mem) (e : cacheEntry).

Lemma load_overwrite h rsp X Y Z s :
  apart (Answers rsp) s → apart (Authorities rsp) s →
  apart (Additionals rsp) s →
  load (overwrite h rsp X Y Z) s = load h s.
Proof.
  intros. unfold overwrite. by rewrite !load_store_ne.
Qed.

Lemma bodies_overwrite h rsp X Y Z : bodies (overwrite h rsp X Y Z) = bodies h.
Proof. unfold overwrite. by rewrite !bodies_store. Qed.

Lemma valid_overwrite h rsp X Y Z s :
  valid h s → valid (overwrite h rsp X Y Z) s.
Proof. intros. unfold overwrite. by repeat apply valid_store. Qed.

Lemma msg_ok_valid h rsp s :
  msg_ok h rsp → s ∈ [Answers rsp; Authorities rsp; Additionals rsp] →
  valid h s.
Proof.
  intros (? & ? & ? & _) Hs.
  repeat (apply elem_of_cons in Hs as [->|Hs]); try done.
  by apply elem_of_nil in Hs.
Qed.

(** Overwriting the arrays of a message that shares no array with the
    entry leaves the entry as it reads. *)
Lemma agree_overwrite e h rsp X Y Z :
  msg_ok h (msg e) → disjoint_msgs rsp (msg e) →
  agree e h (overwrite h rsp X Y Z).
Proof.
  intros Hok Hap.
  assert (∀ t, t ∈ [Answers (msg e); Authorities (msg e); Additionals (msg e)] →
    load (overwrite h rsp X Y Z) t = load h t) as Hl.
  { intros t Ht. pose proof (msg_ok_valid _ _ _ Hok Ht) as Hv.
    apply load_overwrite; apply Hap; try done; unfold slices;
      rewrite ?elem_of_cons; auto. }
  unfold agree. split_and!; [apply bodies_overwrite| |done|].
  - unfold sections. rewrite !Hl; [done|rewrite ?elem_of_cons; auto..].
  - destruct Hok as (? & ? & ? & ? & ? & ?).
    unfold msg_ok. split_and!; try done; by apply valid_overwrite.
Qed.

Lemma agree_trans e h1 h2 h3 : agree e h1 h2 → agree e h2 h3 → agree e h1 h3.
Proof.
  intros (B1 & S1 & O1 & _) (B2 & S2 & _ & O3).
  unfold agree. split_and!; try done; congruence.
Qed.


Lemma msg_ok_extends X h h' rsp :
  extends_except X h h' → msg_ok h rsp → msg_ok h' rsp.
Proof.
  intros HX (? & ? & ? & ? & ? & ?). unfold msg_ok.
  split_and!; try done; by apply (valid_extends X h h').
Qed.

Lemma fresh_disjoint h rsp rsp' :
  fresh_in h (Answers rsp) → fresh_in h (Authorities rsp) →
  fresh_in h (Additionals rsp) → msg_valid h rsp' →
  disjoint_msgs rsp rsp'.
Proof.
  intros FA FU FD (VA & VU & VD) s t Hs Ht. unfold slices in *.
  repeat (apply elem_of_cons in Hs as [->|Hs]);
    try (by apply elem_of_nil in Hs);
    repeat (apply elem_of_cons in Ht as [->|Ht]);
    try (by apply elem_of_nil in Ht); auto.
Qed.

Lemma msg_ok_msg_valid h rsp : msg_ok h rsp → msg_valid h rsp.
Proof. by intros (? & ? & ? & _). Qed.

(** A lookup reads the heap through the bodies and the arrays of the
    entry only. *)
Lemma lookup_agree c h h' now q rd p e :
  m c !! mkKey q rd = Some p → ents c !! p = Some e → agree e h h' →
  let r := lookup c h now q rd in
  let r' := lookup c h' now q rd in
  r'.1.1.1 = r.1.1.1 ∧ r'.2 = r.2 ∧
  view r'.1.1.2 r'.1.2 = view r.1.1.2 r.1.2 ∧
  if r.2
  then m r.1.1.1 !! mkKey q rd = Some p ∧
       (∃ e', ents r.1.1.1 !! p = Some e' ∧ msg e' = msg e) ∧
       agree e r.1.1.2 r'.1.1.2 ∧
       disjoint_msgs r.1.2 (msg e) ∧ disjoint_msgs r'.1.2 (msg e)
  else m r.1.1.1 !! mkKey q rd = None ∧
       r.1.2 = zeroMessage ∧ r'.1.2 = zeroMessage ∧
       r.1.1.2 = h ∧ r'.1.1.2 = h'.
Proof.
  intros Hm He (Hb & Hsec & Hok & Hok'). cbv zeta.
  destruct (After now (expires e)) eqn:Hx.
  { rewrite !(lookup_expired_eq c _ now q rd p e) by done. simpl.
    split_and!; try done. apply lookup_delete_eq. }
  rewrite !(lookup_hit_eq c _ now q rd p e) by done.
  cbv zeta. cbn [fst snd].
  set (mode := Reordering (config c)). set (el := Sub now (created e)).
  destruct (hit_mem_spec mode h e q el (rand c) Hok)
    as (H1 & H2 & HA & HU & HD & HX & HAe & Hmok & FA & FU & FD & HR).
  destruct (hit_mem_spec mode h' e q el (rand c) Hok')
    as (H1' & H2' & HA' & HU' & HD' & HX' & HAe' & Hmok' & FA' & FU' & FD' & HR').
  apply sections_eq in Hsec as (SA & SU & SD).
  set (r := hit_mem mode h e q el (rand c)) in *.
  set (r' := hit_mem mode h' e q el (rand c)) in *.
  assert (r'.1.2 = r.1.2) as -> by (by rewrite HR, HR', SA).
  pose proof (links_only_trans _ _ _
    (links_only_Remove (ents c) (l c) p)
    (links_only_PushFront (Remove (ents c) (l c) p).1
       (Remove (ents c) (l c) p).2 p)) as Hlo.
  destruct (links_only_lookup _ _ _ _ Hlo He) as (e' & He' & Hsd).
  split_and!; try done.
  - unfold view, sections.
    rewrite H1, H1', H2, H2', HA, HA', HU, HU', HD, HD', SA, SU, SD.
    by rewrite !(adjustTTL_list_bodies h h').
  - exists e'. split; [done|]. by destruct Hsd as (_ & <- & _).
  - pose proof Hok as Hok0. pose proof Hok' as Hok0'.
    destruct Hok as (VA & VU & VD & AU & AD & UD).
    destruct Hok' as (VA' & VU' & VD' & _).
    unfold agree. split_and!.
    + rewrite (extends_except_bodies _ _ _ HX'), Hb.
      by rewrite (extends_except_bodies _ _ _ HX).
    + unfold sections. rewrite HAe, HAe', SA.
      rewrite !(extends_except_load' [Answers (msg e)] h' r'.1.1)
        by (done || (repeat constructor; by apply apart_sym)).
      rewrite !(extends_except_load' [Answers (msg e)] h r.1.1)
        by (done || (repeat constructor; by apply apart_sym)).
      by rewrite SU, SD.
    + by apply (msg_ok_extends [Answers (msg e)] h).
    + by apply (msg_ok_extends [Answers (msg e)] h').
  - by apply (fresh_disjoint h), msg_ok_msg_valid.
  - by apply (fresh_disjoint h'), msg_ok_msg_valid.
Qed.

End isolation.

(** C4 (as amended).  The arrays of the sections are copied when the
    message is stored and again when a hit is returned: whatever the
    caller writes into the arrays of the message it stored or of a
    message it got from a hit (record headers, body pointers, the order of
    the records), the later lookups of the fingerprint return what they
    return without these writes.  The bodies the records point to are not
    copied. *)
Theorem copy_isolation c ps h t0 q rd rsp ttl neg X Y Z t1 X' Y' Z' t2 :
  wf c ps → m c !! mkKey q rd = None → msg_valid h rsp →
  let s := put c h t0 q rd rsp ttl neg in
  let r1 := lookup s.1 s.2 t1 q rd in
  let r2 := lookup r1.1.1.1 r1.1.1.2 t2 q rd in
  let hw := overwrite s.2 rsp X Y Z in
  let w1 := lookup s.1 hw t1 q rd in
  let hw1 := overwrite w1.1.1.2 w1.1.2 X' Y' Z' in
  let w2 := lookup w1.1.1.1 hw1 t2 q rd in
  w1.2 = r1.2 ∧ view w1.1.1.2 w1.1.2 = view r1.1.1.2 r1.1.2 ∧
  w2.2 = r2.2 ∧ view w2.1.1.2 w2.1.2 = view r2.1.1.2 r2.1.2.
Proof.
  intros Hwf Hk Hv. cbv zeta.
  destruct (put_fresh_wf c h t0 q rd rsp ttl neg ps Hwf Hk)
    as (_ & _ & _ & _ & Hh1 & Hm1 & (e & He & _ & _ & _ & _ & Hmsg) & _).
  set (s := put c h t0 q rd rsp ttl neg) in *.
  destruct (put_mem_spec h rsp Hv) as (_ & _ & Hok & FA & FU & FD & HX).
  rewrite <- Hmsg, <- Hh1 in Hok. rewrite <- Hmsg in FA, FU, FD.
  assert (disjoint_msgs rsp (msg e)) as Hdis.
  { intros a b Ha Hb. apply apart_sym.
    by apply (fresh_disjoint h (msg e) rsp). }
  pose proof (agree_overwrite e s.2 rsp X Y Z Hok Hdis) as Hag.
  set (hw := overwrite s.2 rsp X Y Z) in *.
  destruct (lookup_agree s.1 s.2 hw t1 q rd _ e Hm1 He Hag)
    as (Hc1 & Hok1 & Hv1 & Hpost).
  set (r1 := lookup s.1 s.2 t1 q rd) in *.
  set (w1 := lookup s.1 hw t1 q rd) in *.
  split; [done|]. split; [done|].
  rewrite Hc1. destruct (r1.2) eqn:Hr1.
  - destruct Hpost as (Hm2 & (e' & He' & Hmsg') & Hag1 & _ & Hdis1).
    assert (agree e' r1.1.1.2 (overwrite w1.1.1.2 w1.1.2 X' Y' Z')) as Hag2.
    { unfold agree in *. rewrite Hmsg'. fold (agree e r1.1.1.2
        (overwrite w1.1.1.2 w1.1.2 X' Y' Z')).
      eapply agree_trans; [exact Hag1|].
      apply agree_overwrite; [apply Hag1|done]. }
    destruct (lookup_agree r1.1.1.1 r1.1.1.2
                (overwrite w1.1.1.2 w1.1.2 X' Y' Z') t2 q rd _ e' Hm2 He' Hag2)
      as (_ & Hok2 & Hv2 & _).
    done.
  - destruct Hpost as (Hm2 & _ & _ & _ & _).
    by rewrite !lookup_miss_absent by done.
Qed.

(** C4, counterexample.  The caller of a hit writes the address bytes of
    the A record it got through the body pointer of the record; the next
    hit returns the bytes written, where without the write it returns the
    bytes stored. *)
Lemma copy_isolation_bodies_counterexample :
  let s := put (new_resolver 0) foo_bar_heap 0 foo_bar true
               foo_bar_response 10 false in
  let r1 := lookup s.1 s.2 1 foo_bar true in
  let r2 := lookup r1.1.1.1 r1.1.1.2 2 foo_bar true in
  let hb := match load r1.1.1.2 (Answers r1.1.2) with
            | r :: _ => write_body r1.1.1.2 r (AResource [9; 9; 9; 9])
            | [] => r1.1.1.2
            end in
  let w2 := lookup r1.1.1.1 hb 2 foo_bar true in
  r2.2 = true ∧ w2.2 = true ∧
  answer_bodies r2.1.1.2 r2.1.2 =
    [Some (AResource [127; 1; 1; 0]); Some (AResource [127; 1; 1; 1])] ∧
  answer_bodies w2.1.1.2 w2.1.2 =
    [Some (AResource [9; 9; 9; 9]); Some (AResource [127; 1; 1; 1])] ∧
  answer_bodies w2.1.1.2 w2.1.2 ≠ answer_bodies r2.1.1.2 r2.1.2.
Proof.
  vm_compute. split_and!; [reflexivity..|discriminate].
Qed.

(** The theorem at the stored answer of the test suite, the caller
    overwriting the arrays of every message it holds. *)
Lemma copy_isolation_witness :
  let c := new_resolver 0 in
  let junk := [mkResource (mkResourceHeader "x." TypeTXT ClassINET 0) None] in
  let s := put c foo_bar_heap 0 foo_bar true foo_bar_response 10 false in
  let r1 := lookup s.1 s.2 1 foo_bar true in
  let r2 := lookup r1.1.1.1 r1.1.1.2 2 foo_bar true in
  let hw := overwrite s.2 foo_bar_response junk [] [] in
  let w1 := lookup s.1 hw 1 foo_bar true in
  let hw1 := overwrite w1.1.1.2 w1.1.2 junk junk junk in
  let w2 := lookup w1.1.1.1 hw1 2 foo_bar true in
  w1.2 = r1.2 ∧ view w1.1.1.2 w1.1.2 = view r1.1.1.2 r1.1.2 ∧
  w2.2 = r2.2 ∧ view w2.1.1.2 w2.1.2 = view r2.1.1.2 r2.1.2.
Proof.
  apply (copy_isolation (new_resolver 0) []).
  - apply wf_cache_empty.
  - reflexivity.
  - split_and!; simpl; try done; eexists; reflexivity.
Defined.

Section resolve_lemmas.
Implicit Types (c : cachingResolver) (h : Mem) (ps : list addr).

(** The counters play no part in a lookup. *)
Lemma lookup_with_stats c st h now q rd :
  lookup (with_stats c st) h now q rd =
    let r := lookup c h now q rd in
    (with_stats r.1.1.1 st, r.1.1.2, r.1.2, r.2).
Proof.
  unfold lookup, with_stats. simpl.
  destruct (m c !! mkKey q rd) as [p|]; [|done].
  destruct (ents c !! p) as [e|]; [|done].
  destruct (After now (expires e)).
  { by destruct (Remove (ents c) (l c) p). }
  destruct (Remove (ents c) (l c) p) as [es1 l1].
  destruct (PushFront es1 l1 p) as [es2 l2].
  destruct (if bool_decide (Reordering (config c) = RotationReordering)
            then _ else _) as [h1 rnd1].
  destruct (copySlice h1 _) as [h2 a].
  destruct (copySlice h2 _) as [h3 u].
  destruct (copySlice h3 _) as [h4 d].
  destruct (if bool_decide (Reordering (config c) = RandomReordering)
            then _ else _) as [h5 rnd5].
  done.
Qed.

(** After a miss the map does not hold the fingerprint, and the heap and
    the generator are as before. *)
Lemma lookup_miss_wf c h now q rd ps :
  wf c ps → (lookup c h now q rd).2 = false →
  let c' := (lookup c h now q rd).1.1.1 in
  (∃ ps', wf c' ps') ∧ m c' !! mkKey q rd = None ∧
  config c' = config c ∧ rand c' = rand c ∧ stats c' = stats c ∧
  (lookup c h now q rd).1.1.2 = h ∧ (lookup c h now q rd).1.2 = zeroMessage.
Proof.
  intros Hwf Hmiss.
  pose proof (lookup_wf c h now q rd ps Hwf) as (Hcfg & Hst & _ & Hcase).
  cbv zeta in *.
  destruct (m c !! mkKey q rd) as [p|] eqn:Hm.
  - destruct Hcase as (e & He & Hk & Hcase).
    destruct (After now (expires e)) eqn:Hx.
    + destruct Hcase as (_ & Hwf' & Hm').
      rewrite (lookup_expired_eq c h now q rd p e) in * by done. simpl in *.
      split_and!; try done; [by eexists|]. apply lookup_delete_eq.
    + destruct Hcase as (Hr & _). congruence.
  - rewrite lookup_miss_absent in * by done. simpl.
    split_and!; try done. by eexists.
Qed.

Lemma valid_reorderMsg h rsp f rnd s :
  valid h s → valid (reorderMsg h rsp f rnd).1 s.
Proof.
  intros Hv. unfold reorderMsg.
  destruct (reorder_list f (load h (Answers rsp)) rnd). simpl.
  by apply valid_store.
Qed.

(** A hit as soon as the map holds an unexpired entry. *)
Lemma lookup_serves c h now q rd p e :
  m c !! mkKey q rd = Some p → ents c !! p = Some e →
  now ≤ expires e → (lookup c h now q rd).2 = true.
Proof.
  intros Hm He Hx. rewrite (lookup_hit_eq c h now q rd p e); try done.
  unfold After. apply bool_decide_eq_false_2. lia.
Qed.

End resolve_lemmas.

(** C10.  With negative caching disabled, a NODATA response of the nested
    resolver (NoError, no answer of the type of the question: a response
    the classifier takes for a negative one) is returned as it is and
    stored by the positive rules: not cached without records or with a
    minimum TTL of 0, otherwise stored as an entry with negative = false
    whose lifetime is the minimum TTL of the three sections clamped to
    MaxTTL, and a lookup of the fingerprint is a hit until the entry
    expires. *)
Theorem nodata_stored_positive (nested : Resolver) c ps h now now' q rd
    h1 rsp :
  wf c ps → EnableNegativeCaching (config c) = false →
  (lookup c h now q rd).2 = false →
  nested h q rd = (h1, rsp, true) → msg_valid h1 rsp →
  RCode_ (MHeader rsp) = RCodeSuccess →
  (∀ rr, rr ∈ load h1 (Answers rsp) → RType (Header rr) ≠ QType q) →
  let r := Resolve nested c h now now' q rd in
  let c' := r.1.1.1 in
  let h' := r.1.1.2 in
  let lifetime := Z.min (min_ttl MaxUint32 (all_records h' rsp))
                        (MaxTTL (config c)) in
  r.2 = true ∧ r.1.2 = rsp ∧
  isCacheableNegativeResponse h' q rsp = true ∧
  if bool_decide (all_records h' rsp = []) ||
     bool_decide (min_ttl MaxUint32 (all_records h' rsp) = 0)
  then m c' !! mkKey q rd = None
  else ∃ p e, m c' !! mkKey q rd = Some p ∧ ents c' !! p = Some e ∧
              negative e = false ∧ created e = now' ∧
              expires e = Add now' (wrap_i64 (lifetime * Second)) ∧
              ∀ t, t ≤ expires e → (lookup c' h' t q rd).2 = true.
Proof.
  intros Hwf Hen Hmiss Hnest Hv Hrc Hnodata.
  destruct (lookup_miss_wf c h now q rd ps Hwf Hmiss)
    as ((ps' & Hwf0) & Hk0 & Hcfg0 & Hrnd0 & _ & Hh0 & _).
  unfold Resolve. rewrite lookup_with_stats. cbv zeta.
  destruct (lookup c h now q rd) as [[[c0 h0] m0] ok0] eqn:El.
  simpl in Hmiss, Hwf0, Hk0, Hcfg0, Hrnd0, Hh0. subst ok0 h0.
  cbn [fst snd]. rewrite Hnest. cbn [negb].
  set (c1 := with_stats (with_stats c0 (AddQuestion (stats c)))
               (AddDeferral (stats (with_stats c0 (AddQuestion (stats c)))))).
  assert (config c1 = config c) as Hcfg1 by done.
  (* the shuffle of the response *)
  assert (∃ h2 rnd2,
    (if bool_decide (Reordering (config c1) ≠ NoReordering)
     then reorderMsg h1 rsp shuffleRecords (rand c1)
     else (h1, rand c1)) = (h2, rnd2) ∧
    msg_valid h2 rsp ∧ load h2 (Answers rsp) ≡ₚ load h1 (Answers rsp))
    as (h2 & rnd2 & -> & Hv2 & Hperm).
  { case_bool_decide.
    - destruct Hv as (VA & VU & VD).
      pose proof (reorderMsg_spec h1 rsp shuffleRecords (rand c1) VA)
        as (L & _ & _).
      pose proof (valid_reorderMsg h1 rsp shuffleRecords (rand c1)) as Hval.
      destruct (reorderMsg h1 rsp shuffleRecords (rand c1)) as [h2 rnd2].
      simpl in *. exists h2, rnd2. split_and!; try done.
      + split_and!; by apply Hval.
      + rewrite L. apply reorder_list_shuffle_perm.
    - by exists h1, (rand c1). }
  set (c2 := mkResolver (config c1) (m c1) (l c1) (ents c1) rnd2 (stats c1)).
  assert (EnableNegativeCaching (config c2) = false) as Hen2.
  { change (EnableNegativeCaching (config c0) = false). by rewrite Hcfg0. }
  rewrite Hen2. cbn [andb]. rewrite (bool_decide_eq_true_2 _ Hrc).
  rewrite putResponse_spec. unfold put_positive.
  assert (wf c2 ps') as Hwf2 by done.
  assert (m c2 !! mkKey q rd = None) as Hk2 by done.
  (* the classifier on the response as returned *)
  assert (∀ hx, load hx (Answers rsp) = load h2 (Answers rsp) →
                isCacheableNegativeResponse hx q rsp = true) as Hneg.
  { intros hx Hx. unfold isCacheableNegativeResponse.
    rewrite (bool_decide_eq_true_2 _ Hrc), Hx.
    assert (∀ rs, (∀ rr, rr ∈ rs → RType (Header rr) ≠ QType q) →
                  nodata_loop (QType q) rs = true) as Hloop.
    { induction rs as [|x rs IH]; simpl; [done|]. intros Hall.
      rewrite bool_decide_eq_false_2 by (apply Hall; by left).
      apply IH. intros rr Hin. apply Hall. by right. }
    apply Hloop. intros rr Hin. apply Hnodata. by rewrite <- Hperm. }
  case_bool_decide as Hempty.
  { cbn [fst snd]. rewrite (bool_decide_eq_true_2 _ Hempty). cbn [orb].
    split_and!; try done. by apply Hneg. }
  case_bool_decide as Hzero.
  { cbn [fst snd]. rewrite (bool_decide_eq_false_2 _ Hempty).
    rewrite (bool_decide_eq_true_2 _ Hzero). cbn [orb].
    split_and!; try done. by apply Hneg. }
  set (ttl := Z.min (min_ttl MaxUint32 (all_records h2 rsp)) (MaxTTL (config c2))).
  destruct (put_fresh_wf c2 h2 now' q rd rsp ttl false ps' Hwf2 Hk2)
    as (_ & _ & _ & _ & Hh' & Hm' & (e & He & _ & Hne & Hcr & Hex & _) & _).
  destruct (put_mem_spec h2 rsp Hv2) as (_ & _ & _ & _ & _ & _ & HX).
  rewrite <- Hh' in HX.
  destruct (put c2 h2 now' q rd rsp ttl false) as [c' h'] eqn:Ep.
  cbn [fst snd] in *.
  destruct Hv2 as (VA & VU & VD).
  assert (load h' (Answers rsp) = load h2 (Answers rsp)) as LA
    by (apply (extends_except_load' [] h2 h'); (done || constructor)).
  assert (load h' (Authorities rsp) = load h2 (Authorities rsp)) as LU
    by (apply (extends_except_load' [] h2 h'); (done || constructor)).
  assert (load h' (Additionals rsp) = load h2 (Additionals rsp)) as LD
    by (apply (extends_except_load' [] h2 h'); (done || constructor)).
  assert (all_records h' rsp = all_records h2 rsp) as ->.
  { unfold all_records. by rewrite LA, LU, LD. }
  rewrite (bool_decide_eq_false_2 _ Hempty), (bool_decide_eq_false_2 _ Hzero).
  cbn [orb]. split_and!; try done; [by apply Hneg|].
  exists (fresh (dom (ents c2))), e. split_and!; try done.
  - rewrite Hex. unfold ttl. change (config c2) with (config c0).
    by rewrite Hcfg0.
  - intros t Ht.
    by apply (lookup_serves c' h' t q rd (fresh (dom (ents c2))) e).
Qed.

(** The theorem at the question for the AAAA records of foo.bar., which
    the nested resolver answers with its A records. *)
Lemma nodata_stored_positive_witness :
  let r := Resolve static_resolver (new_resolver 0) foo_bar_heap 0 0
                   foo_bar_aaaa true in
  r.2 = true ∧ r.1.2 = foo_bar_response ∧
  isCacheableNegativeResponse r.1.1.2 foo_bar_aaaa foo_bar_response = true.
Proof.
  destruct (nodata_stored_positive static_resolver (new_resolver 0) []
              foo_bar_heap 0 0 foo_bar_aaaa true foo_bar_heap foo_bar_response)
    as (H1 & H2 & H3 & _).
  - apply wf_cache_empty.
  - reflexivity.
  - reflexivity.
  - reflexivity.
  - split_and!; simpl; try done; eexists; reflexivity.
  - reflexivity.
  - assert (load foo_bar_heap (Answers foo_bar_response) =
      [ mkResource (mkResourceHeader "foo.bar." TypeA ClassINET 10) (Some 7%nat);
        mkResource (mkResourceHeader "foo.bar." TypeA ClassINET 10) (Some 8%nat) ])
      as -> by (vm_compute; reflexivity).
    intros rr Hin.
    repeat (apply elem_of_cons in Hin as [->|Hin]); try discriminate.
    by apply elem_of_nil in Hin.
  - split_and!; assumption.
Defined.

(** C1, the failing run.  Two stores of one fingerprint (two concurrent
    calls of Resolve that both missed): the map holds the second entry
    only, and the list still links the first entry behind it. *)
Theorem store_twice_keeps_old_entry_linked :
  let c := (store_all (new_resolver 0) moo_heap [moo "moo.a."; moo "moo.a."]).1 in
  map_elems c = [1%nat] ∧ list_elems c = [1%nat; 0%nat] ∧
  0%nat ∈ list_elems c ∧ 0%nat ∉ map_elems c.
Proof.
  vm_compute. split_and!; [reflexivity|reflexivity| |].
  - right. left.
  - intros H. apply elem_of_cons in H as [H|H]; [discriminate|].
    by apply elem_of_nil in H.
Qed.

(** C2, the failing run.  With MaxSize = 1, two stores of moo.a. followed
    by a store of moo.b. and one of moo.c. leave two entries in the map:
    the eviction at the third store takes the unlinked first entry from
    the back and deletes the key of the live one, the eviction at the
    fourth store takes the entry that is no longer in the map and deletes
    nothing. *)
Theorem max_size_exceeded_after_double_store :
  let c := (store_all (new_resolver 1) moo_heap
              [moo "moo.a."; moo "moo.a."; moo "moo.b."; moo "moo.c."]).1 in
  MaxSize (config c) = 1 ∧ size (m c) = 2%nat ∧
  list_elems c = [3%nat; 2%nat].
Proof. vm_compute. split_and!; reflexivity. Qed.

Section sequential.
Implicit Types (c : cachingResolver) (h : Mem) (ps : list addr).

Lemma walk_drop es l ps : wf_list es l ps →
  ∀ fuel i, (length ps ≤ i + fuel)%nat → walk es fuel (ps !! i) = drop i ps.
Proof.
  intros (_ & _ & _ & Hl). induction fuel as [|fuel IH]; intros i Hlen.
  - simpl. rewrite drop_ge by lia. done.
  - destruct (ps !! i) as [p|] eqn:Hp.
    + simpl. unfold Next. destruct (Hl i p Hp) as (e & -> & Hn & _).
      simpl. rewrite Hn, IH by lia.
      by rewrite <- (drop_S ps p i).
    + simpl. apply lookup_ge_None in Hp. by rewrite drop_ge.
Qed.

(** Iterating from the front of the list visits the entries of the
    abstract list. *)
Lemma list_elems_wf c ps : wf c ps → list_elems c = ps.
Proof.
  intros (Hlist & _ & Hl). unfold list_elems, Front.
  destruct Hlist as (Hnd & Hh & Ht & Hlk).
  rewrite Hh.
  rewrite (walk_drop (ents c) (l c) ps); [by rewrite drop_0|by repeat split|].
  assert (ps ⊆+ elements (dom (ents c))) as Hsub.
  { apply NoDup_submseteq; [done|]. intros p Hp.
    apply elem_of_elements, elem_of_dom.
    destruct (Hl p Hp) as (e & -> & _). eauto. }
  apply submseteq_length in Hsub.
  rewrite <- size_dom. unfold size at 1, set_size. simpl. lia.
Qed.

(** Under the invariant an entry is in the list iff the map points to
    it, and the map has as many entries as the list. *)
Lemma wf_list_iff_map c ps :
  wf c ps →
  (∀ p, p ∈ list_elems c ↔ ∃ k, m c !! k = Some p) ∧
  size (m c) = length (list_elems c).
Proof.
  intros Hwf. rewrite (list_elems_wf c ps Hwf).
  split; [|by apply (wf_cache_size _ (l c) (ents c))].
  destruct Hwf as (_ & Hm & Hl). intros p. split.
  - intros Hp. destruct (Hl p Hp) as (e & _ & He). eauto.
  - intros [k Hk]. by apply (Hm k).
Qed.

Lemma without_length p ps : (length (without p ps) ≤ length ps)%nat.
Proof. apply length_filter. Qed.

Lemma lookup_inv c h now q rd : Inv c → Inv (lookup c h now q rd).1.1.1.
Proof.
  intros (ps & Hwf & Hb).
  pose proof (lookup_wf c h now q rd ps Hwf) as (Hcfg & _ & _ & Hcase).
  cbv zeta in *.
  destruct (m c !! mkKey q rd) as [p|] eqn:Hm.
  - destruct Hcase as (e & He & Hk & Hcase).
    assert (p ∈ ps) as Hp by (by apply Hwf in Hm as [? _]).
    destruct (After now (expires e)).
    + destruct Hcase as (_ & Hwf' & _). exists (without p ps).
      split; [done|]. unfold bounded in *. rewrite Hcfg. intros Hpos.
      pose proof (without_length p ps). specialize (Hb Hpos). lia.
    + destruct Hcase as (_ & Hwf' & _). exists (p :: without p ps).
      split; [done|]. unfold bounded in *. rewrite Hcfg. intros Hpos.
      specialize (Hb Hpos).
      apply list_elem_of_split in Hp as (xs & ys & ->).
      rewrite without_middle by apply Hwf. simpl.
      rewrite length_app in *. simpl in Hb. lia.
  - destruct Hcase as (-> & _). by exists ps.
Qed.

Lemma put_fresh_inv c h now q rd rsp ttl neg :
  Inv c → m c !! mkKey q rd = None → Inv (put c h now q rd rsp ttl neg).1.
Proof.
  intros (ps & Hwf & Hb) Hk.
  destruct (put_fresh_wf c h now q rd rsp ttl neg ps Hwf Hk)
    as (_ & Hcfg & _ & _ & _ & _ & _ & Hcase).
  destruct (over_size c (S (length ps))) eqn:Hov.
  - destruct Hcase as (Hwf' & _). eexists. split; [exact Hwf'|].
    unfold bounded in *. rewrite Hcfg. intros Hpos. specialize (Hb Hpos).
    rewrite length_take. simpl. lia.
  - destruct Hcase as (Hwf' & _). eexists. split; [exact Hwf'|].
    unfold bounded in *. rewrite Hcfg. intros Hpos.
    unfold over_size in Hov. apply andb_false_iff in Hov as [Hov|Hov];
      apply bool_decide_eq_false in Hov; simpl length; lia.
Qed.

Lemma putResponse_inv c h now q rd rsp :
  Inv c → m c !! mkKey q rd = None → Inv (putResponse c h now q rd rsp).1.
Proof.
  intros HI Hk. rewrite putResponse_spec. unfold put_positive.
  repeat case_bool_decide; try done. by apply put_fresh_inv.
Qed.

Lemma putNegativeResponse_inv c h now q rd rsp :
  Inv c → m c !! mkKey q rd = None →
  Inv (putNegativeResponse c h now q rd rsp).1.
Proof.
  intros HI Hk. unfold putNegativeResponse.
  repeat case_bool_decide; try done; by apply put_fresh_inv.
Qed.

Lemma NewResolver_inv cfg rnd st c : NewResolver cfg rnd st = inl c → Inv c.
Proof.
  unfold NewResolver. case_bool_decide; [done|]. intros [= <-].
  exists []. split; [apply wf_cache_empty|]. unfold bounded. simpl. lia.
Qed.

(** Calls of Resolve processed one after the other keep the invariant:
    every store follows a miss of its fingerprint. *)
Lemma Resolve_inv (nested : Resolver) c h now now' q rd :
  Inv c → Inv (Resolve nested c h now now' q rd).1.1.1.
Proof.
  intros HI. unfold Resolve. rewrite lookup_with_stats. cbv zeta.
  pose proof (lookup_inv c h now q rd HI) as HI0.
  destruct HI as (ps & Hwf & _).
  pose proof (lookup_miss_wf c h now q rd ps Hwf) as Hmiss.
  destruct (lookup c h now q rd) as [[[c0 h0] m0] ok0]. cbn [fst snd] in *.
  destruct ok0; [done|].
  destruct (Hmiss eq_refl) as (_ & Hk0 & _).
  destruct (nested h0 q rd) as [[h1 rsp] ok1].
  destruct ok1; [|done]. cbn [negb].
  destruct (if bool_decide (_ ≠ NoReordering) then _ else _) as [h2 rnd2].
  match goal with
  | |- context [putResponse ?x _ _ _ _ _] => set (c2 := x)
  end.
  assert (Inv c2) as HI2 by done.
  assert (m c2 !! mkKey q rd = None) as Hk2 by done.
  destruct (EnableNegativeCaching (config c2) &&
            isCacheableNegativeResponse h2 q rsp).
  - pose proof (putNegativeResponse_inv c2 h2 now' q rd rsp HI2 Hk2).
    by destruct (putNegativeResponse c2 h2 now' q rd rsp).
  - case_bool_decide; [|done].
    pose proof (putResponse_inv c2 h2 now' q rd rsp HI2 Hk2).
    by destruct (putResponse c2 h2 now' q rd rsp).
Qed.

(** Under the invariant the map is within the bound. *)
Lemma Inv_size c :
  Inv c → 0 < MaxSize (config c) → Z.of_nat (size (m c)) ≤ MaxSize (config c).
Proof.
  intros (ps & Hwf & Hb) Hpos.
  rewrite (wf_cache_size _ _ _ _ Hwf). by apply Hb.
Qed.

End sequential.

Section distinct_stores.
Implicit Types (c : cachingResolver) (h : Mem) (ps : list addr).

(** Stores of distinct fingerprints that the map does not hold fill the
    map up to the bound and keep it there. *)
Lemma put_all_size now rd rsp ttl neg qs : ∀ c h ps,
  NoDup qs → (∀ q, q ∈ qs → m c !! mkKey q rd = None) →
  wf c ps → 0 < MaxSize (config c) →
  Z.of_nat (length ps) ≤ MaxSize (config c) →
  Z.of_nat (size (m (put_all now rd rsp ttl neg c h qs).1)) =
    Z.min (Z.of_nat (length ps + length qs)) (MaxSize (config c)).
Proof.
  induction qs as [|q qs IH]; intros c h ps Hnd Habs Hwf Hpos Hb.
  { simpl. rewrite (wf_cache_size _ _ _ _ Hwf), Nat.add_0_r. lia. }
  apply NoDup_cons in Hnd as [Hq Hnd].
  assert (m c !! mkKey q rd = None) as Hk by (apply Habs; by left).
  destruct (put_fresh_wf c h now q rd rsp ttl neg ps Hwf Hk)
    as (_ & Hcfg & _ & _ & _ & _ & _ & Hcase).
  unfold put_all. cbn [foldl fst snd].
  destruct (put c h now q rd rsp ttl neg) as [c1 h1] eqn:Ep.
  cbn [fst snd] in *. fold (put_all now rd rsp ttl neg c1 h1 qs).
  assert (∃ ps1, wf c1 ps1 ∧
            Z.of_nat (length ps1) = Z.min (Z.of_nat (S (length ps)))
                                          (MaxSize (config c)) ∧
            ∀ k, k ≠ mkKey q rd → m c !! k = None → m c1 !! k = None)
    as (ps1 & Hwf1 & Hlen1 & Hkeep).
  { destruct (over_size c (S (length ps))) eqn:Hov.
    - destruct Hcase as (Hwf1 & ev & e & _ & _ & _ & Hm1).
      eexists. split; [exact Hwf1|]. split.
      + rewrite length_take. simpl. unfold over_size in Hov.
        apply andb_true_iff in Hov
          as [_ Hov%bool_decide_eq_true]. lia.
      + intros k Hne Hn. rewrite Hm1.
        apply lookup_delete_None. right. by rewrite lookup_insert_ne.
    - destruct Hcase as (Hwf1 & Hm1).
      eexists. split; [exact Hwf1|]. split.
      + unfold over_size in Hov. apply andb_false_iff in Hov as [Hov|Hov];
          apply bool_decide_eq_false in Hov; simpl length; lia.
      + intros k Hne Hn. rewrite Hm1. by rewrite lookup_insert_ne. }
  rewrite (IH c1 h1 ps1); try done.
  - rewrite Hcfg. simpl length. lia.
  - intros q' Hq'. apply Hkeep; [|apply Habs; by right].
    intros [= ->]. done.
  - by rewrite Hcfg.
  - rewrite Hcfg. lia.
Qed.

End distinct_stores.

(** C9.  When the packed response is longer than a positive
    maxPacketLength, the packet resolver sets Truncated, drops the
    answers, authorities and additionals, and packs again on [buf]: a
    result that is still longer gives ErrTruncatedResponseTooBig,
    otherwise the result is returned.  The lengths compared are those of
    the buffers returned by AppendPack. *)
Theorem oversize_response_truncated {parser} (ops : dnsmessageOps parser)
    (res : Resolver) h packet maxPacketLength buf hd p q p' h1 rsp respBuf :
  Start ops packet = inl (hd, p) → Response hd = false →
  PQuestion ops p = inl (q, p') → SkipQuestion ops p' = SectionDone →
  res h q (RecursionDesired hd) = (h1, rsp, true) →
  AppendPack ops h1 (with_ID rsp (ID hd)) buf = inl respBuf →
  0 < maxPacketLength < Z.of_nat (length respBuf) →
  let t := truncated_response (with_ID rsp (ID hd)) in
  let r := (ResolvePacket ops res h None packet maxPacketLength buf).2 in
  Truncated (MHeader t) = true ∧ ID (MHeader t) = ID hd ∧
  Answers t = None ∧ Authorities t = None ∧ Additionals t = None ∧
  (∀ e, AppendPack ops h1 t buf = inr e → r = inr (PackingError e)) ∧
  (∀ respBuf', AppendPack ops h1 t buf = inl respBuf' →
     if bool_decide (maxPacketLength < Z.of_nat (length respBuf'))
     then r = inr ErrTruncatedResponseTooBig
     else r = inl respBuf').
Proof.
  intros HS HR HQ HK Hres HP Hlen. cbv zeta.
  unfold ResolvePacket. rewrite HS, HR, HQ, HK, Hres. cbn [negb].
  rewrite HP.
  rewrite (bool_decide_eq_false_2 (maxPacketLength = 0)) by lia.
  rewrite (bool_decide_eq_false_2 (_ ≤ maxPacketLength)) by lia.
  cbn [orb].
  change (mkMessage (MHeader (with_Truncated (with_ID rsp (ID hd)) true))
            (Questions (with_Truncated (with_ID rsp (ID hd)) true))
            None None None)
    with (truncated_response (with_ID rsp (ID hd))).
  split_and!; try done.
  - intros e ->. done.
  - intros respBuf' ->. by case_bool_decide.
Qed.

(** The theorem at a response of 44 bytes and a limit of 20: the
    truncated response of 12 bytes is returned. *)
Lemma oversize_response_truncated_witness :
  (ResolvePacket example_ops static_resolver foo_bar_heap None [] 20 []).2 =
    inl (replicate 12 Byte.x00).
Proof.
  assert (0 < 20 < Z.of_nat (length (replicate 44 Byte.x00))) as Hlen
    by (simpl; lia).
  pose proof (oversize_response_truncated example_ops static_resolver
                foo_bar_heap [] 20 []
                (mkMsgHeader 42 false 0 false false true false 0) tt foo_bar tt
                foo_bar_heap foo_bar_response (replicate 44 Byte.x00)
                eq_refl eq_refl eq_refl eq_refl eq_refl eq_refl Hlen)
    as (_ & _ & _ & _ & _ & _ & H).
  exact (H (replicate 12 Byte.x00) eq_refl).
Defined.

(** TestCacheSize: with MaxSize = 2 the questions Q1 Q1 Q2 Q1 Q2 Q3 Q2 Q3
    Q1 are answered by the nested resolver four times (Q1, Q2, Q3 and the
    last Q1, whose entry the store of Q3 has evicted) and from the cache
    five times. *)
Example cache_size_test :
  let c := (resolve_all moo_resolver (counting_resolver 2) moo_heap
              [moo "moo.a."; moo "moo.a."; moo "moo.b."; moo "moo.a.";
               moo "moo.b."; moo "moo.c."; moo "moo.b."; moo "moo.c.";
               moo "moo.a."]).1 in
  stats c = Some (mkStats 9 0 0 4 5) ∧ size (m c) = 2%nat.
Proof. vm_compute. split; reflexivity. Qed.

Section stale_entry.
Implicit Types (c : cachingResolver) (h : Mem) (ps : list addr).

Lemma list_elems_wf_list c ps :
  wf_list (ents c) (l c) ps → list_elems c = ps.
Proof.
  intros Hlist. unfold list_elems, Front.
  pose proof Hlist as (Hnd & Hh & Ht & Hlk).
  rewrite Hh, (walk_drop (ents c) (l c) ps); [by rewrite drop_0|done|].
  assert (ps ⊆+ elements (dom (ents c))) as Hsub.
  { apply NoDup_submseteq; [done|]. intros p Hp.
    apply elem_of_elements, elem_of_dom. by eapply wf_list_lookup. }
  apply submseteq_length in Hsub.
  rewrite <- size_dom. unfold size at 1, set_size. simpl. lia.
Qed.

(** A store under a fingerprint that the map already holds, when no
    eviction follows: the entry the map held stays in the list, and the
    map no longer points to it. *)
Lemma put_present_stale c h now q rd rsp ttl neg ps p0 :
  wf c ps → m c !! mkKey q rd = Some p0 →
  over_size c (size (m c)) = false →
  let c' := (put c h now q rd rsp ttl neg).1 in
  list_elems c' = fresh (dom (ents c)) :: ps ∧
  p0 ∈ list_elems c' ∧ ∀ k, m c' !! k ≠ Some p0.
Proof.
  intros Hwf Hk Hov. cbv zeta. rewrite put_eq. cbv zeta.
  set (p := fresh (dom (ents c))).
  set (e := mkEntry None None (mkKey q rd) (put_mem h rsp).2 neg
              (Add now (wrap_i64 (ttl * Second))) now).
  assert (size (<[mkKey q rd := p]> (m c)) = size (m c)) as ->.
  { rewrite map_size_insert, Hk. done. }
  rewrite Hov. cbn [fst].
  assert (ents c !! p = None) as Hp by apply not_elem_of_dom, is_fresh.
  destruct Hwf as (Hlist & Hm & Hl).
  assert (p ∉ ps) as Hpps.
  { intros H. destruct (Hl p H) as (? & ? & _). congruence. }
  assert (p0 ∈ ps) as Hp0 by (by apply Hm in Hk as [? _]).
  assert (list_elems (mkResolver (config c) (<[mkKey q rd := p]> (m c))
            (PushFront (<[p := e]> (ents c)) (l c) p).2
            (PushFront (<[p := e]> (ents c)) (l c) p).1 (rand c) (stats c))
          = p :: ps) as Hle.
  { apply list_elems_wf_list. simpl.
    apply wf_list_PushFront; [by apply wf_list_alloc|done|].
    rewrite lookup_insert_eq. eauto. }
  rewrite Hle. split_and!; [done|by right|].
  intros k. simpl. rewrite lookup_insert. case_decide as Hkk.
  - intros [= ->]. done.
  - intros Hk'. destruct (Hm _ _ Hk') as (_ & e1 & He1 & Hkey1).
    destruct (Hm _ _ Hk) as (_ & e0 & He0 & Hkey0). congruence.
Qed.

End stale_entry.

Section chains.
Implicit Types (es : entries) (l : cacheListList) (ps xs ys : list addr).
Implicit Types (p q : addr) (e : cacheEntry).

Lemma chain_app es xs : ∀ pv ys nx,
  chain es pv (xs ++ ys) nx ↔
  chain es pv xs (first_or nx ys) ∧ chain es (last_or pv xs) ys nx.
Proof.
  induction xs as [|x xs IH]; intros pv ys nx.
  { simpl. unfold last_or. simpl. tauto. }
  cbn [app chain]. rewrite IH.
  assert (last_or pv (x :: xs) = last_or (Some x) xs) as ->.
  { unfold last_or. destruct xs as [|x' xs]; [done|].
    change (last (x :: x' :: xs)) with (last (x' :: xs)).
    destruct (last (x' :: xs)) eqn:E; [done|]. by apply last_None in E. }
  destruct xs as [|x' xs]; simpl; [|tauto].
  destruct ys; simpl; tauto.
Qed.

Lemma chain_frame es es' ps : ∀ pv nx,
  (∀ p, p ∈ ps → es' !! p = es !! p) →
  chain es pv ps nx → chain es' pv ps nx.
Proof.
  induction ps as [|p ps IH]; intros pv nx Heq; [done|].
  intros [(e & He & Hp & Hn) Hc]. split.
  - exists e. rewrite Heq by (by left). done.
  - apply IH; [|done]. intros q Hq. apply Heq. by right.
Qed.

Lemma chain_lookup es ps : ∀ pv nx,
  chain es pv ps nx ↔
  ∀ i p, ps !! i = Some p →
    ∃ e, es !! p = Some e ∧
         next e = match ps !! S i with Some q => Some q | None => nx end ∧
         prev e = match i with O => pv | S j => ps !! j end.
Proof.
  induction ps as [|x ps IH]; intros pv nx.
  { simpl. split; [intros _ i p H; done|done]. }
  cbn [chain]. rewrite IH. split.
  - intros [(e & He & Hp & Hn) Hc] i p Hi. destruct i as [|i].
    + simpl in Hi. simplify_eq. exists e. split_and!; [done| |done].
      rewrite Hn. by destruct ps.
    + simpl in Hi. destruct (Hc i p Hi) as (e' & He' & Hn' & Hp').
      exists e'. split_and!; [done|done|]. rewrite Hp'. by destruct i.
  - intros H. split.
    + destruct (H 0%nat x eq_refl) as (e & He & Hn & Hp).
      exists e. split_and!; [done|done|]. rewrite Hn. by destruct ps.
    + intros i p Hi. destruct (H (S i) p Hi) as (e & He & Hn & Hp).
      exists e. split_and!; [done|done|]. rewrite Hp. by destruct i.
Qed.

(** The list as a chain from nil to nil. *)
Lemma wf_list_chain es l ps :
  wf_list es l ps ↔
  NoDup ps ∧ head l = first_or None ps ∧ tail l = last ps ∧
  chain es None ps None.
Proof.
  unfold wf_list. rewrite chain_lookup.
  assert (ps !! 0%nat = first_or None ps) as -> by (by destruct ps).
  split; intros (Hnd & Hh & Ht & H); split_and!; try done.
  - intros i p Hi. destruct (H i p Hi) as (e & He & Hn & Hp).
    exists e. split_and!; [done| |by destruct i].
    rewrite Hn. by destruct (ps !! S i).
  - intros i p Hi. destruct (H i p Hi) as (e & He & Hn & Hp).
    exists e. split_and!; [done| |by destruct i].
    rewrite Hn. by destruct (ps !! S i).
Qed.

End chains.

Section more_list_ops.
Implicit Types (es : entries) (l : cacheListList) (ps xs ys : list addr).
Implicit Types (p q : addr) (e : cacheEntry).

Lemma first_or_app d xs ys :
  first_or d (xs ++ ys) = first_or (first_or d ys) xs.
Proof. by destruct xs. Qed.

Lemma last_or_snoc d xs p : last_or d (xs ++ [p]) = Some p.
Proof. unfold last_or. by rewrite last_snoc. Qed.

Lemma links_only_PushBack es l p : links_only es (PushBack es l p).1.
Proof.
  unfold PushBack. destruct (tail l); simpl;
    eauto using links_only_trans, links_only_SetNext, links_only_SetPrev.
Qed.

Lemma links_only_InsertAfter es l b p : links_only es (InsertAfter es l b p).1.
Proof.
  unfold InsertAfter. destruct (Next es b); simpl;
    eauto 6 using links_only_trans, links_only_SetNext, links_only_SetPrev.
Qed.

Lemma links_only_InsertBefore es l a p : links_only es (InsertBefore es l a p).1.
Proof.
  unfold InsertBefore. destruct (Prev es a); simpl;
    eauto 6 using links_only_trans, links_only_SetNext, links_only_SetPrev.
Qed.

End more_list_ops.

Section list_refinement.
Implicit Types (es : entries) (l : cacheListList) (ps xs ys : list addr).
Implicit Types (p q : addr) (e : cacheEntry).

Lemma walk_back_take es l ps : wf_list es l ps →
  ∀ fuel i, (i ≤ fuel)%nat → (i ≤ length ps)%nat →
  walk_back es fuel (pred_at ps i) = reverse (take i ps).
Proof.
  intros (_ & _ & _ & Hl). induction fuel as [|fuel IH]; intros i Hf Hi.
  - assert (i = 0%nat) as -> by lia. done.
  - destruct i as [|j]; [done|]. cbn [pred_at].
    destruct (lookup_lt_is_Some_2 ps j) as [p Hp]; [lia|].
    rewrite Hp. simpl. unfold Prev.
    destruct (Hl j p Hp) as (e & -> & _ & Hpv). simpl.
    rewrite Hpv, IH by lia.
    by rewrite (take_S_r ps j p), reverse_snoc.
Qed.

Lemma wf_list_12 : wf_list list_12.1 list_12.2 [1%nat; 2%nat].
Proof.
  unfold list_12. cbv zeta.
  apply wf_list_PushFront.
  - apply wf_list_PushFront; [apply wf_list_nil|apply not_elem_of_nil|].
    by eexists.
  - by intros [=]%list_elem_of_singleton.
  - vm_compute. by eexists.
Qed.

Lemma wf_list_3 : wf_list list_12.1 (mkList (Some 3%nat) (Some 3%nat)) [3%nat].
Proof.
  split_and!; [apply NoDup_singleton|done|done|].
  intros [|i] p H; [|done]. injection H as <-.
  vm_compute. eexists. split_and!; reflexivity.
Qed.

Lemma apart_12_3 : ∀ x : addr, x ∈ [1%nat; 2%nat] → x ∉ [3%nat].
Proof.
  intros x. rewrite !elem_of_cons, !elem_of_nil. intros [->|[->|[]]] [?|?]; done.
Qed.

Lemma entry_3 : is_Some (list_12.1 !! 3%nat).
Proof. vm_compute. by eexists. Qed.

Lemma not_in_12 : 3%nat ∉ [1%nat; 2%nat].
Proof. rewrite !elem_of_cons, elem_of_nil. intros [?|[?|?]]; done. Qed.

End list_refinement.

(** X1.  PushFront of an entry that is not in the list puts it before
    the first entry: a list that holds the sequence [ps] holds [p :: ps]
    afterwards, and only links have been written. *)
Theorem PushFront_refines_cons es l ps p :
  wf_list es l ps → p ∉ ps → is_Some (es !! p) →
  let r := PushFront es l p in
  wf_list r.1 r.2 (p :: ps) ∧ links_only es r.1.
Proof.
  intros Hwf Hp He. split;
    [by apply wf_list_PushFront|apply links_only_PushFront].
Qed.

Lemma PushFront_refines_cons_witness :
  let r := PushFront list_12.1 list_12.2 3%nat in
  wf_list r.1 r.2 [3%nat; 1%nat; 2%nat] ∧ links_only list_12.1 r.1.
Proof.
  exact (PushFront_refines_cons list_12.1 list_12.2 [1%nat; 2%nat] 3%nat
           wf_list_12 not_in_12 entry_3).
Defined.

(** X2.  PushBack of an entry that is not in the list puts it after the
    last entry: a list that holds [ps] holds [ps ++ [p]] afterwards, and
    only links have been written. *)
Theorem PushBack_refines_snoc es l ps p :
  wf_list es l ps → p ∉ ps → is_Some (es !! p) →
  let r := PushBack es l p in
  wf_list r.1 r.2 (ps ++ [p]) ∧ links_only es r.1.
Proof.
  intros Hwf Hp He. cbv zeta. split; [|apply links_only_PushBack].
  revert Hwf Hp He.
  rewrite !wf_list_chain. intros (Hnd & Hh & Ht & Hc) Hp [e0 He0].
  assert (NoDup (ps ++ [p])) as Hnd'.
  { apply NoDup_app. split_and!; [done| |apply NoDup_singleton].
    intros x Hx ->%list_elem_of_singleton. done. }
  unfold PushBack, SetNext, SetPrev. rewrite Ht.
  destruct (last ps) as [tl|] eqn:Hlast.
  - apply last_Some in Hlast as [xs ->]. cbn [fst snd head tail].
    split_and!; [done| |by rewrite last_snoc|].
    { rewrite Hh. by destruct xs. }
    assert (tl ≠ p) as Hne.
    { intros ->. apply Hp, elem_of_app. right. by left. }
    rewrite <- app_assoc. apply chain_app in Hc as [Hxs Htl].
    apply chain_app. split.
    + eapply chain_frame; [|exact Hxs]. intros q Hq.
      assert (q ≠ tl).
      { intros ->. apply NoDup_app in Hnd as (_ & Hd & _).
        apply (Hd tl Hq). by left. }
      assert (q ≠ p).
      { intros ->. apply Hp, elem_of_app. by left. }
      by rewrite !lookup_alter_ne.
    + destruct Htl as [(e & He & Hpv & Hn) _]. cbn [chain]. split; [|split; [|done]].
      * rewrite lookup_alter_eq, !lookup_alter_ne, He by done.
        eexists. split; [done|]. by destruct e.
      * rewrite lookup_alter_ne, lookup_alter_eq, lookup_alter_eq, He0 by done.
        eexists. split; [done|]. by destruct e0.
  - apply last_None in Hlast as ->. cbn [fst snd head tail app].
    split_and!; try done. cbn [chain]. split; [|done].
    rewrite !lookup_alter_eq, He0. eexists. split; [done|]. by destruct e0.
Qed.

Lemma PushBack_refines_snoc_witness :
  let r := PushBack list_12.1 list_12.2 3%nat in
  wf_list r.1 r.2 [1%nat; 2%nat; 3%nat] ∧ links_only list_12.1 r.1.
Proof.
  exact (PushBack_refines_snoc list_12.1 list_12.2 [1%nat; 2%nat] 3%nat
           wf_list_12 not_in_12 entry_3).
Defined.

(** X3.  InsertAfter(b, e) for an entry [b] of the list and an entry [e]
    that is not in the list puts [e] right after [b], also when [b] is
    the last entry. *)
Theorem InsertAfter_refines es l xs b ys p :
  wf_list es l (xs ++ b :: ys) → p ∉ xs ++ b :: ys → is_Some (es !! p) →
  let r := InsertAfter es l b p in
  wf_list r.1 r.2 (xs ++ b :: p :: ys) ∧ links_only es r.1.
Proof.
  intros Hwf Hp He. cbv zeta. split; [|apply links_only_InsertAfter].
  revert Hwf Hp He.
  rewrite !wf_list_chain. intros (Hnd & Hh & Ht & Hc) Hp [e0 He0].
  apply chain_app in Hc as [Hxs [(eb & Heb & Hpb & Hnb) Hys]].
  pose proof Hnd as (Hndx & Hxy & [Hby Hndy]%NoDup_cons)%NoDup_app.
  assert (b ≠ p) as Hbp.
  { intros ->. apply Hp, elem_of_app. right. by left. }
  assert (∀ q, q ∈ xs → q ≠ b ∧ q ≠ p ∧ q ∉ ys) as Hx.
  { intros q Hq. split_and!.
    - intros ->. apply (Hxy b Hq). by left.
    - intros ->. apply Hp, elem_of_app. by left.
    - intros Hqy. apply (Hxy q Hq). by right. }
  assert (∀ q, q ∈ ys → q ≠ b ∧ q ≠ p) as Hy.
  { intros q Hq. split.
    - by intros ->.
    - intros ->. apply Hp, elem_of_app. right. by right. }
  assert (NoDup (xs ++ b :: p :: ys)) as Hnd'.
  { apply NoDup_app. split_and!; [done| |].
    - intros q Hq. rewrite !elem_of_cons.
      destruct (Hx q Hq) as (? & ? & ?). tauto.
    - apply NoDup_cons. split.
      + rewrite elem_of_cons. intros [?|?]; done.
      + apply NoDup_cons. split; [|done].
        intros Hpy. by destruct (Hy p Hpy). }
  unfold InsertAfter, Next, SetNext, SetPrev. rewrite Heb. cbn [mbind option_bind].
  rewrite Hnb.
  destruct ys as [|a ys].
  - cbn [fst snd head tail]. split_and!; [done| |by rewrite !last_app|].
    { by rewrite Hh, !first_or_app. }
    apply chain_app. split.
    + eapply chain_frame; [|exact Hxs]. intros q Hq.
      destruct (Hx q Hq) as (? & ? & _). by rewrite !lookup_alter_ne.
    + cbn [chain]. split; [|split; [|done]].
      * rewrite lookup_alter_eq, !lookup_alter_ne, Heb by done.
        eexists. split; [done|]. by destruct eb.
      * rewrite lookup_alter_ne, !lookup_alter_eq, He0 by done.
        eexists. split; [done|]. by destruct e0.
  - cbn [fst snd head tail]. destruct Hys as [(ea & Hea & Hpa & Hna) Hys].
    assert (a ≠ b ∧ a ≠ p) as [Hab Hap] by (apply Hy; by left).
    pose proof Hndy as [Hay _]%NoDup_cons.
    split_and!; [done| |by rewrite Ht, !last_app|].
    { by rewrite Hh, !first_or_app. }
    apply chain_app. split.
    + eapply chain_frame; [|exact Hxs]. intros q Hq.
      destruct (Hx q Hq) as (? & ? & Hqy).
      assert (q ≠ a) by (intros ->; apply Hqy; by left).
      by rewrite !lookup_alter_ne.
    + cbn [chain]. split; [|split; [|split]].
      * rewrite lookup_alter_ne, lookup_alter_eq, !lookup_alter_ne, Heb by done.
        eexists. split; [done|]. by destruct eb.
      * rewrite !lookup_alter_ne, !lookup_alter_eq, He0 by done.
        eexists. split; [done|]. by destruct e0.
      * rewrite lookup_alter_eq, !lookup_alter_ne, Hea by done.
        eexists. split; [done|]. by destruct ea.
      * eapply chain_frame; [|exact Hys]. intros q Hq.
        destruct (Hy q) as [? ?]; [by right|].
        assert (q ≠ a) by (by intros ->).
        by rewrite !lookup_alter_ne.
Qed.

Lemma InsertAfter_refines_witness :
  let r := InsertAfter list_12.1 list_12.2 1%nat 3%nat in
  wf_list r.1 r.2 [1%nat; 3%nat; 2%nat] ∧ links_only list_12.1 r.1.
Proof.
  exact (InsertAfter_refines list_12.1 list_12.2 [] 1%nat [2%nat] 3%nat
           wf_list_12 not_in_12 entry_3).
Defined.

(** X4.  InsertBefore(a, e) for an entry [a] of the list and an entry
    [e] that is not in the list puts [e] right before [a], also when [a]
    is the first entry. *)
Theorem InsertBefore_refines es l xs a ys p :
  wf_list es l (xs ++ a :: ys) → p ∉ xs ++ a :: ys → is_Some (es !! p) →
  let r := InsertBefore es l a p in
  wf_list r.1 r.2 (xs ++ p :: a :: ys) ∧ links_only es r.1.
Proof.
  intros Hwf Hp He. cbv zeta. split; [|apply links_only_InsertBefore].
  revert Hwf Hp He.
  rewrite !wf_list_chain. intros (Hnd & Hh & Ht & Hc) Hp [e0 He0].
  apply chain_app in Hc as [Hxs [(ea & Hea & Hpa & Hna) Hys]].
  pose proof Hnd as (Hndx & Hxy & [Hay Hndy]%NoDup_cons)%NoDup_app.
  assert (a ≠ p) as Hap.
  { intros ->. apply Hp, elem_of_app. right. by left. }
  assert (∀ q, q ∈ xs → q ≠ a ∧ q ≠ p ∧ q ∉ ys) as Hx.
  { intros q Hq. split_and!.
    - intros ->. apply (Hxy a Hq). by left.
    - intros ->. apply Hp, elem_of_app. by left.
    - intros Hqy. apply (Hxy q Hq). by right. }
  assert (∀ q, q ∈ ys → q ≠ a ∧ q ≠ p) as Hy.
  { intros q Hq. split.
    - by intros ->.
    - intros ->. apply Hp, elem_of_app. right. by right. }
  assert (NoDup (xs ++ p :: a :: ys)) as Hnd'.
  { apply NoDup_app. split_and!; [done| |].
    - intros q Hq. rewrite !elem_of_cons.
      destruct (Hx q Hq) as (? & ? & ?). intros [?|[?|?]]; done.
    - apply NoDup_cons. split.
      + rewrite elem_of_cons. intros [?|Hpy]; [done|].
        by destruct (Hy p Hpy).
      + by apply NoDup_cons. }
  assert (chain (alter (with_prev (Some p)) a
                   (alter (with_prev (last_or None xs)) p
                      (alter (with_next (Some a)) p es)))
                (Some p) (a :: ys) None) as Hays.
  { cbn [chain]. split.
    - rewrite lookup_alter_eq, !lookup_alter_ne, Hea by done.
      eexists. split; [done|]. by destruct ea.
    - eapply chain_frame; [|exact Hys]. intros q Hq.
      destruct (Hy q Hq) as [? ?]. by rewrite !lookup_alter_ne. }
  unfold InsertBefore, Prev, SetNext, SetPrev. rewrite Hea. cbn [mbind option_bind].
  rewrite Hpa.
  destruct (last xs) as [b|] eqn:Hlast.
  - apply last_Some in Hlast as [xs' ->].
    rewrite last_or_snoc in *. cbn [fst snd head tail].
    assert (b ≠ a ∧ b ≠ p ∧ b ∉ ys) as (Hba & Hbp & Hby).
    { apply Hx, elem_of_app. right. by left. }
    split_and!; [done| |by rewrite Ht, !last_app|].
    { rewrite Hh, !first_or_app. by destruct xs'. }
    apply chain_app in Hxs as [Hxs' [(eb & Heb & Hpb & Hnb) _]].
    rewrite <- !app_assoc. apply chain_app. split.
    + eapply chain_frame; [|exact Hxs']. intros q Hq.
      destruct (Hx q) as (? & ? & _); [apply elem_of_app; by left|].
      assert (q ≠ b).
      { intros ->. apply NoDup_app in Hndx as (_ & Hd & _).
        apply (Hd b Hq). by left. }
      by rewrite !lookup_alter_ne.
    + cbn [app chain]. split; [|split; [|split]].
      * rewrite lookup_alter_eq, !lookup_alter_ne, Heb by done.
        eexists. split; [done|]. by destruct eb.
      * rewrite !lookup_alter_ne, !lookup_alter_eq, He0 by done.
        eexists. split; [done|]. by destruct e0.
      * destruct Hays as [(e' & He' & ? & ?) _].
        rewrite lookup_alter_ne by done. by exists e'.
      * destruct Hays as [_ Hys'].
        eapply chain_frame; [|exact Hys']. intros q Hq.
        assert (q ≠ b) by (by intros ->).
        by rewrite (lookup_alter_ne _ _ b q).
  - apply last_None in Hlast as ->. unfold last_or in *. cbn [last] in *.
    cbn [fst snd head tail app].
    split_and!; [done|done| |].
    { rewrite Ht. done. }
    cbn [chain]. split.
    + rewrite lookup_alter_ne, !lookup_alter_eq, He0 by done.
      eexists. split; [done|]. by destruct e0.
    + exact Hays.
Qed.

Lemma InsertBefore_refines_witness :
  let r := InsertBefore list_12.1 list_12.2 2%nat 3%nat in
  wf_list r.1 r.2 [1%nat; 3%nat; 2%nat] ∧ links_only list_12.1 r.1.
Proof.
  exact (InsertBefore_refines list_12.1 list_12.2 [1%nat] 2%nat [] 3%nat
           wf_list_12 not_in_12 entry_3).
Defined.

(** X5.  Remove of an entry of the list takes it out and keeps the order
    of the others, whether the entry is the first, the last, the only
    one or in the middle; only links have been written. *)
Theorem Remove_refines_delete es l xs p ys :
  wf_list es l (xs ++ p :: ys) →
  let r := Remove es l p in
  wf_list r.1 r.2 (xs ++ ys) ∧ links_only es r.1.
Proof.
  intros Hwf. split; [by apply wf_list_Remove|apply links_only_Remove].
Qed.

Lemma Remove_refines_delete_witness :
  let r := Remove list_12.1 list_12.2 1%nat in
  wf_list r.1 r.2 [2%nat] ∧ links_only list_12.1 r.1.
Proof.
  exact (Remove_refines_delete list_12.1 list_12.2 [] 1%nat [2%nat]
           wf_list_12).
Defined.

(** X6.  PushBackList(m) for two lists that share no entry never
    dereferences nil: it leaves in [l] the entries of [l] followed by
    those of [m], and leaves [m] empty. *)
Theorem PushBackList_refines_app es l m ps qs :
  wf_list es l ps → wf_list es m qs → (∀ x, x ∈ ps → x ∉ qs) →
  ∃ es' l' m',
    PushBackList es l m = Some (es', l', m') ∧
    wf_list es' l' (ps ++ qs) ∧ wf_list es' m' [] ∧ Empty m' = true ∧
    links_only es es'.
Proof.
  intros Hl0 Hm0 Hdis.
  assert (∃ es' l' m',
            PushBackList es l m = Some (es', l', m') ∧
            wf_list es' l' (ps ++ qs) ∧ wf_list es' m' [] ∧
            links_only es es') as (es' & l' & m' & Heq & Hl' & Hm' & Hlinks).
  { pose proof Hl0 as Hl. pose proof Hm0 as Hm.
    pose proof (wf_list_nil) as Hnil.
    apply wf_list_chain in Hl as (Hndp & Hhl & Htl & Hcl).
    apply wf_list_chain in Hm as (Hndq & Hhm & Htm & Hcm).
    unfold PushBackList. rewrite Hhl, Hhm, Htl.
    destruct ps as [|p0 ps'] eqn:Eps.
    { cbn [first_or app]. eexists _, _, _. split; [done|].
      split_and!; [|done|apply links_only_refl].
      apply wf_list_chain. cbn [head tail]. done. }
    rewrite <- Eps in *.
    assert (first_or None ps = Some p0) as Hf by (by rewrite Eps).
    rewrite Hf.
    destruct qs as [|mh qs].
    { cbn [first_or]. eexists _, _, _. split; [done|].
      rewrite app_nil_r. split_and!; [|done|apply links_only_refl].
      by apply wf_list_chain. }
    cbn [first_or].
    destruct (last ps) as [lt|] eqn:Hlast.
    2:{ apply last_None in Hlast. congruence. }
    eexists _, _, _. split; [done|].
    split_and!; [|done|].
    2:{ eapply links_only_trans;
          [apply links_only_SetNext|apply links_only_SetPrev]. }
    clear Eps ps'. apply last_Some in Hlast as [xs ->].
    apply wf_list_chain. cbn [head tail]. unfold SetNext, SetPrev.
    assert (lt ≠ mh) as Hne.
    { intros ->. apply (Hdis mh); [apply elem_of_app; right|]; by left. }
    split_and!.
    - apply NoDup_app. split_and!; done.
    - rewrite first_or_app, <- Hf. by destruct xs.
    - rewrite Htm, last_app.
      destruct (last (mh :: qs)) eqn:E; [done|]. by apply last_None in E.
    - apply chain_app in Hcl as [Hcx [(et & Het & Hpt & Hnt) _]].
      destruct Hcm as [(eh & Hehh & Hph & Hnh) Hcq].
      pose proof Hndq as [Hmq _]%NoDup_cons.
      rewrite <- app_assoc. apply chain_app. split.
      + eapply chain_frame; [|exact Hcx]. intros q Hq.
        assert (q ≠ lt).
        { intros ->. apply NoDup_app in Hndp as (_ & Hd & _).
          apply (Hd lt Hq). by left. }
        assert (q ≠ mh).
        { intros ->. apply (Hdis mh); [apply elem_of_app; by left|by left]. }
        by rewrite !lookup_alter_ne.
      + cbn [app chain]. split; [|split].
        * rewrite lookup_alter_ne, lookup_alter_eq, Het by done.
          eexists. split; [done|]. by destruct et.
        * rewrite lookup_alter_eq, lookup_alter_ne, Hehh by done.
          eexists. split; [done|]. split; [by destruct eh|].
          rewrite <- Hnh. by destruct eh.
        * eapply chain_frame; [|exact Hcq]. intros q Hq.
          assert (q ≠ mh) by (by intros ->).
          assert (q ≠ lt).
          { intros ->. apply (Hdis lt); [apply elem_of_app; right; by left|].
            by right. }
          by rewrite !lookup_alter_ne. }
  exists es', l', m'. split_and!; try done.
  destruct Hm' as (_ & Hh & _). unfold Empty. by rewrite Hh.
Qed.

Lemma PushBackList_refines_app_witness :
  ∃ es' l' m',
    PushBackList list_12.1 list_12.2 (mkList (Some 3%nat) (Some 3%nat)) =
      Some (es', l', m') ∧
    wf_list es' l' ([1%nat; 2%nat] ++ [3%nat]) ∧ wf_list es' m' [] ∧
    Empty m' = true ∧ links_only list_12.1 es'.
Proof.
  exact (PushBackList_refines_app list_12.1 list_12.2
           (mkList (Some 3%nat) (Some 3%nat)) [1%nat; 2%nat] [3%nat]
           wf_list_12 wf_list_3 apart_12_3).
Defined.

(** X7.  Iteration.  From Front along Next the loop visits the entries
    of the list in order and stops at nil; from Back along Prev it
    visits them in reverse order; Empty holds exactly of the empty
    list, and after Reset the list is empty whatever it held. *)
Theorem list_iteration es l ps fuel :
  wf_list es l ps → (length ps ≤ fuel)%nat →
  walk es fuel (Front l) = ps ∧
  walk_back es fuel (Back l) = reverse ps ∧
  Empty l = bool_decide (ps = []) ∧
  Empty (Reset l) = true ∧ walk es fuel (Front (Reset l)) = [].
Proof.
  intros Hwf Hf. pose proof Hwf as (_ & Hh & Ht & _).
  unfold Front, Back, Empty. split_and!.
  - rewrite Hh, (walk_drop es l ps Hwf) by lia. apply drop_0.
  - rewrite Ht, <- pred_at_length.
    rewrite (walk_back_take es l ps Hwf) by lia. by rewrite firstn_all.
  - rewrite Hh. by destruct ps.
  - done.
  - by destruct fuel.
Qed.

Lemma list_iteration_witness :
  walk list_12.1 5 (Front list_12.2) = [1%nat; 2%nat] ∧
  walk_back list_12.1 5 (Back list_12.2) = [2%nat; 1%nat] ∧
  Empty list_12.2 = false.
Proof.
  assert (length [1%nat; 2%nat] ≤ 5)%nat as Hf by (simpl; lia).
  destruct (list_iteration list_12.1 list_12.2 [1%nat; 2%nat] 5 wf_list_12 Hf)
    as (H1 & H2 & H3 & _).
  exact (conj H1 (conj H2 H3)).
Defined.

Section cache_examples.

Lemma one_entry_wf k :
  over_size (new_resolver k) 1 = false →
  wf (one_entry k).1 [0%nat] ∧
  m (one_entry k).1 !! mkKey foo_bar true = Some 0%nat ∧
  ∃ e, ents (one_entry k).1 !! 0%nat = Some e ∧ expires e = 10 * Second ∧
       created e = 0.
Proof.
  intros Hov.
  destruct (put_fresh_wf (new_resolver k) foo_bar_heap 0 foo_bar true
              foo_bar_response 10 false [] wf_cache_empty eq_refl)
    as (_ & _ & _ & _ & _ & Hm & (e & He & _ & _ & Hc & Hx & _) & Hcase).
  simpl length in Hcase. rewrite Hov in Hcase. destruct Hcase as [Hwf _].
  split_and!; [exact Hwf|exact Hm|]. exists e. split_and!; [exact He| |done].
  rewrite Hx. reflexivity.
Qed.

End cache_examples.

(** X8.  A lookup that finds an entry past its expiry time is a miss: it
    returns the zero message, leaves the shared heap as it is, deletes
    the key from the map and unlinks the entry from the list. *)
Theorem lookup_expired_removes c h now q rd ps p e :
  wf c ps → m c !! mkKey q rd = Some p → ents c !! p = Some e →
  expires e < now →
  let r := lookup c h now q rd in
  let c' := r.1.1.1 in
  r.2 = false ∧ r.1.2 = zeroMessage ∧ r.1.1.2 = h ∧
  m c' = delete (mkKey q rd) (m c) ∧
  list_elems c' = without p ps ∧ (p ∉ list_elems c') ∧
  wf c' (without p ps).
Proof.
  intros Hwf Hm He Hx. cbv zeta.
  assert (After now (expires e) = true) as Hx'
    by (by apply bool_decide_eq_true_2).
  pose proof (lookup_wf c h now q rd ps Hwf) as (_ & _ & _ & Hcase).
  cbv zeta in Hcase. rewrite Hm in Hcase.
  destruct Hcase as (e' & He' & _ & Hcase).
  assert (e' = e) as -> by congruence. rewrite Hx' in Hcase.
  destruct Hcase as (Hr & Hwf' & Hm').
  rewrite (list_elems_wf _ _ Hwf').
  rewrite (lookup_expired_eq c h now q rd p e) in * by done.
  cbn [fst snd] in *. split_and!; try done.
  unfold without. rewrite list_elem_of_filter. by intros [? _].
Qed.

Lemma lookup_expired_removes_witness :
  let r := lookup (one_entry 0).1 (one_entry 0).2 (10 * Second + 1)
                  foo_bar true in
  r.2 = false ∧ r.1.2 = zeroMessage ∧ r.1.1.2 = (one_entry 0).2 ∧
  m r.1.1.1 = delete (mkKey foo_bar true) (m (one_entry 0).1) ∧
  list_elems r.1.1.1 = without 0%nat [0%nat] ∧
  (0%nat ∉ list_elems r.1.1.1) ∧ wf r.1.1.1 (without 0%nat [0%nat]).
Proof.
  destruct (one_entry_wf 0 eq_refl) as (Hwf & Hm & e & He & Hx & _).
  refine (lookup_expired_removes (one_entry 0).1 (one_entry 0).2
            (10 * Second + 1) foo_bar true [0%nat] 0%nat e Hwf Hm He _).
  rewrite Hx. lia.
Defined.

Lemma hit_mem_message mode h e q elapsed rnd :
  MHeader (hit_mem mode h e q elapsed rnd).2 = MHeader (msg e) ∧
  Questions (hit_mem mode h e q elapsed rnd).2 = [q].
Proof.
  unfold hit_mem.
  destruct (if bool_decide (mode = RotationReordering) then _ else _)
    as [h1 rnd1].
  destruct (copySlice h1 _) as [h2 a].
  destruct (copySlice h2 _) as [h3 u].
  destruct (copySlice h3 _) as [h4 d].
  destruct (if bool_decide (mode = RandomReordering) then _ else _)
    as [h5 rnd5].
  done.
Qed.

(** X9.  A lookup that finds an entry at or before its expiry time is a
    hit.  The message has the header of the stored response and, as its
    only question, the question asked.  The map is as it was and the
    entry has moved to the front of the list, the other entries keeping
    their order; the entry keeps its key, message, expiry and creation
    time, so a hit does not extend the life of an entry. *)
Theorem hit_moves_to_front c h now q rd ps p e :
  wf c ps → m c !! mkKey q rd = Some p → ents c !! p = Some e →
  now ≤ expires e →
  let r := lookup c h now q rd in
  let c' := r.1.1.1 in
  r.2 = true ∧ MHeader r.1.2 = MHeader (msg e) ∧ Questions r.1.2 = [q] ∧
  m c' = m c ∧
  list_elems c' = p :: without p ps ∧ wf c' (p :: without p ps) ∧
  ∃ e', ents c' !! p = Some e' ∧ same_data e e'.
Proof.
  intros Hwf Hm He Hx. cbv zeta.
  assert (After now (expires e) = false) as Hx'
    by (apply bool_decide_eq_false_2; lia).
  pose proof (lookup_wf c h now q rd ps Hwf) as (_ & _ & Hlinks & Hcase).
  cbv zeta in Hcase. rewrite Hm in Hcase.
  destruct Hcase as (e' & He' & _ & Hcase).
  assert (e' = e) as -> by congruence. rewrite Hx' in Hcase.
  destruct Hcase as (Hr & Hwf' & Hm').
  rewrite (list_elems_wf _ _ Hwf').
  assert (MHeader (lookup c h now q rd).1.2 = MHeader (msg e) ∧
          Questions (lookup c h now q rd).1.2 = [q]) as [Hhd Hqs].
  { rewrite (lookup_hit_eq c h now q rd p e Hm He Hx'). cbv zeta.
    cbn [fst snd]. apply hit_mem_message. }
  split_and!; try done.
  by apply (links_only_lookup (ents c)).
Qed.

Lemma hit_moves_to_front_witness :
  let r := lookup (one_entry 0).1 (one_entry 0).2 (10 * Second)
                  foo_bar true in
  r.2 = true ∧ m r.1.1.1 = m (one_entry 0).1 ∧
  list_elems r.1.1.1 = 0%nat :: without 0%nat [0%nat].
Proof.
  destruct (one_entry_wf 0 eq_refl) as (Hwf & Hm & e & He & Hx & _).
  assert (10 * Second ≤ expires e) as Hle by (rewrite Hx; lia).
  destruct (hit_moves_to_front (one_entry 0).1 (one_entry 0).2
              (10 * Second) foo_bar true [0%nat] 0%nat e Hwf Hm He Hle)
    as (H1 & _ & _ & H2 & H3 & _).
  exact (conj H1 (conj H2 H3)).
Defined.

(** X10.  A store under a new key into a cache that holds MaxSize
    entries evicts the entry at the back of the list, the least recently
    used one: its key leaves the map, the new entry is at the front, the
    others keep their order, and the map still holds MaxSize entries. *)
Theorem put_evicts_back c h now q rd rsp ttl neg ps :
  wf c ps → m c !! mkKey q rd = None →
  0 < MaxSize (config c) → Z.of_nat (length ps) = MaxSize (config c) →
  let c' := (put c h now q rd rsp ttl neg).1 in
  let p := fresh (dom (ents c)) in
  ∃ ev e, last ps = Some ev ∧ ents c !! ev = Some e ∧
    m c !! key e = Some ev ∧ m c' !! key e = None ∧
    m c' !! mkKey q rd = Some p ∧
    list_elems c' = p :: take (length ps - 1) ps ∧
    size (m c') = length ps.
Proof.
  intros Hwf Hk Hpos Hfull. cbv zeta.
  destruct (put_fresh_wf c h now q rd rsp ttl neg ps Hwf Hk)
    as (_ & _ & _ & _ & _ & Hm1 & _ & Hcase).
  assert (over_size c (S (length ps)) = true) as Hov.
  { unfold over_size. apply andb_true_iff.
    split; apply bool_decide_eq_true_2; lia. }
  rewrite Hov in Hcase.
  destruct Hcase as (Hwf' & ev & e & Hlast & Hne & He & Hm').
  destruct ps as [|p0 ps']; [simpl in Hlast; congruence|].
  change (last (fresh (dom (ents c)) :: p0 :: ps')) with (last (p0 :: ps'))
    in Hlast.
  assert (m c !! key e = Some ev) as Hmev.
  { destruct Hwf as (_ & _ & Hl).
    destruct (Hl ev) as (e' & He' & Hme').
    - rewrite last_lookup in Hlast. by eapply list_elem_of_lookup_2.
    - congruence. }
  exists ev, e. split_and!; try done.
  - rewrite Hm'. apply lookup_delete_eq.
  - rewrite (list_elems_wf _ _ Hwf'). cbn [length].
    replace (S (length ps') - 1)%nat with (length ps') by lia. done.
  - rewrite (wf_cache_size _ _ _ _ Hwf'), length_take. simpl. lia.
Qed.

Lemma put_evicts_back_witness :
  let c' := (put (one_entry 1).1 (one_entry 1).2 5 foo_bar_aaaa true
                 foo_bar_response 10 false).1 in
  ∃ ev e, last [0%nat] = Some ev ∧ ents (one_entry 1).1 !! ev = Some e ∧
    m (one_entry 1).1 !! key e = Some ev ∧ m c' !! key e = None ∧
    m c' !! mkKey foo_bar_aaaa true = Some (fresh (dom (ents (one_entry 1).1))) ∧
    list_elems c' = fresh (dom (ents (one_entry 1).1)) :: take (1 - 1) [0%nat] ∧
    size (m c') = 1%nat.
Proof.
  destruct (one_entry_wf 1 eq_refl) as (Hwf & _ & _).
  exact (put_evicts_back (one_entry 1).1 (one_entry 1).2 5 foo_bar_aaaa true
           foo_bar_response 10 false [0%nat] Hwf eq_refl eq_refl eq_refl).
Defined.

(** X11.  A store adds its own key only: a key that the map did not hold
    before, such as the same question with the other recursion flag or a
    name that differs in a letter's case, is a miss afterwards. *)
Theorem store_keeps_other_keys_absent c h now q rd rsp ttl neg ps q' rd' :
  wf c ps → m c !! mkKey q rd = None →
  mkKey q' rd' ≠ mkKey q rd → m c !! mkKey q' rd' = None →
  let s := put c h now q rd rsp ttl neg in
  m s.1 !! mkKey q' rd' = None ∧
  ∀ t, lookup s.1 s.2 t q' rd' = (s.1, s.2, zeroMessage, false).
Proof.
  intros Hwf Hk Hne Hk'. cbv zeta.
  destruct (put_fresh_wf c h now q rd rsp ttl neg ps Hwf Hk)
    as (_ & _ & _ & _ & _ & _ & _ & Hcase).
  assert (m (put c h now q rd rsp ttl neg).1 !! mkKey q' rd' = None) as Hn.
  { destruct (over_size c (S (length ps))).
    - destruct Hcase as (_ & ev & e & _ & _ & _ & ->).
      apply lookup_delete_None. right. by rewrite lookup_insert_ne.
    - destruct Hcase as (_ & ->). by rewrite lookup_insert_ne. }
  split; [done|]. intros t. by apply lookup_miss_absent.
Qed.

Lemma store_keeps_other_keys_absent_witness :
  mkKey foo_bar false ≠ mkKey foo_bar true ∧
  lookup (one_entry 0).1 (one_entry 0).2 1 foo_bar false =
    ((one_entry 0).1, (one_entry 0).2, zeroMessage, false).
Proof.
  assert (mkKey foo_bar false ≠ mkKey foo_bar true) as Hne by discriminate.
  split; [exact Hne|].
  exact (proj2 (store_keeps_other_keys_absent (new_resolver 0) foo_bar_heap 0
           foo_bar true foo_bar_response 10 false [] foo_bar false
           wf_cache_empty eq_refl Hne eq_refl) 1).
Defined.

Section runs.
Implicit Types (c : cachingResolver) (h : Mem) (ps : list addr).

Lemma put_facts c h now q rd rsp ttl neg :
  config (put c h now q rd rsp ttl neg).1 = config c ∧
  stats (put c h now q rd rsp ttl neg).1 = stats c.
Proof.
  unfold put.
  destruct (copySlice h _) as [h1 a]. destruct (copySlice h1 _) as [h2 u].
  destruct (copySlice h2 _) as [h3 d].
  destruct (PushFront _ _ _) as [es1 l1].
  destruct (_ && _); [|done].
  destruct (Back l1); [|done].
  by destruct (Remove es1 l1 _).
Qed.

Lemma putResponse_facts c h now q rd rsp :
  config (putResponse c h now q rd rsp).1 = config c ∧
  stats (putResponse c h now q rd rsp).1 = stats c.
Proof.
  unfold putResponse. destruct (_ && _); [done|].
  case_bool_decide; [done|]. apply put_facts.
Qed.

Lemma putNegativeResponse_facts c h now q rd rsp :
  config (putNegativeResponse c h now q rd rsp).1 = config c ∧
  stats (putNegativeResponse c h now q rd rsp).1 = stats c.
Proof.
  unfold putNegativeResponse. case_bool_decide; [done|]. apply put_facts.
Qed.

Lemma lookup_facts c h now q rd :
  config (lookup c h now q rd).1.1.1 = config c ∧
  stats (lookup c h now q rd).1.1.1 = stats c.
Proof.
  unfold lookup.
  destruct (m c !! mkKey q rd) as [p|]; [|done].
  destruct (ents c !! p) as [e|]; [|done].
  destruct (After now (expires e)).
  { by destruct (Remove (ents c) (l c) p). }
  destruct (Remove (ents c) (l c) p) as [es1 l1].
  destruct (PushFront es1 l1 p) as [es2 l2].
  destruct (if bool_decide (Reordering (config c) = RotationReordering)
            then _ else _) as [h1 rnd1].
  destruct (copySlice h1 _) as [h2 a].
  destruct (copySlice h2 _) as [h3 u].
  destruct (copySlice h3 _) as [h4 d].
  destruct (if bool_decide (Reordering (config c) = RandomReordering)
            then _ else _) as [h5 rnd5].
  done.
Qed.

(** Resolve keeps the configuration and counts the question once: as an
    answer when the lookup hits, as a deferral otherwise. *)
Lemma Resolve_facts (nested : Resolver) c h now now' q rd :
  let r := Resolve nested c h now now' q rd in
  config r.1.1.1 = config c ∧
  stats r.1.1.1 = count (lookup c h now q rd).2 (stats c).
Proof.
  cbv zeta. unfold Resolve. rewrite lookup_with_stats. cbv zeta.
  pose proof (lookup_facts c h now q rd) as [Hcfg _].
  destruct (lookup c h now q rd) as [[[c0 h0] m0] ok0]. cbn [fst snd] in *.
  destruct ok0; [done|].
  destruct (nested h0 q rd) as [[h1 rsp] ok1].
  destruct ok1; [|done]. cbn [negb].
  destruct (if bool_decide (_ ≠ NoReordering) then _ else _) as [h2 rnd2].
  match goal with
  | |- context [putResponse ?x _ _ _ _ _] => set (c2 := x)
  end.
  pose proof (putResponse_facts c2 h2 now' q rd rsp) as [P1 P2].
  pose proof (putNegativeResponse_facts c2 h2 now' q rd rsp) as [N1 N2].
  destruct (EnableNegativeCaching (config c2) &&
            isCacheableNegativeResponse h2 q rsp).
  - destruct (putNegativeResponse c2 h2 now' q rd rsp). simpl in *.
    by rewrite N1, N2.
  - case_bool_decide; [|done].
    destruct (putResponse c2 h2 now' q rd rsp). simpl in *.
    by rewrite P1, P2.
Qed.

Lemma run_snoc c h cs x :
  run c h (cs ++ [x]) =
    let s := run c h cs in
    let r := Resolve (call_nested x) s.1 s.2 (call_now x) (call_now' x)
               (call_question x) (call_rd x) in
    (r.1.1.1, r.1.1.2).
Proof. unfold run. by rewrite foldl_app. Qed.

Lemma run_inv cs : ∀ c h,
  Inv c → Inv (run c h cs).1 ∧ config (run c h cs).1 = config c.
Proof.
  induction cs as [|x cs IH] using rev_ind; intros c h HI; [done|].
  rewrite run_snoc. cbv zeta. cbn [fst].
  destruct (IH c h HI) as [HI' Hcfg].
  split; [by apply Resolve_inv|].
  rewrite <- Hcfg. apply Resolve_facts.
Qed.

End runs.

(** X12.  Along calls of Resolve that are processed one after the other
    on a resolver made by NewResolver, whatever the nested resolver
    answers and whatever the clock reads: the list and the map hold the
    same entries, and with a positive MaxSize the map never holds more
    than MaxSize entries. *)
Theorem sequential_calls_keep_cache_consistent cfg rnd st c h cs :
  NewResolver cfg rnd st = inl c →
  let c' := (run c h cs).1 in
  (∀ p, p ∈ list_elems c' ↔ ∃ k, m c' !! k = Some p) ∧
  size (m c') = length (list_elems c') ∧
  (0 < MaxSize cfg → Z.of_nat (size (m c')) ≤ MaxSize cfg).
Proof.
  intros Hnew. cbv zeta.
  destruct (run_inv cs c h (NewResolver_inv _ _ _ _ Hnew)) as [HI Hcfg].
  assert (MaxSize (config c) = MaxSize cfg) as Hsz.
  { unfold NewResolver in Hnew. repeat case_bool_decide; by simplify_eq. }
  pose proof HI as (ps & Hwf & _).
  destruct (wf_list_iff_map _ _ Hwf) as [H1 H2].
  split_and!; [done|done|].
  intros Hpos. rewrite <- Hsz, <- Hcfg in *. by apply Inv_size.
Qed.

Lemma sequential_calls_keep_cache_consistent_witness :
  let c' := (run (new_resolver 1) moo_heap
               [mkCall moo_resolver 0 0 (moo "moo.a.") false;
                mkCall moo_resolver 0 0 (moo "moo.b.") false]).1 in
  size (m c') = length (list_elems c') ∧
  (0 < 1 → Z.of_nat (size (m c')) ≤ 1).
Proof.
  destruct (sequential_calls_keep_cache_consistent
              (mkConfig NoReordering false 0 1) [] None (new_resolver 1)
              moo_heap
              [mkCall moo_resolver 0 0 (moo "moo.a.") false;
               mkCall moo_resolver 0 0 (moo "moo.b.") false] eq_refl)
    as (_ & H2 & H3).
  exact (conj H2 H3).
Defined.

Section counters.

Lemma wrap_u64_add_l a b : wrap_u64 (wrap_u64 a + b) = wrap_u64 (a + b).
Proof. unfold wrap_u64. apply Zplus_mod_idemp_l. Qed.

Lemma occurrences_snoc ev evs x :
  occurrences ev (evs ++ [x]) =
    occurrences ev evs + (if decide (x = ev) then 1 else 0).
Proof.
  unfold occurrences. rewrite filter_app, length_app, filter_cons, filter_nil.
  case_decide; simpl; lia.
Qed.

Lemma wrap_u64_range z : 0 ≤ wrap_u64 z < 2 ^ 64.
Proof. unfold wrap_u64. apply Z.mod_pos_bound. lia. Qed.

Lemma wrap_u64_id z : 0 ≤ z < 2 ^ 64 → wrap_u64 z = z.
Proof. unfold wrap_u64. intros. by apply Z.mod_small. Qed.

Lemma count_Some hit s :
  counters_ok s →
  ∃ s', count hit (Some s) = Some s' ∧ counters_ok s' ∧
    questions s' = wrap_u64 (questions s + 1) ∧
    wrap_u64 (answers s' + deferrals s') =
      wrap_u64 (answers s + deferrals s + 1) ∧
    rejected s' = rejected s ∧ errors s' = errors s.
Proof.
  intros (Hq & Hr & He & Hd & Ha).
  destruct hit; simpl; eexists; (split; [reflexivity|]); simpl;
    unfold counters_ok; simpl; split_and!; try done; try lia;
    try apply wrap_u64_range.
  - rewrite wrap_u64_add_l. f_equal. lia.
  - rewrite Z.add_comm, wrap_u64_add_l. f_equal. lia.
Qed.

Lemma record_events evs : ∀ s,
  counters_ok s →
  ∃ s', foldl record_event (Some s) evs = Some s' ∧ counters_ok s' ∧
    questions s' = wrap_u64 (questions s + occurrences EvQuestion evs) ∧
    rejected s' = wrap_u64 (rejected s + occurrences EvRejected evs) ∧
    errors s' = wrap_u64 (errors s + occurrences EvError evs) ∧
    deferrals s' = wrap_u64 (deferrals s + occurrences EvDeferral evs) ∧
    answers s' = wrap_u64 (answers s + occurrences EvAnswer evs).
Proof.
  induction evs as [|x evs IH] using rev_ind; intros s Hok.
  { exists s. unfold occurrences. simpl. rewrite !Z.add_0_r.
    destruct Hok as (? & ? & ? & ? & ?).
    rewrite !wrap_u64_id by done. by split_and!. }
  destruct (IH s Hok) as (s1 & Hs1 & Hok1 & Q & R & E & D & A).
  rewrite foldl_app, Hs1, !occurrences_snoc. cbn [foldl].
  destruct Hok1 as (? & ? & ? & ? & ?).
  destruct x; simpl; eexists; (split; [reflexivity|]);
    unfold counters_ok; simpl; rewrite ?Z.add_0_r;
    rewrite ?Q, ?R, ?E, ?D, ?A, ?wrap_u64_add_l, ?Z.add_assoc;
    split_and!; try done; try lia; try apply wrap_u64_range;
    try (rewrite <- ?Q, <- ?R, <- ?E, <- ?D, <- ?A; done).
Qed.

End counters.

(** X13.  Every call of Resolve is counted once as a question and once
    as either an answer or a deferral, and no call is counted as
    rejected or as an error: after any calls processed one after the
    other, Questions has grown by the number of calls and so has the sum
    of Answers and Deferrals, modulo 2^64. *)
Theorem Resolve_counts_every_call c h cs s :
  stats c = Some s → counters_ok s →
  ∃ s', stats (run c h cs).1 = Some s' ∧ counters_ok s' ∧
    questions s' = wrap_u64 (questions s + Z.of_nat (length cs)) ∧
    wrap_u64 (answers s' + deferrals s') =
      wrap_u64 (answers s + deferrals s + Z.of_nat (length cs)) ∧
    rejected s' = rejected s ∧ errors s' = errors s.
Proof.
  intros Hs Hok. induction cs as [|x cs IH] using rev_ind.
  { exists s. simpl. rewrite !Z.add_0_r.
    rewrite wrap_u64_id by apply Hok. by split_and!. }
  rewrite run_snoc. cbv zeta. cbn [fst].
  destruct IH as (s1 & Hs1 & Hok1 & Q1 & AD1 & R1 & E1).
  pose proof (Resolve_facts (call_nested x) (run c h cs).1 (run c h cs).2
                (call_now x) (call_now' x) (call_question x) (call_rd x))
    as [_ Hst].
  cbv zeta in Hst. rewrite Hst, Hs1.
  destruct (count_Some (lookup (run c h cs).1 (run c h cs).2 (call_now x)
              (call_question x) (call_rd x)).2 s1 Hok1)
    as (s2 & -> & Hok2 & Q2 & AD2 & R2 & E2).
  exists s2. rewrite length_app. simpl length.
  split_and!; [done|done| | |congruence|congruence].
  - rewrite Q2, Q1, wrap_u64_add_l. f_equal. lia.
  - rewrite AD2. rewrite <- wrap_u64_add_l, AD1, wrap_u64_add_l. f_equal. lia.
Qed.

(** X14.  The counting methods on a handle that is not nil: whatever the
    order of the events, each counter has grown by the number of its
    events modulo 2^64, so two sequences with the same events leave the
    same counters.  On a nil handle every method is a no-op. *)
Theorem counters_count_events evs evs' s :
  counters_ok s → evs ≡ₚ evs' →
  foldl record_event None evs = None ∧
  foldl record_event (Some s) evs = foldl record_event (Some s) evs' ∧
  ∃ s', foldl record_event (Some s) evs = Some s' ∧ counters_ok s' ∧
    questions s' = wrap_u64 (questions s + occurrences EvQuestion evs) ∧
    rejected s' = wrap_u64 (rejected s + occurrences EvRejected evs) ∧
    errors s' = wrap_u64 (errors s + occurrences EvError evs) ∧
    deferrals s' = wrap_u64 (deferrals s + occurrences EvDeferral evs) ∧
    answers s' = wrap_u64 (answers s + occurrences EvAnswer evs).
Proof.
  intros Hok Hperm. split_and!.
  - induction evs as [|x evs IH] using rev_ind; [done|].
    rewrite foldl_app. simpl.
    assert (foldl record_event None evs = None) as ->.
    { clear. induction evs as [|y evs IH] using rev_ind; [done|].
      rewrite foldl_app, IH. by destruct y. }
    by destruct x.
  - destruct (record_events evs s Hok)
      as (s1 & -> & _ & Q1 & R1 & E1 & D1 & A1).
    destruct (record_events evs' s Hok)
      as (s2 & -> & _ & Q2 & R2 & E2 & D2 & A2).
    assert (∀ ev, occurrences ev evs = occurrences ev evs') as Hocc.
    { intros ev. unfold occurrences. by rewrite Hperm. }
    rewrite <- !Hocc in *. destruct s1, s2. simpl in *. congruence.
  - by apply record_events.
Qed.

Lemma counters_ok_zero : counters_ok (mkStats 0 0 0 0 0).
Proof. unfold counters_ok. simpl. lia. Qed.

Lemma Resolve_counts_every_call_witness :
  ∃ s', stats (run (counting_resolver 2) moo_heap
                 [mkCall moo_resolver 0 0 (moo "moo.a.") false;
                  mkCall moo_resolver 1 1 (moo "moo.a.") false]).1 = Some s' ∧
    counters_ok s' ∧
    questions s' = wrap_u64 (0 + Z.of_nat 2) ∧
    wrap_u64 (answers s' + deferrals s') = wrap_u64 (0 + 0 + Z.of_nat 2) ∧
    rejected s' = 0 ∧ errors s' = 0.
Proof.
  exact (Resolve_counts_every_call (counting_resolver 2) moo_heap
           [mkCall moo_resolver 0 0 (moo "moo.a.") false;
            mkCall moo_resolver 1 1 (moo "moo.a.") false]
           (mkStats 0 0 0 0 0) eq_refl counters_ok_zero).
Defined.

Lemma counters_count_events_witness :
  foldl record_event (Some (mkStats 0 0 0 0 0))
        [EvQuestion; EvAnswer; EvQuestion; EvRejected] =
  foldl record_event (Some (mkStats 0 0 0 0 0))
        [EvRejected; EvQuestion; EvAnswer; EvQuestion].
Proof.
  refine (proj1 (proj2 (counters_count_events
            [EvQuestion; EvAnswer; EvQuestion; EvRejected]
            [EvRejected; EvQuestion; EvAnswer; EvQuestion]
            (mkStats 0 0 0 0 0) counters_ok_zero _))).
  symmetry.
  apply (Permutation_cons_append [EvQuestion; EvAnswer; EvQuestion] EvRejected).
Defined.

Section lifetimes.
Implicit Types (c : cachingResolver) (h : Mem) (ps : list addr).

(** A stored entry is served until its expiry time and not after it. *)
Lemma put_lookup_ok c h t0 t1 q rd rsp ttl neg ps :
  wf c ps → m c !! mkKey q rd = None →
  min_i64 ≤ ttl * Second ≤ max_i64 →
  let s := put c h t0 q rd rsp ttl neg in
  (lookup s.1 s.2 t1 q rd).2 = bool_decide (t1 ≤ t0 + ttl * Second).
Proof.
  intros Hwf Hk Httl. cbv zeta.
  destruct (put_fresh_wf c h t0 q rd rsp ttl neg ps Hwf Hk)
    as (_ & _ & _ & _ & _ & Hm1 & (e & He & _ & _ & _ & Hex & _) & _).
  rewrite wrap_i64_id in Hex by done. unfold Add in Hex.
  destruct (After t1 (expires e)) eqn:Hx.
  - rewrite (lookup_expired_eq _ _ _ _ _ _ e Hm1 He Hx). simpl.
    apply bool_decide_eq_true in Hx. symmetry.
    apply bool_decide_eq_false_2. lia.
  - rewrite (lookup_hit_eq _ _ _ _ _ _ e Hm1 He Hx). simpl.
    apply bool_decide_eq_false in Hx. symmetry.
    apply bool_decide_eq_true_2. lia.
Qed.

Lemma min_ttl_u32 (rs : list Resource) :
  Forall (λ r, u32 (TTL (Header r))) rs → u32 (min_ttl MaxUint32 rs).
Proof.
  induction 1 as [|r rs Hr _ IH].
  { unfold min_ttl, u32, MaxUint32. simpl. lia. }
  rewrite min_ttl_cons. unfold u32 in *. lia.
Qed.

End lifetimes.

(** X15.  A response stored by putResponse under a new key is served
    from the cache exactly until the smallest TTL of its records, or
    MaxTTL when that is smaller, has passed since the store: a lookup at
    that instant is still a hit and a lookup after it is a miss.  A
    response without records or with a record of TTL 0 is never
    served. *)
Theorem positive_entry_lifetime c h t0 t1 q rd rsp ps :
  wf c ps → m c !! mkKey q rd = None →
  Forall (λ r, u32 (TTL (Header r))) (all_records h rsp) →
  0 < MaxTTL (config c) →
  let s := putResponse c h t0 q rd rsp in
  let ttl := min_ttl MaxUint32 (all_records h rsp) in
  let life := Z.min ttl (MaxTTL (config c)) in
  (∀ r, r ∈ all_records h rsp → life ≤ TTL (Header r)) ∧
  (lookup s.1 s.2 t1 q rd).2 =
    if bool_decide (all_records h rsp = [] ∨ ttl = 0) then false
    else bool_decide (t1 ≤ t0 + life * Second).
Proof.
  intros Hwf Hk Hu Hmax. cbv zeta. split.
  { intros r Hr.
    destruct (min_ttl_least MaxUint32 (all_records h rsp)) as (_ & H & _).
    specialize (H r Hr). lia. }
  rewrite putResponse_spec. unfold put_positive.
  pose proof (min_ttl_u32 _ Hu) as Hr.
  case_bool_decide as Hnil.
  { rewrite bool_decide_eq_true_2 by (by left).
    by rewrite lookup_miss_absent. }
  case_bool_decide as Hz.
  { rewrite bool_decide_eq_true_2 by (by right).
    by rewrite lookup_miss_absent. }
  rewrite bool_decide_eq_false_2 by tauto.
  apply (put_lookup_ok c h t0 t1 q rd rsp _ false ps Hwf Hk).
  unfold u32, min_i64, max_i64, Second in *. lia.
Qed.

Lemma positive_entry_lifetime_witness :
  let s := putResponse (new_resolver 0) foo_bar_heap 0 foo_bar true
                       foo_bar_response in
  (lookup s.1 s.2 (10 * Second) foo_bar true).2 = true ∧
  (lookup s.1 s.2 (10 * Second + 1) foo_bar true).2 = false.
Proof.
  assert (Forall (λ r, u32 (TTL (Header r)))
            (all_records foo_bar_heap foo_bar_response)) as Hu.
  { assert (all_records foo_bar_heap foo_bar_response =
      [ mkResource (mkResourceHeader "foo.bar." TypeA ClassINET 10) (Some 7%nat);
        mkResource (mkResourceHeader "foo.bar." TypeA ClassINET 10) (Some 8%nat) ])
      as -> by (vm_compute; reflexivity).
    repeat constructor; unfold u32; simpl; lia. }
  split.
  - exact (proj2 (positive_entry_lifetime (new_resolver 0) foo_bar_heap 0
             (10 * Second) foo_bar true foo_bar_response [] wf_cache_empty
             eq_refl Hu eq_refl)).
  - exact (proj2 (positive_entry_lifetime (new_resolver 0) foo_bar_heap 0
             (10 * Second + 1) foo_bar true foo_bar_response []
             wf_cache_empty eq_refl Hu eq_refl)).
Defined.

(** X16.  A negative response stored by putNegativeResponse under a new
    key is served from the cache exactly until the smaller of the TTL
    and the MINIMUM field of the first SOA record of its authority
    section, or MaxTTL when that is smaller, has passed since the store.
    Without an SOA record, or when that minimum is 0, it is never
    served. *)
Theorem negative_entry_lifetime c h t0 t1 q rd rsp ps :
  wf c ps → m c !! mkKey q rd = None →
  Forall (wt_record h) (load h (Authorities rsp)) →
  0 < MaxTTL (config c) →
  let s := putNegativeResponse c h t0 q rd rsp in
  (lookup s.1 s.2 t1 q rd).2 =
    match find (is_soa h) (load h (Authorities rsp)) with
    | None => false
    | Some rr =>
        let ttl := Z.min (TTL (Header rr)) (soa_min_ttl h rr) in
        if bool_decide (ttl = 0) then false
        else bool_decide (t1 ≤ t0 + Z.min ttl (MaxTTL (config c)) * Second)
    end.
Proof.
  intros Hwf Hk Hwt Hmax. cbv zeta.
  unfold putNegativeResponse. rewrite soa_ttl_find.
  destruct (find (is_soa h) (load h (Authorities rsp))) as [rr|] eqn:Hf.
  2:{ rewrite bool_decide_eq_true_2 by done. by rewrite lookup_miss_absent. }
  destruct (find_is_soa_Some _ _ _ Hf) as (Hin & soa & Hsoa & Hmin).
  rewrite Forall_forall in Hwt. destruct (Hwt rr Hin) as [Hu1 Hu2].
  specialize (Hu2 soa Hsoa). rewrite Hmin.
  case_bool_decide as Hz. { by rewrite lookup_miss_absent. }
  replace (if bool_decide (MaxTTL (config c) <
                           Z.min (TTL (Header rr)) (MinTTL soa))
           then MaxTTL (config c) else Z.min (TTL (Header rr)) (MinTTL soa))
    with (Z.min (Z.min (TTL (Header rr)) (MinTTL soa)) (MaxTTL (config c)))
    by (case_bool_decide; lia).
  apply (put_lookup_ok c h t0 t1 q rd rsp _ true ps Hwf Hk).
  unfold u32, min_i64, max_i64, Second in *. lia.
Qed.

Lemma negative_entry_lifetime_witness :
  let s := putNegativeResponse (new_resolver 0) nx_heap 0 nx_bar true
                               nx_response in
  (lookup s.1 s.2 (60 * Second) nx_bar true).2 = true ∧
  (lookup s.1 s.2 (60 * Second + 1) nx_bar true).2 = false.
Proof.
  assert (Forall (wt_record nx_heap) (load nx_heap (Authorities nx_response)))
    as Hwt.
  { assert (load nx_heap (Authorities nx_response) =
      [ mkResource (mkResourceHeader "bar." TypeSOA ClassINET 300)
                   (Some 7%nat) ]) as -> by (vm_compute; reflexivity).
    constructor; [|constructor]. split; [unfold u32; simpl; lia|].
    intros soa H. vm_compute in H. injection H as <-.
    unfold u32. simpl. lia. }
  split.
  - exact (negative_entry_lifetime (new_resolver 0) nx_heap 0 (60 * Second)
             nx_bar true nx_response [] wf_cache_empty eq_refl Hwt eq_refl).
  - exact (negative_entry_lifetime (new_resolver 0) nx_heap 0
             (60 * Second + 1) nx_bar true nx_response [] wf_cache_empty
             eq_refl Hwt eq_refl).
Defined.

(** X17.  What Resolve never stores.  After a miss, when the nested
    resolver gives no response, or a response whose RCode is neither
    Success nor a NameError that negative caching accepts (a server
    failure, a refusal, a name error while negative caching is off),
    the map, the list and the entries are as the lookup left them and
    the key is still absent; the response is returned as it is. *)
Theorem uncacheable_response_not_stored (nested : Resolver) c h now now' q rd
    ps :
  wf c ps →
  let lk := lookup c h now q rd in
  let n := nested lk.1.1.2 q rd in
  let r := Resolve nested c h now now' q rd in
  lk.2 = false →
  n.2 = false ∨
    (RCode_ (MHeader n.1.2) ≠ RCodeSuccess ∧
     (EnableNegativeCaching (config c) = false ∨
      RCode_ (MHeader n.1.2) ≠ RCodeNameError)) →
  r.2 = n.2 ∧ r.1.2 = (if n.2 then n.1.2 else zeroMessage) ∧
  m r.1.1.1 = m lk.1.1.1 ∧ l r.1.1.1 = l lk.1.1.1 ∧
  ents r.1.1.1 = ents lk.1.1.1 ∧ m r.1.1.1 !! mkKey q rd = None.
Proof.
  intros Hwf. cbv zeta. intros Hmiss Hcase.
  destruct (lookup_miss_wf c h now q rd ps Hwf Hmiss)
    as (_ & Hk0 & Hcfg0 & _).
  unfold Resolve. rewrite lookup_with_stats. cbv zeta.
  destruct (lookup c h now q rd) as [[[c0 h0] m0] ok0]. cbn [fst snd] in *.
  subst ok0.
  destruct (nested h0 q rd) as [[h1 rsp] ok1]. cbn [fst snd] in *.
  destruct ok1; cbn [negb]; [|done].
  destruct Hcase as [?|[Hrc Hneg]]; [done|].
  destruct (if bool_decide (_ ≠ NoReordering) then _ else _) as [h2 rnd2].
  cbn [config with_stats].
  assert (EnableNegativeCaching (config c0) &&
          isCacheableNegativeResponse h2 q rsp = false) as ->.
  { unfold isCacheableNegativeResponse.
    rewrite bool_decide_eq_false_2 by done.
    destruct Hneg as [Hoff|Hne].
    - by rewrite Hcfg0, Hoff.
    - rewrite (bool_decide_eq_false_2 _ Hne). apply andb_false_r. }
  by rewrite bool_decide_eq_false_2 by done.
Qed.

Lemma uncacheable_response_not_stored_witness :
  let r := Resolve NewErroringResolver (new_resolver 0) foo_bar_heap 0 0
                   foo_bar true in
  r.2 = true ∧ r.1.2 = ResolveError foo_bar RCodeNotImplemented true ∧
  m r.1.1.1 = ∅ ∧
  m r.1.1.1 !! mkKey foo_bar true = None.
Proof.
  destruct (uncacheable_response_not_stored NewErroringResolver (new_resolver 0)
              foo_bar_heap 0 0 foo_bar true [] wf_cache_empty eq_refl)
    as (H1 & H2 & H3 & _ & _ & H4).
  - right. split; [discriminate|]. by left.
  - exact (conj H1 (conj H2 (conj H3 H4))).
Defined.

(** X18.  NewResolver refuses exactly the reordering modes from
    invalidReordering on.  Otherwise it gives a resolver with an empty
    cache: every lookup is a miss, and a first call of Resolve answers
    what the nested resolver answers.  A MaxTTL of 0 is replaced by the
    default of 3600 seconds and every other option is kept. *)
Theorem NewResolver_spec cfg rnd st :
  match NewResolver cfg rnd st with
  | inr e => invalidReordering ≤ Reordering cfg
  | inl c =>
      Reordering cfg < invalidReordering ∧
      MaxTTL (config c) =
        (if bool_decide (MaxTTL cfg = 0) then defaultMaxTTL else MaxTTL cfg) ∧
      MaxTTL (config c) ≠ 0 ∧
      Reordering (config c) = Reordering cfg ∧
      EnableNegativeCaching (config c) = EnableNegativeCaching cfg ∧
      MaxSize (config c) = MaxSize cfg ∧
      rand c = rnd ∧ stats c = st ∧
      wf c [] ∧ list_elems c = [] ∧
      (∀ h now q rd, lookup c h now q rd = (c, h, zeroMessage, false)) ∧
      ∀ (nested : Resolver) h now now' q rd,
        let r := Resolve nested c h now now' q rd in
        r.2 = (nested h q rd).2 ∧
        r.1.2 = (if (nested h q rd).2 then (nested h q rd).1.2
                 else zeroMessage) ∧
        stats r.1.1.1 = AddDeferral (AddQuestion st)
  end.
Proof.
  assert (∀ c, m c = ∅ →
            ∀ (nested : Resolver) h now now' q rd,
              let r := Resolve nested c h now now' q rd in
              r.2 = (nested h q rd).2 ∧
              r.1.2 = (if (nested h q rd).2 then (nested h q rd).1.2
                       else zeroMessage) ∧
              stats r.1.1.1 = AddDeferral (AddQuestion (stats c))) as Hfirst.
  { intros c Hm nested h now now' q rd. cbv zeta.
    pose proof (Resolve_facts nested c h now now' q rd) as [_ Hst].
    cbv zeta in Hst. rewrite Hst. clear Hst.
    unfold Resolve. rewrite lookup_with_stats. cbv zeta.
    rewrite (lookup_miss_absent c h now q rd) by (by rewrite Hm).
    cbn [fst snd]. unfold count.
    destruct (nested h q rd) as [[h1 rsp] ok]. cbn [fst snd].
    destruct ok; cbn [negb]; [|done].
    destruct (if bool_decide (_ ≠ NoReordering) then _ else _) as [h2 rnd2].
    match goal with
    | |- context [putResponse ?x _ _ _ _ _] => set (c2 := x)
    end.
    destruct (EnableNegativeCaching (config c2) &&
              isCacheableNegativeResponse h2 q rsp).
    - by destruct (putNegativeResponse c2 h2 now' q rd rsp).
    - case_bool_decide; [|done].
      by destruct (putResponse c2 h2 now' q rd rsp). }
  unfold NewResolver.
  destruct (bool_decide_reflect (MaxTTL cfg = 0)) as [Hz|Hz];
    cbn [Reordering]; case_bool_decide as Hr; [done| |done|];
    (split_and!; [..|by apply Hfirst]);
    cbn [config m l ents rand stats Reordering EnableNegativeCaching MaxTTL
         MaxSize];
    try done; try lia; try apply wf_cache_empty.
Qed.

Section shuffle_types.
Implicit Types (rr rs : list Resource) (P : list nat).

Lemma types_lookup rr k T :
  types rr !! k = Some T ↔ ∃ r, rr !! k = Some r ∧ RType (Header r) = T.
Proof.
  unfold types. rewrite list_lookup_fmap, fmap_Some.
  split; intros (r & Hr & E); exists r; (split; [done|by rewrite E]).
Qed.

Lemma types_swap rr a b T :
  types rr !! a = Some T → types rr !! b = Some T →
  types (swap rr a b) = types rr.
Proof.
  intros Ha Hb. pose proof Ha as (ra & Hra & Ta)%types_lookup.
  pose proof Hb as (rb & Hrb & Tb)%types_lookup.
  unfold swap, types. rewrite !list_fmap_insert.
  rewrite (list_lookup_total_correct _ _ _ Hra),
    (list_lookup_total_correct _ _ _ Hrb), Ta, Tb.
  fold (types rr). by rewrite (list_insert_id _ _ _ Ha), (list_insert_id _ _ _ Hb).
Qed.

Lemma swap_other rr a b k : k ≠ a → k ≠ b → swap rr a b !! k = rr !! k.
Proof.
  intros Ha Hb. unfold swap. by rewrite !list_lookup_insert_ne.
Qed.

Lemma Shuffle_loop_types P T i : ∀ rr rnd,
  (i < length P)%nat → (∀ k, k ∈ P → types rr !! k = Some T) →
  types (Shuffle_loop i rr P rnd).1 = types rr ∧
  ∀ k, k ∉ P → (Shuffle_loop i rr P rnd).1 !! k = rr !! k.
Proof.
  induction i as [|i IH]; intros rr rnd Hi HP; simpl; [done|].
  pose proof (Intn_bound rnd (S (S i)) ltac:(lia)) as Hj.
  destruct (Intn rnd (S (S i))) as [j rnd']. simpl in Hj.
  assert (∀ k, k < length P → P !!! k ∈ P)%nat as Hin.
  { intros k Hk. apply list_elem_of_lookup. exists k.
    by apply list_lookup_lookup_total_lt. }
  assert (types (swap rr (P !!! S i) (P !!! j)) = types rr) as Hty.
  { apply (types_swap _ _ _ T); apply HP, Hin; lia. }
  destruct (IH (swap rr (P !!! S i) (P !!! j)) rnd') as [IH1 IH2]; [lia| |].
  { intros k Hk. rewrite Hty. by apply HP. }
  split; [by rewrite IH1|].
  intros k Hk. rewrite IH2 by done. apply swap_other.
  - intros ->. apply Hk, Hin. lia.
  - intros ->. apply Hk, Hin. lia.
Qed.

(** One stage of reorderMsg with shuffleRecords: the positions are those
    of the scan of the original answers [rr0]. *)
Lemma shuffle_stage T rr0 rr rnd :
  types rr = types rr0 →
  let rr' := (shuffleRecords rr (positions T rr0) rnd).1 in
  types rr' = types rr0 ∧
  ∀ i r, rr !! i = Some r → RType (Header r) ≠ T → rr' !! i = Some r.
Proof.
  intros Hty. cbv zeta. unfold shuffleRecords.
  case_bool_decide as Hlen; [done|].
  destruct (Shuffle_loop_types (positions T rr0) T
              (length (positions T rr0) - 1) rr rnd) as [H1 H2]; [lia| |].
  { intros k (_ & r & Hr & HT)%elem_of_positions_from.
    rewrite Nat.sub_0_r in Hr. rewrite Hty. apply types_lookup. eauto. }
  split; [by rewrite H1|].
  intros i r Hr HT. rewrite H2; [done|].
  intros (_ & r' & Hr' & HT')%elem_of_positions_from.
  rewrite Nat.sub_0_r in Hr'.
  assert (types rr !! i = Some (RType (Header r))) as E1
    by (apply types_lookup; eauto).
  assert (types rr0 !! i = Some T) as E2 by (apply types_lookup; eauto).
  rewrite Hty in E1. congruence.
Qed.

Lemma reorder_list_shuffle_types rs rnd :
  let rs' := (reorder_list shuffleRecords rs rnd).1 in
  types rs' = types rs ∧
  ∀ i r, rs !! i = Some r → RType (Header r) ∉ reordered_types →
         rs' !! i = Some r.
Proof.
  unfold reorder_list. case_bool_decide as Hlen; [done|].
  destruct (scan_answers_spec rs) as (EA & E4 & EM & EN).
  rewrite EA, E4, EM, EN.
  destruct (shuffleRecords rs _ rnd) as [r1 n1] eqn:S1.
  destruct (shuffleRecords r1 _ n1) as [r2 n2] eqn:S2.
  destruct (shuffleRecords r2 _ n2) as [r3 n3] eqn:S3.
  destruct (shuffleRecords r3 _ n3) as [r4 n4] eqn:S4.
  pose proof (shuffle_stage TypeA rs rs rnd eq_refl) as (T1 & F1).
  rewrite S1 in T1, F1. simpl in T1, F1.
  pose proof (shuffle_stage TypeAAAA rs r1 n1 T1) as (T2 & F2).
  rewrite S2 in T2, F2. simpl in T2, F2.
  pose proof (shuffle_stage TypeMX rs r2 n2 T2) as (T3 & F3).
  rewrite S3 in T3, F3. simpl in T3, F3.
  pose proof (shuffle_stage TypeNS rs r3 n3 T3) as (T4 & F4).
  rewrite S4 in T4, F4. simpl in T4, F4.
  simpl. split; [done|].
  intros i r Hr HT.
  assert (RType (Header r) ≠ TypeA ∧ RType (Header r) ≠ TypeAAAA ∧
          RType (Header r) ≠ TypeMX ∧ RType (Header r) ≠ TypeNS)
    as (NA & N4 & NM & NN).
  { unfold reordered_types in HT. rewrite !elem_of_cons, elem_of_nil in HT.
    split_and!; intros E; apply HT; rewrite E; tauto. }
  apply F4; [apply F3; [apply F2; [by apply F1|done]|done]|done].
Qed.

End shuffle_types.

(** X19.  reorderMsg with shuffleRecords, whatever the generator draws:
    the answers are permuted, every position keeps the type of its
    record (A, AAAA, MX and NS records are shuffled among the positions
    of their own type), and a record of any other type stays where it
    is. *)
Theorem shuffle_within_type_classes rs rnd :
  let rs' := (reorder_list shuffleRecords rs rnd).1 in
  rs' ≡ₚ rs ∧ types rs' = types rs ∧
  ∀ i r, rs !! i = Some r → RType (Header r) ∉ reordered_types →
         rs' !! i = Some r.
Proof.
  cbv zeta. split; [apply reorder_list_shuffle_perm|].
  apply reorder_list_shuffle_types.
Qed.

(** X20.  A question that the cache can answer does not reach the nested
    resolver: when the lookup is a hit, Resolve returns the message and
    the heap of the lookup, whatever the nested resolver is, and counts
    one question and one answer. *)
Theorem hit_served_without_nested (nested nested' : Resolver) c h now now'
    now'' q rd :
  (lookup c h now q rd).2 = true →
  let lk := lookup c h now q rd in
  let r := Resolve nested c h now now' q rd in
  r = Resolve nested' c h now now'' q rd ∧
  r.2 = true ∧ r.1.2 = lk.1.2 ∧ r.1.1.2 = lk.1.1.2 ∧
  r.1.1.1 = with_stats lk.1.1.1 (AddAnswer (AddQuestion (stats c))).
Proof.
  intros Hhit. cbv zeta. unfold Resolve. rewrite lookup_with_stats.
  cbv zeta. destruct (lookup c h now q rd) as [[[c0 h0] m0] ok0].
  cbn [fst snd] in *. subst ok0. done.
Qed.

Lemma hit_served_without_nested_witness :
  let c := (one_entry 0).1 in
  let h := (one_entry 0).2 in
  Resolve static_resolver c h 1 1 foo_bar true =
  Resolve NewErroringResolver c h 1 2 foo_bar true.
Proof.
  assert ((lookup (one_entry 0).1 (one_entry 0).2 1 foo_bar true).2 = true)
    as Hhit.
  { destruct (one_entry_wf 0 eq_refl) as (_ & Hm & e & He & Hx & _).
    apply (lookup_serves _ _ _ _ _ _ e Hm He). rewrite Hx. unfold Second. lia. }
  exact (proj1 (hit_served_without_nested static_resolver NewErroringResolver
                  (one_entry 0).1 (one_entry 0).2 1 1 2 foo_bar true Hhit)).
Defined.

Section pass_through.
Implicit Types (c : cachingResolver) (h : Mem) (ps : list addr).

Lemma put_heap c h now q rd rsp ttl neg :
  (put c h now q rd rsp ttl neg).2 = (put_mem h rsp).1.
Proof.
  rewrite put_eq. cbv zeta.
  destruct (over_size _ _); [|done]. by destruct (Back _).
Qed.

Lemma putResponse_heap c h now q rd rsp :
  msg_valid h rsp → extends_except [] h (putResponse c h now q rd rsp).2.
Proof.
  intros Hv. unfold putResponse.
  destruct (_ && _); [apply extends_except_refl|].
  case_bool_decide; [apply extends_except_refl|].
  rewrite put_heap. by apply put_mem_spec.
Qed.

Lemma putNegativeResponse_heap c h now q rd rsp :
  msg_valid h rsp →
  extends_except [] h (putNegativeResponse c h now q rd rsp).2.
Proof.
  intros Hv. unfold putNegativeResponse.
  case_bool_decide; [apply extends_except_refl|].
  rewrite put_heap. by apply put_mem_spec.
Qed.

Lemma seconds_started_nonneg e : 0 ≤ e → 0 ≤ seconds_started e.
Proof. intros. unfold seconds_started, Second. apply Z.div_pos; lia. Qed.

Lemma seconds_started_mono e1 e2 :
  e1 ≤ e2 → seconds_started e1 ≤ seconds_started e2.
Proof.
  intros. unfold seconds_started, Second. apply Z.div_le_mono; lia.
Qed.

Lemma seconds_started_ge t e : 0 ≤ t → t * Second ≤ e → t ≤ seconds_started e.
Proof.
  intros Ht He. unfold seconds_started, Second in *.
  apply Z.div_le_lower_bound; lia.
Qed.

Lemma initial_ttl_le h neg r : initial_ttl h neg r ≤ TTL (Header r).
Proof.
  unfold initial_ttl. destruct neg; [|done].
  destruct (deref h (Body r)) as [[]|]; try done. lia.
Qed.

End pass_through.

(** X21.  adjustTTL writes TTLs only and never raises one: for records
    that hold uint32 values and a clock that has not gone backwards,
    every record keeps its name, type, class and body, its TTL is at
    most what it was and at least 0, it is 0 once the TTL has fully
    elapsed, and a longer elapsed time never gives a larger TTL. *)
Theorem adjustTTL_never_raises_ttl h s e1 e2 neg :
  Forall (wt_record h) (load h s) → 0 ≤ e1 ≤ e2 → e2 ≤ max_i64 →
  let rs := load h s in
  let rs1 := load (adjustTTL h s e1 neg) s in
  let rs2 := load (adjustTTL h s e2 neg) s in
  length rs1 = length rs ∧ bodies (adjustTTL h s e1 neg) = bodies h ∧
  ∀ i r, rs !! i = Some r →
    ∃ r1 r2, rs1 !! i = Some r1 ∧ rs2 !! i = Some r2 ∧
      r1 = set_TTL r (TTL (Header r1)) ∧
      0 ≤ TTL (Header r2) ≤ TTL (Header r1) ∧
      TTL (Header r1) ≤ TTL (Header r) ∧
      (TTL (Header r) * Second ≤ e1 → TTL (Header r1) = 0).
Proof.
  intros Hwt He1 He2. cbv zeta.
  rewrite !adjustTTL_spec, !adjustTTL_list_aged by (done || lia).
  split_and!.
  - by rewrite length_fmap.
  - unfold adjustTTL. apply bodies_store.
  - intros i r Hr. exists (aged h e1 neg r), (aged h e2 neg r).
    rewrite !list_lookup_fmap, Hr. split_and!; try done.
    + unfold aged, set_TTL. simpl. lia.
    + unfold aged, set_TTL. simpl.
      pose proof (seconds_started_mono e1 e2). lia.
    + unfold aged, set_TTL. simpl.
      pose proof (initial_ttl_le h neg r).
      pose proof (seconds_started_nonneg e1).
      rewrite Forall_forall in Hwt.
      destruct (Hwt r) as [[? ?] _]; [by eapply list_elem_of_lookup_2|]. lia.
    + intros Hfull. unfold aged, set_TTL. simpl.
      rewrite Forall_forall in Hwt.
      destruct (Hwt r) as [[? ?] _]; [by eapply list_elem_of_lookup_2|].
      pose proof (initial_ttl_le h neg r).
      pose proof (seconds_started_ge (TTL (Header r)) e1). lia.
Qed.

(** X22.  On a miss Resolve passes the response of the nested resolver
    through: the message returned is the one the nested resolver gave,
    no array other than that of its answers is written, no body is
    written, and the answers are the same records, in the same order
    when reordering is off and otherwise permuted with every position
    keeping the type of its record. *)
Theorem miss_passes_response_through (nested : Resolver) c h now now' q rd
    ps h1 rsp :
  wf c ps → (lookup c h now q rd).2 = false →
  nested h q rd = (h1, rsp, true) → msg_valid h1 rsp →
  let r := Resolve nested c h now now' q rd in
  let rs := load h1 (Answers rsp) in
  let rs' := load r.1.1.2 (Answers rsp) in
  r.2 = true ∧ r.1.2 = rsp ∧
  extends_except [Answers rsp] h1 r.1.1.2 ∧
  rs' ≡ₚ rs ∧ types rs' = types rs ∧
  (Reordering (config c) = NoReordering → rs' = rs).
Proof.
  intros Hwf Hmiss Hnest Hv.
  destruct (lookup_miss_wf c h now q rd ps Hwf Hmiss)
    as (_ & _ & Hcfg0 & _ & _ & Hh0 & _).
  cbv zeta. unfold Resolve. rewrite lookup_with_stats. cbv zeta.
  destruct (lookup c h now q rd) as [[[c0 h0] m0] ok0].
  cbn [fst snd] in *. subst ok0 h0. rewrite Hnest. cbn [negb].
  cbn [config with_stats stats rand].
  assert (∃ h2 rnd2,
    (if bool_decide (Reordering (config c0) ≠ NoReordering)
     then reorderMsg h1 rsp shuffleRecords (rand c0)
     else (h1, rand c0)) = (h2, rnd2) ∧
    msg_valid h2 rsp ∧ extends_except [Answers rsp] h1 h2 ∧
    load h2 (Answers rsp) ≡ₚ load h1 (Answers rsp) ∧
    types (load h2 (Answers rsp)) = types (load h1 (Answers rsp)) ∧
    (Reordering (config c) = NoReordering →
     load h2 (Answers rsp) = load h1 (Answers rsp)))
    as (h2 & rnd2 & -> & Hv2 & HX & Hperm & Hty & Hsame).
  { rewrite Hcfg0. case_bool_decide as Hmode.
    - destruct Hv as (VA & VU & VD).
      pose proof (reorderMsg_spec h1 rsp shuffleRecords (rand c0) VA)
        as (L & _ & Hst).
      pose proof (valid_reorderMsg h1 rsp shuffleRecords (rand c0)) as Hval.
      destruct (reorderMsg h1 rsp shuffleRecords (rand c0)) as [h2 rnd2].
      cbn [fst snd] in *. exists h2, rnd2. split_and!; try done.
      + split_and!; by apply Hval.
      + rewrite Hst. by apply extends_except_store.
      + rewrite L. apply reorder_list_shuffle_perm.
      + rewrite L. apply reorder_list_shuffle_types.
    - exists h1, (rand c0). split_and!; try done. }
  match goal with
  | |- context [putResponse ?x _ _ _ _ _] => set (c2 := x)
  end.
  pose proof (putResponse_heap c2 h2 now' q rd rsp Hv2) as HP.
  pose proof (putNegativeResponse_heap c2 h2 now' q rd rsp Hv2) as HN.
  assert (∀ h', extends_except [] h2 h' →
            extends_except [Answers rsp] h1 h' ∧
            load h' (Answers rsp) = load h2 (Answers rsp)) as Hfin.
  { intros h' HX'. split.
    - eapply extends_except_trans; [exact HX|].
      eapply extends_except_weaken; [|exact HX']. by intros ? ?%elem_of_nil.
    - apply (extends_except_load' [] h2 h'); [done|apply Hv2|constructor]. }
  destruct (EnableNegativeCaching (config c0) &&
            isCacheableNegativeResponse h2 q rsp).
  - destruct (putNegativeResponse c2 h2 now' q rd rsp) as [c3 h3].
    cbn [fst snd] in *. destruct (Hfin h3 HN) as [? ->].
    split_and!; done.
  - case_bool_decide.
    + destruct (putResponse c2 h2 now' q rd rsp) as [c3 h3].
      cbn [fst snd] in *. destruct (Hfin h3 HP) as [? ->].
      split_and!; done.
    + cbn [fst snd]. split_and!; done.
Qed.

Lemma miss_passes_response_through_witness :
  let r := Resolve static_resolver (new_resolver 0) foo_bar_heap 0 0
                   foo_bar true in
  r.2 = true ∧ r.1.2 = foo_bar_response ∧
  load r.1.1.2 (Answers foo_bar_response) =
    load foo_bar_heap (Answers foo_bar_response).
Proof.
  destruct (miss_passes_response_through static_resolver (new_resolver 0)
              foo_bar_heap 0 0 foo_bar true [] foo_bar_heap foo_bar_response
              wf_cache_empty eq_refl eq_refl)
    as (H1 & H2 & _ & _ & _ & H3).
  - split_and!; simpl; try done; eexists; reflexivity.
  - exact (conj H1 (conj H2 (H3 eq_refl))).
Defined.

Lemma adjustTTL_never_raises_ttl_witness :
  let rs1 := load (adjustTTL foo_bar_heap (Some 1%nat) (3 * Second) false)
                  (Some 1%nat) in
  length rs1 = 2%nat ∧
  bodies (adjustTTL foo_bar_heap (Some 1%nat) (3 * Second) false) =
    bodies foo_bar_heap.
Proof.
  assert (Forall (wt_record foo_bar_heap) (load foo_bar_heap (Some 1%nat)))
    as Hwt.
  { assert (load foo_bar_heap (Some 1%nat) =
      [ mkResource (mkResourceHeader "foo.bar." TypeA ClassINET 10) (Some 7%nat);
        mkResource (mkResourceHeader "foo.bar." TypeA ClassINET 10) (Some 8%nat) ])
      as -> by (vm_compute; reflexivity).
    constructor; [|constructor; [|constructor]];
      (split; [unfold u32; simpl; lia
              |intros soa H; vm_compute in H; discriminate]). }
  assert (0 ≤ 3 * Second ≤ 5 * Second) as He by (unfold Second; lia).
  assert (5 * Second ≤ max_i64) as Hm by (unfold Second, max_i64; lia).
  destruct (adjustTTL_never_raises_ttl foo_bar_heap (Some 1%nat) (3 * Second)
              (5 * Second) false Hwt He Hm) as (H1 & H2 & _).
  exact (conj H1 H2).
Defined.

Section packets.
Context {parser : Type}.
Implicit Types (ops : dnsmessageOps parser) (res : Resolver) (h : Mem).

(** The outcome of ResolvePacket for a request with exactly one
    question. *)
Lemma ResolvePacket_one_question ops res h packet maxPacketLength buf
    hd p q p' :
  Start ops packet = inl (hd, p) → Response hd = false →
  PQuestion ops p = inl (q, p') → SkipQuestion ops p' = SectionDone →
  ResolvePacket ops res h None packet maxPacketLength buf =
    let n := res h q (RecursionDesired hd) in
    let h1 := n.1.1 in
    let rsp := with_ID n.1.2 (ID hd) in
    if negb n.2 then (h1, inr ErrNoResponse)
    else
      match AppendPack ops h1 rsp buf with
      | inr e => (h1, inr (PackingError e))
      | inl respBuf =>
          if bool_decide (maxPacketLength = 0) ||
             bool_decide (Z.of_nat (length respBuf) ≤ maxPacketLength)
          then (h1, inl respBuf)
          else
            match AppendPack ops h1 (truncated_response rsp) buf with
            | inr e => (h1, inr (PackingError e))
            | inl respBuf =>
                if bool_decide (maxPacketLength < Z.of_nat (length respBuf))
                then (h1, inr ErrTruncatedResponseTooBig)
                else (h1, inl respBuf)
            end
      end.
Proof.
  intros HS HR HQ HK. unfold ResolvePacket. rewrite HS, HR, HQ, HK.
  cbv zeta. destruct (res h q (RecursionDesired hd)) as [[h1 rsp] ok].
  cbn [fst snd]. destruct ok; cbn [negb]; [|done].
  destruct (AppendPack ops h1 _ buf); [|done].
  destruct (_ || _); [done|]. done.
Qed.

End packets.

(** A packet returned for a request with one question is within a limit
    other than 0. *)
Lemma resolved_packet_len {parser} (ops : dnsmessageOps parser)
    (res : Resolver) h packet maxPacketLength buf hd p q p' :
  Start ops packet = inl (hd, p) → Response hd = false →
  PQuestion ops p = inl (q, p') → SkipQuestion ops p' = SectionDone →
  ∀ b, (ResolvePacket ops res h None packet maxPacketLength buf).2 = inl b →
  maxPacketLength ≠ 0 → Z.of_nat (length b) ≤ maxPacketLength.
Proof.
  intros HS HR HQ HK b.
  rewrite (ResolvePacket_one_question ops res h packet maxPacketLength buf
             hd p q p' HS HR HQ HK). cbv zeta.
  destruct (negb _); [done|].
  destruct (AppendPack ops _ _ buf) as [b1|]; [|done].
  intros Hres Hmax. revert Hres.
  rewrite (bool_decide_eq_false_2 _ Hmax). cbn [orb].
  case_bool_decide as H1. { cbn [snd]. by intros [= <-]. }
  destruct (AppendPack ops _ _ buf) as [b2|]; [|done].
  case_bool_decide as H2; [done|]. cbn [snd]. intros [= <-]. lia.
Qed.

(** X23.  The length contract of ResolvePacket.  For a request with
    exactly one question and a limit other than 0, a packet that is
    returned without an error is never longer than maxPacketLength,
    [buf] included: a response that is longer is truncated, or given up
    with an error. *)
Theorem resolved_packet_within_limit {parser} (ops : dnsmessageOps parser)
    (res : Resolver) h packet maxPacketLength buf hd p q p' b :
  Start ops packet = inl (hd, p) → Response hd = false →
  PQuestion ops p = inl (q, p') → SkipQuestion ops p' = SectionDone →
  maxPacketLength ≠ 0 →
  (ResolvePacket ops res h None packet maxPacketLength buf).2 = inl b →
  Z.of_nat (length b) ≤ maxPacketLength.
Proof.
  intros HS HR HQ HK Hmax Hres.
  by apply (resolved_packet_len ops res h packet maxPacketLength buf
              hd p q p' HS HR HQ HK).
Qed.

Lemma resolved_packet_within_limit_witness :
  ∃ b, (ResolvePacket example_ops static_resolver foo_bar_heap None [] 30 []).2
       = inl b ∧ Z.of_nat (length b) ≤ 30.
Proof.
  eexists. split; [vm_compute; reflexivity|].
  refine (resolved_packet_within_limit example_ops static_resolver
            foo_bar_heap [] 30 []
            (mkMsgHeader 42 false 0 false false true false 0) tt foo_bar tt
            _ eq_refl eq_refl eq_refl eq_refl _ _).
  - discriminate.
  - vm_compute. reflexivity.
Defined.

(** X24.  A request that is not taken to the resolver.  When the context
    has expired, the packet does not parse, it is itself a response, or
    it does not hold exactly one question, ResolvePacket answers without
    calling the resolver: its result is the same for every resolver and
    the heap is as it was. *)
Theorem rejected_packet_never_resolved {parser} (ops : dnsmessageOps parser)
    (res res' : Resolver) h ctxErr packet maxPacketLength buf :
  (∀ hd p q p', ctxErr = None → Start ops packet = inl (hd, p) →
     Response hd = false → PQuestion ops p = inl (q, p') →
     SkipQuestion ops p' ≠ SectionDone) →
  ResolvePacket ops res h ctxErr packet maxPacketLength buf =
    ResolvePacket ops res' h ctxErr packet maxPacketLength buf ∧
  (ResolvePacket ops res h ctxErr packet maxPacketLength buf).1 = h.
Proof.
  intros Hrej. unfold ResolvePacket.
  destruct ctxErr as [e|]; [done|].
  destruct (Start ops packet) as [[hd p]|e] eqn:HS; [|done].
  destruct (Response hd) eqn:HR; [done|].
  destruct (PQuestion ops p) as [[q p']|e] eqn:HQ; [|done].
  specialize (Hrej hd p q p' eq_refl eq_refl HR HQ).
  destruct (SkipQuestion ops p') eqn:HK; done.
Qed.

Lemma rejected_packet_never_resolved_witness :
  ResolvePacket two_question_ops static_resolver foo_bar_heap None [] 512 [] =
  ResolvePacket two_question_ops NewErroringResolver foo_bar_heap None [] 512 [].
Proof.
  refine (proj1 (rejected_packet_never_resolved two_question_ops
            static_resolver NewErroringResolver foo_bar_heap None [] 512 [] _)).
  intros hd p q p' _ _ _ _. discriminate.
Defined.

Section framing.

Lemma byte_val_of v : byte_val (byte_of v) = v mod 256.
Proof.
  unfold byte_val, byte_of.
  pose proof (Z.mod_pos_bound v 256 ltac:(lia)) as Hb.
  destruct (Byte.of_N (Z.to_N (v mod 256))) as [y|] eqn:E.
  - apply Byte.to_of_N in E. simpl. rewrite E. lia.
  - apply Byte.of_N_None_iff in E. lia.
Qed.

Lemma lor_bytes v :
  0 ≤ v < 2 ^ 16 →
  Z.lor (v mod 256) (Z.shiftl (Z.shiftr v 8 mod 256) 8) = v.
Proof.
  intros Hv. rewrite Z.shiftr_div_pow2 by lia.
  assert (v / 2 ^ 8 < 256) by (apply Z.div_lt_upper_bound; lia).
  assert (0 ≤ v / 2 ^ 8) by (apply Z.div_pos; lia).
  rewrite (Z.mod_small (v / 2 ^ 8)) by lia.
  change 256 with (2 ^ 8).
  apply Z.bits_inj'. intros n Hn.
  rewrite Z.lor_spec.
  destruct (decide (n < 8)) as [Hlt|Hge].
  - rewrite Z.mod_pow2_bits_low by lia.
    rewrite Z.shiftl_spec_low by lia. apply orb_false_r.
  - rewrite Z.mod_pow2_bits_high by lia.
    rewrite Z.shiftl_spec by lia.
    rewrite Z.div_pow2_bits by lia. simpl. f_equal. lia.
Qed.

(** Reading back the two bytes that PutUint16 has written. *)
Lemma Uint16_PutUint16 b v :
  0 ≤ v < 2 ^ 16 → (2 ≤ length b)%nat →
  ∃ f, PutUint16 b v = Some f ∧ Uint16 f = Some v ∧ drop 2 f = drop 2 b ∧
       length f = length b.
Proof.
  intros Hv Hb. destruct b as [|b0 [|b1 rest]]; simpl in Hb; try lia.
  eexists. split; [reflexivity|]. split_and!; [|done|done].
  unfold Uint16. by rewrite !byte_val_of, lor_bytes.
Qed.

End framing.

Section tcp.
Context {parser : Type}.
Implicit Types (ops : dnsmessageOps parser) (res : Resolver) (h : Mem).

(** A packet that is returned for a request with one question has been
    packed on [buf]. *)
Lemma ResolvePacket_packed ops res h packet maxPacketLength buf hd p q p' b :
  Start ops packet = inl (hd, p) → Response hd = false →
  PQuestion ops p = inl (q, p') → SkipQuestion ops p' = SectionDone →
  (ResolvePacket ops res h None packet maxPacketLength buf).2 = inl b →
  ∃ h1 rsp, AppendPack ops h1 rsp buf = inl b.
Proof.
  intros HS HR HQ HK.
  rewrite (ResolvePacket_one_question ops res h packet maxPacketLength buf
             hd p q p' HS HR HQ HK). cbv zeta.
  destruct (negb _); [done|].
  destruct (AppendPack ops _ _ buf) as [b1|] eqn:E1; [|done].
  destruct (_ || _). { cbn [snd]. intros [= <-]. eauto. }
  destruct (AppendPack ops _ (truncated_response _) buf) as [b2|] eqn:E2;
    [|done].
  case_bool_decide; [done|]. cbn [snd]. intros [= <-]. eauto.
Qed.

End tcp.

(** X25.  The frame of a TCP response.  For a request with exactly one
    question and a packer that appends to its buffer, an iteration of
    the loop of handleTCP does not panic, and what it writes is the packet
    that ResolvePacket has appended to the two bytes of the buffer,
    preceded by its length as two bytes in big-endian order; the packet
    is at most 65533 bytes long. *)
Theorem tcp_response_frame {parser} (ops : dnsmessageOps parser)
    (res : Resolver) h readBuf w0 w1 hd p q p' :
  appends ops →
  Start ops readBuf = inl (hd, p) → Response hd = false →
  PQuestion ops p = inl (q, p') → SkipQuestion ops p' = SectionDone →
  let out := (tcp_respond ops res h None readBuf [w0; w1]).2 in
  out ≠ TcpPanic ∧ out ≠ TcpShort ∧
  ∀ frame, out = TcpWrite frame →
    ∃ payload,
      (ResolvePacket ops res h None readBuf MaxUint16 [w0; w1]).2 =
        inl ([w0; w1] ++ payload) ∧
      drop 2 frame = payload ∧
      Uint16 frame = Some (Z.of_nat (length payload)) ∧
      Z.of_nat (length payload) ≤ 65533.
Proof.
  intros Happ HS HR HQ HK. cbv zeta. unfold tcp_respond.
  pose proof (resolved_packet_len ops res h readBuf MaxUint16 [w0; w1]
                hd p q p' HS HR HQ HK) as Hlen.
  pose proof (λ b, ResolvePacket_packed ops res h readBuf MaxUint16 [w0; w1]
                     hd p q p' b HS HR HQ HK) as Hpk.
  destruct (ResolvePacket ops res h None readBuf MaxUint16 [w0; w1])
    as [h1 [b|e]]; cbn [fst snd] in *; [|split_and!; [done|done|by intros ?]].
  destruct (Hpk b eq_refl) as (h2 & rsp & Hb).
  destruct (Happ _ _ _ _ Hb) as [payload ->].
  specialize (Hlen _ eq_refl ltac:(done)). unfold MaxUint16 in *.
  cbn [length app] in *.
  rewrite bool_decide_eq_false_2 by lia.
  assert (0 ≤ Z.of_nat (S (S (length payload))) - 2 < 2 ^ 16) as Hr by lia.
  rewrite (Z.mod_small _ _ Hr).
  destruct (Uint16_PutUint16 (w0 :: w1 :: payload) _ Hr)
    as (f & -> & HU & Hd & _); [simpl; lia|].
  split_and!; [done|done|]. intros frame [= <-]. exists payload.
  split_and!; [done|done| |lia].
  rewrite HU. f_equal. lia.
Qed.

Lemma example_ops_appends : appends example_ops.
Proof. intros h rsp buf r [= <-]. by eexists. Qed.

Lemma tcp_response_frame_witness :
  ∃ frame,
    (tcp_respond example_ops static_resolver foo_bar_heap None []
                 [Byte.x00; Byte.x00]).2 = TcpWrite frame ∧
    Uint16 frame = Some (Z.of_nat (length (drop 2 frame))).
Proof.
  destruct (tcp_response_frame example_ops static_resolver foo_bar_heap []
              Byte.x00 Byte.x00
              (mkMsgHeader 42 false 0 false false true false 0) tt foo_bar tt
              example_ops_appends eq_refl eq_refl eq_refl eq_refl)
    as (_ & _ & H).
  eexists. split; [vm_compute; reflexivity|].
  destruct (H _ ltac:(vm_compute; reflexivity)) as (payload & _ & Hd & HU & _).
  rewrite Hd. exact HU.
Defined.

(** X26.  An error response over TCP.  For a request that does not hold
    exactly one question, ResolvePacket returns the packet that
    respondError has packed into a buffer of its own, not on the two
    bytes it was given; the iteration of handleTCP writes the length in
    place of the first two bytes of this packet, so the frame holds the
    packet without its first two bytes, preceded by the length of the
    rest. *)
Theorem tcp_error_response_frame {parser} (ops : dnsmessageOps parser)
    (res : Resolver) h readBuf w0 w1 hd p r :
  Start ops readBuf = inl (hd, p) → Response hd = false →
  (∀ q p', PQuestion ops p = inl (q, p') →
           SkipQuestion ops p' ≠ SectionDone) →
  (ResolvePacket ops res h None readBuf MaxUint16 [w0; w1]).2 = inl r →
  2 ≤ Z.of_nat (length r) ≤ 65537 →
  (∃ rcode, respondError ops h hd rcode = inl r ∧
            (rcode = RCodeFormatError ∨ rcode = RCodeNotImplemented)) ∧
  ∃ frame,
    (tcp_respond ops res h None readBuf [w0; w1]).2 = TcpWrite frame ∧
    Uint16 frame = Some (Z.of_nat (length r) - 2) ∧
    drop 2 frame = drop 2 r ∧ length frame = length r.
Proof.
  intros HS HR Hq Hres Hlen.
  assert (∃ rcode, (ResolvePacket ops res h None readBuf MaxUint16 [w0; w1])
                   = (h, respondError ops h hd rcode) ∧
            (rcode = RCodeFormatError ∨ rcode = RCodeNotImplemented))
    as (rcode & Heq & Hrc).
  { unfold ResolvePacket. rewrite HS, HR.
    destruct (PQuestion ops p) as [[q p']|e] eqn:HQ; [|eauto].
    specialize (Hq q p' eq_refl).
    destruct (SkipQuestion ops p'); [eauto|done|eauto]. }
  split.
  { exists rcode. split; [|done]. rewrite Heq in Hres. exact Hres. }
  unfold tcp_respond. rewrite Heq in Hres |- *. cbn [snd] in Hres.
  rewrite Hres. unfold MaxUint16.
  rewrite bool_decide_eq_false_2 by lia.
  assert (0 ≤ Z.of_nat (length r) - 2 < 2 ^ 16) as Hr by lia.
  rewrite (Z.mod_small _ _ Hr).
  destruct (Uint16_PutUint16 r _ Hr) as (f & -> & HU & Hd & Hl); [lia|].
  by exists f.
Qed.

Lemma tcp_error_response_frame_witness :
  ∃ frame,
    (tcp_respond two_question_ops static_resolver foo_bar_heap None []
                 [Byte.x00; Byte.x00]).2 = TcpWrite frame ∧
    Uint16 frame = Some (Z.of_nat 12 - 2) ∧ length frame = 12%nat.
Proof.
  destruct (tcp_error_response_frame two_question_ops static_resolver
              foo_bar_heap [] Byte.x00 Byte.x00
              (mkMsgHeader 42 false 0 false false true false 0) tt
              (replicate 12 Byte.x00) eq_refl eq_refl)
    as (_ & frame & H1 & H2 & _ & H3).
  - intros q p' _. discriminate.
  - vm_compute. reflexivity.
  - rewrite length_replicate. lia.
  - rewrite length_replicate in H2, H3.
    exists frame. split_and!; [exact H1|exact H2|exact H3].
Defined.

Section static_lemmas.
Variable NameBytes : Name → bytes + err.
Variable NewNameBytes : bytes → Name + err.
Local Abbreviation normQ := (normalizeQuestion NameBytes NewNameBytes).
Local Abbreviation table := (static_table NameBytes NewNameBytes).

Lemma static_table_lookup mapping : ∀ m0 m k r,
  table mapping m0 = inl m →
  (∀ q2 r2, (q2, r2) ∈ mapping → normQ q2 = inl k → r2 = r) →
  (m0 !! k = Some r ∨ ∃ q, (q, r) ∈ mapping ∧ normQ q = inl k) →
  m !! k = Some r.
Proof.
  induction mapping as [|[q1 r1] mapping IH]; intros m0 m k r Ht Huniq Hin.
  { simpl in Ht. injection Ht as <-.
    destruct Hin as [?|(q & Hq & _)]; [done|]. by apply elem_of_nil in Hq. }
  simpl in Ht. destruct (normQ q1) as [k1|e] eqn:Hn1; [|done].
  apply (IH _ _ k r Ht).
  { intros q2 r2 Hq2. apply Huniq. by right. }
  destruct (decide (k1 = k)) as [->|Hne].
  - left. rewrite lookup_insert_eq. f_equal.
    apply (Huniq q1 r1); [by left|done].
  - rewrite lookup_insert_ne by done.
    destruct Hin as [?|(q & Hq & Hnq)]; [by left|]. right.
    apply elem_of_cons in Hq as [[= -> ->]|Hq]; [congruence|eauto].
Qed.

Lemma static_table_absent mapping : ∀ m0 m k,
  table mapping m0 = inl m →
  (∀ q2 r2, (q2, r2) ∈ mapping → normQ q2 ≠ inl k) →
  m !! k = m0 !! k.
Proof.
  induction mapping as [|[q1 r1] mapping IH]; intros m0 m k Ht Hno.
  { simpl in Ht. by injection Ht as <-. }
  simpl in Ht. destruct (normQ q1) as [k1|e] eqn:Hn1; [|done].
  rewrite (IH _ _ k Ht).
  - apply lookup_insert_ne. intros ->. apply (Hno q1 r1); [by left|done].
  - intros q2 r2 Hq2. apply (Hno q2 r2). by right.
Qed.

(** The answer of the static resolver from the message [r] of its table. *)
Lemma static_Resolve_hit m nested h q rd nq r :
  normQ q = inl nq → m !! nq = Some r → msg_valid h r →
  let v := static_Resolve NameBytes NewNameBytes m nested h q rd in
  v.2 = true ∧ Questions v.1.2 = [q] ∧
  MHeader v.1.2 =
    mkMsgHeader 0 true 0 (Authoritative (MHeader r)) false rd
                (RecursionAvailable (MHeader r)) RCodeSuccess ∧
  sections v.1.1 v.1.2 = sections h r ∧
  extends_except [] h v.1.1 ∧
  fresh_in h (Answers v.1.2) ∧ fresh_in h (Authorities v.1.2) ∧
  fresh_in h (Additionals v.1.2).
Proof.
  intros Hn Hm Hv. cbv zeta. unfold static_Resolve. rewrite Hn, Hm.
  destruct (put_mem_spec h r Hv) as (_ & Hsec & _ & FA & FU & FD & HX).
  unfold put_mem in *.
  destruct (copySlice h _) as [h1 a]. destruct (copySlice h1 _) as [h2 u].
  destruct (copySlice h2 _) as [h3 d]. cbn [fst snd] in *.
  split_and!; done.
Qed.

End static_lemmas.

(** X27.  The static resolver answers from its table without regard to
    the case of letters.  When exactly one message of the mapping is
    filed under the normalized form of a question (name in lower case,
    type, class), every question with this normalized form is answered
    with the records of that message in newly allocated arrays, with
    the question as it was asked, the recursion flag of the request,
    and RCode Success; the nested resolver is not consulted. *)
Theorem static_resolver_answers_from_table
    (NameBytes : Name → bytes + err) (NewNameBytes : bytes → Name + err)
    mapping (nested nested' : Resolver) res res' q0 r q nq h rd :
  NewStaticResolver NameBytes NewNameBytes mapping nested = inl res →
  NewStaticResolver NameBytes NewNameBytes mapping nested' = inl res' →
  (q0, r) ∈ mapping →
  normalizeQuestion NameBytes NewNameBytes q0 = inl nq →
  normalizeQuestion NameBytes NewNameBytes q = inl nq →
  (∀ q2 r2, (q2, r2) ∈ mapping →
     normalizeQuestion NameBytes NewNameBytes q2 = inl nq → r2 = r) →
  msg_valid h r →
  let v := res h q rd in
  v = res' h q rd ∧
  v.2 = true ∧ Questions v.1.2 = [q] ∧
  MHeader v.1.2 =
    mkMsgHeader 0 true 0 (Authoritative (MHeader r)) false rd
                (RecursionAvailable (MHeader r)) RCodeSuccess ∧
  sections v.1.1 v.1.2 = sections h r ∧
  extends_except [] h v.1.1 ∧
  fresh_in h (Answers v.1.2) ∧ fresh_in h (Authorities v.1.2) ∧
  fresh_in h (Additionals v.1.2).
Proof.
  intros Hres Hres' Hin Hn0 Hn Huniq Hv. cbv zeta.
  unfold NewStaticResolver in *.
  destruct (static_table NameBytes NewNameBytes mapping ∅) as [m|e] eqn:Ht;
    [|done].
  injection Hres as <-. injection Hres' as <-.
  assert (m !! nq = Some r) as Hm.
  { apply (static_table_lookup NameBytes NewNameBytes mapping ∅ m nq r Ht Huniq).
    right. eauto. }
  split.
  - unfold static_Resolve. by rewrite Hn, Hm.
  - by apply (static_Resolve_hit NameBytes NewNameBytes m nested h q rd nq r).
Qed.

(** X28.  The static resolver defers what its table does not hold.  When
    the name of the question cannot be normalized, or no entry of the
    mapping is filed under the normalized form of the question, the
    answer is that of the nested resolver for the question as it was
    asked. *)
Theorem static_resolver_defers_to_nested
    (NameBytes : Name → bytes + err) (NewNameBytes : bytes → Name + err)
    mapping (nested : Resolver) res q h rd :
  NewStaticResolver NameBytes NewNameBytes mapping nested = inl res →
  (∀ q2 r2, (q2, r2) ∈ mapping →
     normalizeQuestion NameBytes NewNameBytes q2 ≠
     normalizeQuestion NameBytes NewNameBytes q) →
  res h q rd = nested h q rd.
Proof.
  intros Hres Hno. unfold NewStaticResolver in *.
  destruct (static_table NameBytes NewNameBytes mapping ∅) as [m|e] eqn:Ht;
    [|done].
  injection Hres as <-. unfold static_Resolve.
  destruct (normalizeQuestion NameBytes NewNameBytes q) as [nq|e] eqn:Hn;
    [|done].
  rewrite (static_table_absent NameBytes NewNameBytes mapping ∅ m nq Ht).
  - by rewrite lookup_empty.
  - intros q2 r2 Hq2. exact (Hno q2 r2 Hq2).
Qed.

Lemma example_mapping_single q2 r2 :
  (q2, r2) ∈ example_mapping →
  q2 = mkQuestion "FOO.bar." TypeA ClassINET ∧ r2 = foo_bar_response.
Proof.
  unfold example_mapping. intros [= -> ->]%list_elem_of_singleton. done.
Qed.

Lemma static_resolver_answers_from_table_witness :
  ∃ res,
    NewStaticResolver example_NameBytes example_NewNameBytes example_mapping
                      NewErroringResolver = inl res ∧
    let v := res foo_bar_heap (mkQuestion "foo.BAR." TypeA ClassINET) true in
    v.2 = true ∧
    Questions v.1.2 = [mkQuestion "foo.BAR." TypeA ClassINET] ∧
    sections v.1.1 v.1.2 = sections foo_bar_heap foo_bar_response.
Proof.
  eexists. split; [reflexivity|].
  destruct (static_resolver_answers_from_table example_NameBytes
              example_NewNameBytes example_mapping NewErroringResolver
              NewErroringResolver _ _
              (mkQuestion "FOO.bar." TypeA ClassINET) foo_bar_response
              (mkQuestion "foo.BAR." TypeA ClassINET) foo_bar foo_bar_heap true
              eq_refl eq_refl)
    as (_ & H1 & H2 & _ & H3 & _).
  - by apply list_elem_of_singleton.
  - vm_compute. reflexivity.
  - vm_compute. reflexivity.
  - intros q2 r2 Hin _. by destruct (example_mapping_single q2 r2 Hin).
  - split_and!; simpl; try done; eexists; reflexivity.
  - exact (conj H1 (conj H2 H3)).
Defined.

Lemma static_resolver_defers_to_nested_witness :
  ∃ res,
    NewStaticResolver example_NameBytes example_NewNameBytes example_mapping
                      NewErroringResolver = inl res ∧
    res foo_bar_heap (moo "moo.a.") true =
      NewErroringResolver foo_bar_heap (moo "moo.a.") true.
Proof.
  eexists. split; [reflexivity|].
  apply (static_resolver_defers_to_nested example_NameBytes
           example_NewNameBytes example_mapping NewErroringResolver _
           (moo "moo.a.") foo_bar_heap true eq_refl).
  intros q2 r2 Hin. destruct (example_mapping_single q2 r2 Hin) as [-> _].
  vm_compute. discriminate.
Defined.
